(** * knowledge-app: the bi-directional link engine

    A shallow embedding of [src/lib/linking/parser.ts],
    [src/lib/db/operations.ts] and [src/lib/db/schema.ts], with the two
    Dexie tables they work on, and the properties of the reference graph
    proved (or refuted) on it. *)

From stdpp Require Import gmap strings list fin_maps sorting pretty.
From Stdlib Require Import Ascii ZArith.

#[local] Set Warnings "-clear-no-such-hyp".

(** ** JavaScript primitives used by the sources *)

(** Strings are sequences of code units; the model takes code units in
    the range 0..255, which Rocq's [ascii] covers. *)
Module JsString.

(** [WhiteSpace] and [LineTerminator] code units, as [String.prototype.trim]
    strips them: TAB, LF, VT, FF, CR, SP and NBSP. *)
Definition isWhiteSpace (c : ascii) : bool :=
  match nat_of_ascii c with
  | 9 | 10 | 11 | 12 | 13 | 32 | 160 => true
  | _ => false
  end.

Fixpoint trimStart (s : string) : string :=
  match s with
  | EmptyString => EmptyString
  | String c s' => if isWhiteSpace c then trimStart s' else s
  end.

Fixpoint trimEnd (s : string) : string :=
  match s with
  | EmptyString => EmptyString
  | String c s' =>
      match trimEnd s' with
      | EmptyString => if isWhiteSpace c then EmptyString else String c EmptyString
      | t => String c t
      end
  end.

(** [s.trim()] *)
Definition trim (s : string) : string := trimEnd (trimStart s).

(** a string made of white space only *)
Fixpoint blank (s : string) : bool :=
  match s with
  | EmptyString => true
  | String c s' => isWhiteSpace c && blank s'
  end.

(** the last code unit of a string, if any *)
Fixpoint last (s : string) : option ascii :=
  match s with
  | EmptyString => None
  | String c EmptyString => Some c
  | String _ s' => last s'
  end.

Definition head (s : string) : option ascii :=
  match s with
  | EmptyString => None
  | String c _ => Some c
  end.

(** no white space at either end *)
Definition trimmed (s : string) : Prop :=
  (∀ c, head s = Some c → isWhiteSpace c = false) ∧
  (∀ c, last s = Some c → isWhiteSpace c = false).

(** [c] occurs in [s] *)
Fixpoint occurs (c : ascii) (s : string) : bool :=
  match s with
  | EmptyString => false
  | String d s' => Ascii.eqb c d || occurs c s'
  end.

(** [s.endsWith(suffix)] *)
Fixpoint endsWith (s suffix : string) : bool :=
  String.eqb s suffix ||
  match s with
  | EmptyString => false
  | String _ s' => endsWith s' suffix
  end.

(** [s.split(sep)[0]] for a one-unit separator: the text before the
    first separator. *)
Fixpoint split_first (sep : ascii) (s : string) : string :=
  match s with
  | EmptyString => EmptyString
  | String c s' => if Ascii.eqb c sep then EmptyString else String c (split_first sep s')
  end.

End JsString.

(** [new Set(iterable)], [set.add], [set.delete], [Array.from(set)]: a
    JS Set iterates in insertion order, so it is the list of its
    elements in that order. *)
Module JsSet.
Section set.
Context {A : Type} `{EqDecision A}.

Definition add (s : list A) (x : A) : list A :=
  if decide (x ∈ s) then s else s ++ [x].

Definition of_list (l : list A) : list A := foldl add [] l.

Definition delete (s : list A) (x : A) : list A :=
  filter (λ y, y ≠ x) s.
End set.
End JsSet.

(** ** The reference parser ([src/lib/linking/parser.ts]) *)

Module Regex.
Import JsString.

(** [[^\]]+], greedy: the longest prefix free of the closing bracket,
    and what follows it. *)
Fixpoint span_body (s : string) : string * string :=
  match s with
  | EmptyString => (EmptyString, EmptyString)
  | String c s' =>
      if Ascii.eqb c "]" then (EmptyString, s)
      else let '(b, r) := span_body s' in (String c b, r)
  end.

(** One attempt of [/\[\[([^\]]+)\]\]/] at the start of [s]: the
    capture group and the text after the match.  The greedy body is the
    only candidate: a shorter body is followed by a unit that is not a
    closing bracket, so backtracking cannot succeed. *)
Definition exec_at (s : string) : option (string * string) :=
  match s with
  | String "[" (String "[" s1) =>
      match span_body s1 with
      | (String c b, String "]" (String "]" rest)) => Some (String c b, rest)
      | _ => None
      end
  | _ => None
  end.

(** [content.matchAll(regex)] with the [g] flag, keeping capture group 1
    of each match: leftmost match first, the scan resumes after the
    match, or one unit further when the attempt fails.  Every step
    consumes at least one unit, so the length of the text is enough
    fuel. *)
Fixpoint matchAll_from (fuel : nat) (s : string) : list string :=
  match fuel with
  | 0 => []
  | S fuel' =>
      match exec_at s with
      | Some (g, rest) => g :: matchAll_from fuel' rest
      | None =>
          match s with
          | EmptyString => []
          | String _ s' => matchAll_from fuel' s'
          end
      end
  end.

Definition matchAll (s : string) : list string :=
  matchAll_from (String.length s) s.

(** [regex.test(content)] for the regex without the [g] flag: one
    attempt at each position, from the left, until one succeeds. *)
Fixpoint test (s : string) : bool :=
  match exec_at s with
  | Some _ => true
  | None =>
      match s with
      | EmptyString => false
      | String _ s' => test s'
      end
  end.
End Regex.

Definition parseWikiLinks (content : string) : list string :=
  let matches := Regex.matchAll content in
  let titles := map JsString.trim matches in
  JsSet.of_list titles.

Definition hasWikiLinks (content : string) : bool := Regex.test content.

(** Following the words of the contract: keep each entry at its first
    occurrence and drop the later ones. *)
Fixpoint first_occurrences (l : list string) : list string :=
  match l with
  | [] => []
  | x :: l' => x :: filter (λ y, y ≠ x) (first_occurrences l')
  end.

(** Following the words of the contract: a well-formed marker stands in
    [text] after [pre] and before [rest], with [g] between its brackets:
    two opening brackets, a body that is not empty and holds no closing
    bracket, two closing brackets. *)
Definition marker_in (text pre g rest : string) : Prop :=
  text = pre +:+ "[[" +:+ g +:+ "]]" +:+ rest ∧
  g ≠ "" ∧ JsString.occurs "]" g = false.

(** The references of a text, in the order of the text: none when no
    well-formed marker stands in it; else the body of the leftmost
    well-formed marker, then the references of what follows that
    marker. *)
Inductive references : string → list string → Prop :=
  | references_none text :
      (∀ pre g rest, ¬ marker_in text pre g rest) →
      references text []
  | references_next text pre g rest gs :
      marker_in text pre g rest →
      (∀ pre' g' rest', marker_in text pre' g' rest' →
                        String.length pre ≤ String.length pre') →
      references rest gs →
      references text (g :: gs).

(** ** The data model ([src/lib/db/schema.ts]) *)

Module Note.
Record t := mk {
  id : string;
  title : string;
  content : string;
  contentText : string;
  tags : list string;
  createdAt : Z;
  updatedAt : Z;
  linkedNoteIds : list string;
  backlinkNoteIds : list string;
}.

Definition set_title (v : string) (n : t) : t :=
  mk (id n) v (content n) (contentText n) (tags n) (createdAt n)
     (updatedAt n) (linkedNoteIds n) (backlinkNoteIds n).
Definition set_content (v : string) (n : t) : t :=
  mk (id n) (title n) v (contentText n) (tags n) (createdAt n)
     (updatedAt n) (linkedNoteIds n) (backlinkNoteIds n).
Definition set_contentText (v : string) (n : t) : t :=
  mk (id n) (title n) (content n) v (tags n) (createdAt n)
     (updatedAt n) (linkedNoteIds n) (backlinkNoteIds n).
Definition set_tags (v : list string) (n : t) : t :=
  mk (id n) (title n) (content n) (contentText n) v (createdAt n)
     (updatedAt n) (linkedNoteIds n) (backlinkNoteIds n).
Definition set_updatedAt (v : Z) (n : t) : t :=
  mk (id n) (title n) (content n) (contentText n) (tags n) (createdAt n)
     v (linkedNoteIds n) (backlinkNoteIds n).
Definition set_linkedNoteIds (v : list string) (n : t) : t :=
  mk (id n) (title n) (content n) (contentText n) (tags n) (createdAt n)
     (updatedAt n) v (backlinkNoteIds n).
Definition set_backlinkNoteIds (v : list string) (n : t) : t :=
  mk (id n) (title n) (content n) (contentText n) (tags n) (createdAt n)
     (updatedAt n) (linkedNoteIds n) v.

(** [Partial<Omit<Note, 'id' | 'createdAt'>>]: a property is either
    absent or carries a value. *)
Record partial := mkPartial {
  title_opt : option string;
  content_opt : option string;
  contentText_opt : option string;
  tags_opt : option (list string);
  updatedAt_opt : option Z;
  linkedNoteIds_opt : option (list string);
  backlinkNoteIds_opt : option (list string);
}.

Definition empty : partial := mkPartial None None None None None None None.

Definition with_opt {V} (set : V → t → t) (o : option V) (n : t) : t :=
  match o with Some v => set v n | None => n end.

(** [{...n, ...p}]: the properties present in [p] override those of [n]. *)
Definition spread (p : partial) (n : t) : t :=
  with_opt set_backlinkNoteIds (backlinkNoteIds_opt p)
    (with_opt set_linkedNoteIds (linkedNoteIds_opt p)
      (with_opt set_updatedAt (updatedAt_opt p)
        (with_opt set_tags (tags_opt p)
          (with_opt set_contentText (contentText_opt p)
            (with_opt set_content (content_opt p)
              (with_opt set_title (title_opt p) n)))))).
End Note.

Module Link.
Record t := mk {
  id : string;
  sourceNoteId : string;
  targetNoteId : string;
  targetTitle : string;
  createdAt : Z;
  resolved : bool;
}.
End Link.

(** [createEmptyNote()], completed with the three properties the caller
    adds. *)
Definition createEmptyNote (id : string) (createdAt updatedAt : Z) : Note.t :=
  Note.mk id "Untitled Note" "" "" [] createdAt updatedAt [] [].

Definition extractPlainText (content : string) : string :=
  JsString.trim content.

Definition generateTitleFromContent (content : string) : string :=
  if String.eqb content "" || String.eqb (JsString.trim content) "" then
    "Untitled Note"
  else
    let firstLine := JsString.trim (JsString.split_first "010" content) in
    if bool_decide (0 < String.length firstLine) then
      if bool_decide (100 < String.length firstLine)
      then String.substring 0 100 firstLine +:+ "..."
      else firstLine
    else "Untitled Note".

(** ** The store ([src/lib/db/index.ts]) *)

(** A Dexie table is an object store keyed by its primary key, [id]; rows
    are enumerated in the order of their keys. *)
Module Table.
Definition key_le (a b : string) : Prop := String.leb a b.

Definition keys {V} (m : gmap string V) : list string :=
  merge_sort String.le (elements (dom m)).

(** [table.toArray()] *)
Definition toArray {V} (m : gmap string V) : list V :=
  omap (λ k, m !! k) (keys m).

(** [table.filter(p).toArray()] *)
Definition filter_toArray {V} (p : V → bool) (m : gmap string V) : list V :=
  filter (λ v, p v = true) (toArray m).

(** [collection.first()] *)
Definition first {V} (p : V → bool) (m : gmap string V) : option V :=
  head (filter_toArray p m).

(** [collection.delete()]: the rows satisfying [p] are removed. *)
Definition delete_where {V} (p : V → bool) (m : gmap string V) : gmap string V :=
  filter (λ kv : string * V, p kv.2 = false) m.
End Table.

(** A request that modifies the store, as issued to Dexie. *)
Inductive Request :=
  | notes_add_req (key : string)
  | notes_update_req (key : string)
  | notes_delete_req (key : string)
  | links_add_req (key : string)
  | links_delete_req.

(** What the host supplies: [uuid_at n] (resp. [time_at n]) is the value
    [uuidv4()] (resp. [Date.now()]) returns when it is the n-th call made
    to the host. *)
Record Host := {
  uuid_at : nat → string;
  time_at : nat → Z;
}.

(** The two tables, the number of draws made from the host so far, and
    the write requests issued so far (latest last). *)
Record World := mkWorld {
  notes : gmap string Note.t;
  links : gmap string Link.t;
  draws : nat;
  journal : list Request;
}.

(** An [async] computation: it runs on the world and either fulfils with
    a value or rejects ([None]); no transaction is opened by the sources,
    so the writes made before a rejection stay. *)
Definition Async (A : Type) : Type := World → option A * World.

Definition ret {A} (a : A) : Async A := λ w, (Some a, w).

Definition bind {A B} (m : Async A) (k : A → Async B) : Async B :=
  λ w, match m w with
       | (Some a, w') => k a w'
       | (None, w') => (None, w')
       end.

Notation "x <~ m ;; k" := (bind m (λ x, k))
  (at level 100, m at next level, right associativity).
Notation "m ;;; k" := (bind m (λ _, k))
  (at level 100, right associativity).

(** [for (const x of l) { await body(x) }] *)
Fixpoint forEach {A} (l : list A) (body : A → Async unit) : Async unit :=
  match l with
  | [] => ret tt
  | x :: l' => body x ;;; forEach l' body
  end.

Definition log (r : Request) (w : World) : World :=
  mkWorld (notes w) (links w) (draws w) (journal w ++ [r]).

Section host.
Context (host : Host).

Definition uuidv4 : Async string :=
  λ w, (Some (uuid_at host (draws w)),
        mkWorld (notes w) (links w) (S (draws w)) (journal w)).

Definition Date_now : Async Z :=
  λ w, (Some (time_at host (draws w)),
        mkWorld (notes w) (links w) (S (draws w)) (journal w)).

(** [db.notes.get(id)] *)
Definition notes_get (id : string) : Async (option Note.t) :=
  λ w, (Some (notes w !! id), w).

(** [db.notes.filter(p).toArray()] *)
Definition notes_filter (p : Note.t → bool) : Async (list Note.t) :=
  λ w, (Some (Table.filter_toArray p (notes w)), w).

(** [db.notes.update(id, changes)]: nothing happens when the key is
    absent. *)
Definition notes_update (id : string) (changes : Note.t → Note.t) : Async unit :=
  λ w, (Some tt,
        log (notes_update_req id)
          (mkWorld (alter changes id (notes w)) (links w) (draws w) (journal w))).

(** [db.notes.add(note)]: rejects with a ConstraintError when the key is
    already there. *)
Definition notes_add (n : Note.t) : Async unit :=
  λ w, match notes w !! Note.id n with
       | Some _ => (None, log (notes_add_req (Note.id n)) w)
       | None =>
           (Some tt,
            log (notes_add_req (Note.id n))
              (mkWorld (<[Note.id n := n]> (notes w)) (links w) (draws w) (journal w)))
       end.

(** [db.notes.delete(id)] *)
Definition notes_delete (id : string) : Async unit :=
  λ w, (Some tt,
        log (notes_delete_req id)
          (mkWorld (delete id (notes w)) (links w) (draws w) (journal w))).

(** [db.links.add(link)] *)
Definition links_add (l : Link.t) : Async unit :=
  λ w, match links w !! Link.id l with
       | Some _ => (None, log (links_add_req (Link.id l)) w)
       | None =>
           (Some tt,
            log (links_add_req (Link.id l))
              (mkWorld (notes w) (<[Link.id l := l]> (links w)) (draws w) (journal w)))
       end.

(** [db.links.where(...).equals(...).and(p).first()], with the whole
    condition in [p]. *)
Definition links_first (p : Link.t → bool) : Async (option Link.t) :=
  λ w, (Some (Table.first p (links w)), w).

(** [db.links.where(...).equals(...).and(p).delete()] *)
Definition links_delete (p : Link.t → bool) : Async unit :=
  λ w, (Some tt,
        log links_delete_req
          (mkWorld (notes w) (Table.delete_where p (links w)) (draws w) (journal w))).
End host.

(** ** Content commit ([updateNoteLinks], [src/lib/linking/parser.ts]) *)

Section engine.
Context (host : Host).

(** [linkedTitles.includes(t)] *)
Definition includes (l : list string) (x : string) : bool := bool_decide (x ∈ l).

(** Notes we are now linking to. *)
Definition addedLinks (newLinkedNoteIds oldLinkedNoteIds : list string) : list string :=
  filter (λ id, includes oldLinkedNoteIds id = false) newLinkedNoteIds.

(** Notes we are no longer linking to. *)
Definition removedLinks (newLinkedNoteIds oldLinkedNoteIds : list string) : list string :=
  filter (λ id, includes newLinkedNoteIds id = false) oldLinkedNoteIds.

(** The titles that match no note. *)
Definition unresolvedTitles (linkedTitles : list string) (linkedNotes : list Note.t) : list string :=
  filter (λ title, existsb (λ note, String.eqb (Note.title note) title) linkedNotes = false)
         linkedTitles.

(** Body of the first loop: add a backlink to a newly linked note and
    create its Link record. *)
Definition addBacklink (noteId linkedNoteId : string) : Async unit :=
  linkedNote <~ notes_get linkedNoteId ;;
  match linkedNote with
  | Some linkedNote =>
      let backlinks := JsSet.add (JsSet.of_list (Note.backlinkNoteIds linkedNote)) noteId in
      notes_update linkedNoteId (Note.set_backlinkNoteIds backlinks) ;;;
      id <~ uuidv4 host ;;
      now <~ Date_now host ;;
      links_add (Link.mk id noteId linkedNoteId (Note.title linkedNote) now true)
  | None => ret tt
  end.

(** Body of the second loop: remove the backlink from an unlinked note
    and delete the Link records to it. *)
Definition removeBacklink (noteId unlinkedNoteId : string) : Async unit :=
  unlinkedNote <~ notes_get unlinkedNoteId ;;
  match unlinkedNote with
  | Some unlinkedNote =>
      let backlinks := JsSet.delete (JsSet.of_list (Note.backlinkNoteIds unlinkedNote)) noteId in
      notes_update unlinkedNoteId (Note.set_backlinkNoteIds backlinks) ;;;
      links_delete (λ link, String.eqb (Link.sourceNoteId link) noteId
                            && String.eqb (Link.targetNoteId link) unlinkedNoteId)
  | None => ret tt
  end.

(** Body of the third loop: create the unresolved Link of a title unless
    the note already has one. *)
Definition addUnresolved (noteId title : string) : Async unit :=
  existingLink <~ links_first (λ link, String.eqb (Link.sourceNoteId link) noteId
                                       && (String.eqb (Link.targetTitle link) title
                                           && negb (Link.resolved link))) ;;
  match existingLink with
  | Some _ => ret tt
  | None =>
      id <~ uuidv4 host ;;
      now <~ Date_now host ;;
      links_add (Link.mk id noteId "" title now false)
  end.

Definition updateNoteLinks (noteId content : string) : Async unit :=
  let linkedTitles := parseWikiLinks content in
  currentNote <~ notes_get noteId ;;
  match currentNote with
  | None => ret tt
  | Some currentNote =>
      linkedNotes <~ notes_filter (λ note, includes linkedTitles (Note.title note)) ;;
      let newLinkedNoteIds := map Note.id linkedNotes in
      let oldLinkedNoteIds := Note.linkedNoteIds currentNote in
      notes_update noteId (Note.set_linkedNoteIds newLinkedNoteIds) ;;;
      forEach (addedLinks newLinkedNoteIds oldLinkedNoteIds) (addBacklink noteId) ;;;
      forEach (removedLinks newLinkedNoteIds oldLinkedNoteIds) (removeBacklink noteId) ;;;
      forEach (unresolvedTitles linkedTitles linkedNotes) (addUnresolved noteId)
  end.

(** ** Note operations ([src/lib/db/operations.ts]) *)

(** A string is truthy when it is not empty; an absent property is falsy. *)
Definition truthy (s : option string) : bool :=
  match s with
  | Some s => negb (String.eqb s "")
  | None => false
  end.

(** The note [createNote] assembles before adding it: the defaults, then
    the caller's data, then the time stamps; the title generated from
    the content when none is given; the plain text of the content. *)
Definition newNote (data : Note.partial) (id : string) (now : Z) : Note.t :=
  let note := Note.spread data (createEmptyNote id now now) in
  let note := Note.set_updatedAt now note in
  let note :=
    if negb (truthy (Note.title_opt data)) && truthy (Some (Note.content note))
    then Note.set_title (generateTitleFromContent (Note.content note)) note
    else note in
  Note.set_contentText (extractPlainText (Note.content note)) note.

Definition createNote (data : Note.partial) : Async Note.t :=
  now <~ Date_now host ;;
  id <~ uuidv4 host ;;
  let note := newNote data id now in
  notes_add note ;;;
  ret note.

Definition getNote (id : string) : Async (option Note.t) := notes_get id.

Definition updateNote (id : string) (updates : Note.partial) : Async unit :=
  now <~ Date_now host ;;
  let finalUpdates :=
    Note.mkPartial (Note.title_opt updates) (Note.content_opt updates)
      (Note.contentText_opt updates) (Note.tags_opt updates) (Some now)
      (Note.linkedNoteIds_opt updates) (Note.backlinkNoteIds_opt updates) in
  finalUpdates <~
    match Note.content_opt updates with
    | Some content =>
        let finalUpdates :=
          Note.mkPartial (Note.title_opt finalUpdates) (Note.content_opt finalUpdates)
            (Some (extractPlainText content)) (Note.tags_opt finalUpdates)
            (Note.updatedAt_opt finalUpdates)
            (Note.linkedNoteIds_opt finalUpdates) (Note.backlinkNoteIds_opt finalUpdates) in
        if negb (truthy (Note.title_opt updates)) then
          existingNote <~ getNote id ;;
          match existingNote with
          | Some existingNote =>
              if String.eqb (Note.title existingNote) "Untitled Note"
                 || JsString.endsWith (Note.title existingNote) "..."
              then ret (Note.mkPartial (Some (generateTitleFromContent content))
                          (Note.content_opt finalUpdates) (Note.contentText_opt finalUpdates)
                          (Note.tags_opt finalUpdates) (Note.updatedAt_opt finalUpdates)
                          (Note.linkedNoteIds_opt finalUpdates)
                          (Note.backlinkNoteIds_opt finalUpdates))
              else ret finalUpdates
          | None => ret finalUpdates
          end
        else ret finalUpdates
    | None => ret finalUpdates
    end ;;
  notes_update id (Note.spread finalUpdates).

(** Body of the first loop of [deleteNote]. *)
Definition dropBacklink (id linkedNoteId : string) : Async unit :=
  linkedNote <~ getNote linkedNoteId ;;
  match linkedNote with
  | Some linkedNote =>
      let updatedBacklinks :=
        filter (λ backlink, backlink ≠ id) (Note.backlinkNoteIds linkedNote) in
      notes_update linkedNoteId (Note.set_backlinkNoteIds updatedBacklinks)
  | None => ret tt
  end.

(** Body of the second loop of [deleteNote]. *)
Definition dropLink (id backlinkNoteId : string) : Async unit :=
  backlinkNote <~ getNote backlinkNoteId ;;
  match backlinkNote with
  | Some backlinkNote =>
      let updatedLinks :=
        filter (λ link, link ≠ id) (Note.linkedNoteIds backlinkNote) in
      notes_update backlinkNoteId (Note.set_linkedNoteIds updatedLinks)
  | None => ret tt
  end.

Definition deleteNote (id : string) : Async unit :=
  note <~ getNote id ;;
  match note with
  | None => ret tt
  | Some note =>
      forEach (Note.linkedNoteIds note) (dropBacklink id) ;;;
      forEach (Note.backlinkNoteIds note) (dropLink id) ;;;
      links_delete (λ link, String.eqb (Link.sourceNoteId link) id) ;;;
      links_delete (λ link, String.eqb (Link.targetNoteId link) id) ;;;
      notes_delete id
  end.

End engine.

(** ** What the properties are stated with *)

(** The world an [async] computation leaves, fulfilled or rejected. *)
Definition after {A} (m : Async A) (w : World) : World := (m w).2.

(** The table after [db.notes.update(x, changes)] for each [x] of [l],
    where the changes are computed from the row itself. *)
Definition alter_each (G : Note.t → Note.t) (l : list string)
    (m : gmap string Note.t) : gmap string Note.t :=
  foldl (λ m x, alter G x m) m l.

(** What each loop writes on the row it reads: the first two loops of
    [updateNoteLinks], then the two loops of [deleteNote]. *)
Definition with_backlink (noteId : string) (n : Note.t) : Note.t :=
  Note.set_backlinkNoteIds
    (JsSet.add (JsSet.of_list (Note.backlinkNoteIds n)) noteId) n.

Definition without_backlink (noteId : string) (n : Note.t) : Note.t :=
  Note.set_backlinkNoteIds
    (JsSet.delete (JsSet.of_list (Note.backlinkNoteIds n)) noteId) n.

Definition strip_backlink (id : string) (n : Note.t) : Note.t :=
  Note.set_backlinkNoteIds
    (filter (λ backlink, backlink ≠ id) (Note.backlinkNoteIds n)) n.

Definition strip_link (id : string) (n : Note.t) : Note.t :=
  Note.set_linkedNoteIds
    (filter (λ link, link ≠ id) (Note.linkedNoteIds n)) n.

(** Symmetry of the two adjacency views, over the notes of the store. *)
Definition symmetric (w : World) : Prop :=
  ∀ a b na nb,
    notes w !! a = Some na → notes w !! b = Some nb →
    (b ∈ Note.linkedNoteIds na ↔ a ∈ Note.backlinkNoteIds nb).

(** No two Link rows share [(sourceNoteId, targetTitle)]. *)
Definition unique_links (w : World) : Prop :=
  ∀ k1 k2 l1 l2,
    links w !! k1 = Some l1 → links w !! k2 = Some l2 →
    Link.sourceNoteId l1 = Link.sourceNoteId l2 →
    Link.targetTitle l1 = Link.targetTitle l2 →
    k1 = k2.

(** No two unresolved Link rows share [(sourceNoteId, targetTitle)]. *)
Definition unique_unresolved (w : World) : Prop :=
  ∀ k1 k2 l1 l2,
    links w !! k1 = Some l1 → links w !! k2 = Some l2 →
    Link.sourceNoteId l1 = Link.sourceNoteId l2 →
    Link.targetTitle l1 = Link.targetTitle l2 →
    Link.resolved l1 = false → Link.resolved l2 = false →
    k1 = k2.

(** The world after the unconditional update of the source's
    [linkedNoteIds]. *)
Definition relinked (noteId : string) (newLinkedNoteIds : list string)
    (w : World) : World :=
  log (notes_update_req noteId)
    (mkWorld (alter (Note.set_linkedNoteIds newLinkedNoteIds) noteId (notes w))
       (links w) (draws w) (journal w)).

(** The store holds a resolved Link row from [src] to [tgt], carrying
    [title]. *)
Definition resolved_edge (w : World) (src tgt title : string) : Prop :=
  ∃ k l, links w !! k = Some l ∧ Link.sourceNoteId l = src ∧
         Link.targetNoteId l = tgt ∧ Link.targetTitle l = title ∧
         Link.resolved l = true.

(** The store holds an unresolved Link row of [src] for [title]. *)
Definition placeholder (w : World) (src title : string) : Prop :=
  ∃ k l, links w !! k = Some l ∧ Link.sourceNoteId l = src ∧
         Link.targetTitle l = title ∧ Link.resolved l = false.

(** The ids of the notes whose title is among the titles parsed from
    [content], in the order of the table. *)
Definition matching_ids (w : World) (content : string) : list string :=
  map Note.id
    (Table.filter_toArray (λ note, includes (parseWikiLinks content) (Note.title note))
       (notes w)).

(** Every row of the notes table is stored under its own [id] (the
    table's key path). *)
Definition keyed (w : World) : Prop :=
  ∀ k n, notes w !! k = Some n → Note.id n = k.

(** The note identifier [id] occurs in the store: as a note, in an
    adjacency list, or as an end of a Link row. *)
Definition mentions (w : World) (id : string) : Prop :=
  is_Some (notes w !! id) ∨
  (∃ k n, notes w !! k = Some n ∧
          (Note.id n = id ∨ id ∈ Note.linkedNoteIds n ∨ id ∈ Note.backlinkNoteIds n)) ∨
  (∃ k r, links w !! k = Some r ∧
          (Link.sourceNoteId r = id ∨ Link.targetNoteId r = id)).

(** Executable counterparts of [keyed] and [symmetric]. *)
Definition keyedb (w : World) : bool :=
  forallb (λ k, match notes w !! k with
                | Some n => String.eqb (Note.id n) k
                | None => true
                end) (Table.keys (notes w)).

Definition symmetricb (w : World) : bool :=
  forallb (λ a,
    forallb (λ b,
      match notes w !! a, notes w !! b with
      | Some na, Some nb =>
          Bool.eqb (bool_decide (b ∈ Note.linkedNoteIds na))
                   (bool_decide (a ∈ Note.backlinkNoteIds nb))
      | _, _ => true
      end) (Table.keys (notes w))) (Table.keys (notes w)).

(** The updates of a rename: [{ title: newTitle }]. *)
Definition renaming (newTitle : string) : Note.partial :=
  Note.mkPartial (Some newTitle) None None None None None None.

(** The identifiers the host has yet to hand out are unused as Link keys
    and pairwise distinct: [uuidv4] does not repeat itself. *)
Definition fresh_ids (host : Host) (w : World) : Prop :=
  (∀ i, draws w ≤ i → links w !! uuid_at host i = None) ∧
  (∀ i j, draws w ≤ i → draws w ≤ j → uuid_at host i = uuid_at host j → i = j).

(** ** A host and worlds to run the engine on *)

Module Demo.

(** The n-th identifier is the n-th letter; the clock starts at 1000. *)
Definition host : Host :=
  {| uuid_at n := String (ascii_of_nat (97 + n)) EmptyString;
     time_at n := (1000 + Z.of_nat n)%Z |}.

Definition w0 : World := mkWorld ∅ ∅ 0 [].

Definition titled (t : string) : Note.partial := renaming t.

(** Note "b" titled "A" is created, and its body "see [[B]]" committed. *)
Definition w1 : World := after (createNote host (titled "A")) w0.
Definition w2 : World := after (updateNoteLinks host "b" "see [[B]]") w1.
(** Note "f" titled "B" is created, and the body of "b" committed again,
    twice. *)
Definition w3 : World := after (createNote host (titled "B")) w2.
Definition w4 : World := after (updateNoteLinks host "b" "see [[B]]") w3.
Definition w5 : World := after (updateNoteLinks host "b" "see [[B]]") w4.

(** Two notes titled "Dup" ("b" and "d") and a third one ("f") whose body
    refers to that title. *)
Definition d1 : World := after (createNote host (titled "Dup")) w0.
Definition d2 : World := after (createNote host (titled "Dup")) d1.
Definition d3 : World := after (createNote host (titled "C")) d2.
Definition d4 : World := after (updateNoteLinks host "f" "[[Dup]]") d3.

(** After [w2], a note "f" titled "X" is created, then renamed to "B". *)
Definition r1 : World := after (createNote host (titled "X")) w2.
Definition r2 : World := after (updateNote host "f" (renaming "B")) r1.

End Demo.

(** ** More JavaScript primitives *)

Module JsText.

(** [c.toLowerCase()] on one code unit of the range 0..255: the letters
    A-Z, and the upper-case letters of Latin-1 (0xC0-0xDE but the
    multiplication sign 0xD7), move up by 32. *)
Definition lower_unit (c : ascii) : ascii :=
  let n := nat_of_ascii c in
  if (65 <=? n) && (n <=? 90) then ascii_of_nat (n + 32)
  else if (192 <=? n) && (n <=? 222) && negb (n =? 215) then ascii_of_nat (n + 32)
  else c.

(** [s.toLowerCase()] *)
Fixpoint toLowerCase (s : string) : string :=
  match s with
  | EmptyString => EmptyString
  | String c s' => String (lower_unit c) (toLowerCase s')
  end.

(** [s.includes(sub)]: [sub] starts at some position of [s]. *)
Fixpoint includes (s sub : string) : bool :=
  String.prefix sub s ||
  match s with
  | EmptyString => false
  | String _ s' => includes s' sub
  end.

(** [!query || query.trim() === ''] *)
Definition no_query (query : string) : bool :=
  String.eqb query "" || String.eqb (JsString.trim query) "".

End JsText.

(** ** Ordered and keyed reads of a table *)

Module Index.

(** The order of an index on a number: by the indexed value, rows of
    equal value by primary key. *)
Definition le {V} (f : V → Z) (a b : string * V) : Prop :=
  (f a.2 < f b.2)%Z ∨ (f a.2 = f b.2 ∧ String.le a.1 b.1).

#[global] Instance le_dec {V} (f : V → Z) : RelDecision (le f).
Proof. intros a b. unfold le. apply _. Defined.

(** [table.orderBy(index).toArray()] *)
Definition orderBy {V} (f : V → Z) (m : gmap string V) : list V :=
  (merge_sort (le f) (map_to_list m)).*2.

(** [table.where(':id').anyOf(keys).toArray()]: the rows under the given
    keys, each once, in the order of the keys of the table. *)
Definition anyOf {V} (ks : list string) (m : gmap string V) : list V :=
  omap (λ k, if bool_decide (k ∈ ks) then m !! k else None) (Table.keys m).

End Index.

(** ** Queries ([src/lib/db/operations.ts], [src/lib/linking/parser.ts]) *)

Definition getAllNotes : Async (list Note.t) :=
  λ w, (Some (reverse (Index.orderBy Note.updatedAt (notes w))), w).

Definition getAllLinks : Async (list Link.t) :=
  λ w, (Some (Table.toArray (links w)), w).

Definition getLinksFromNote (noteId : string) : Async (list Link.t) :=
  λ w, (Some (Table.filter_toArray
                (λ link, String.eqb (Link.sourceNoteId link) noteId) (links w)), w).

Definition getLinksToNote (noteId : string) : Async (list Link.t) :=
  λ w, (Some (Table.filter_toArray
                (λ link, String.eqb (Link.targetNoteId link) noteId) (links w)), w).

Definition getBacklinks (noteId : string) : Async (list Note.t) :=
  note <~ getNote noteId ;;
  match note with
  | None => ret []
  | Some note => λ w, (Some (Index.anyOf (Note.backlinkNoteIds note) (notes w)), w)
  end.

(** [db.notes.where('tags').equals(tagId)], a multi-entry index: the
    notes whose tag array holds [tagId]. *)
Definition getNotesByTag (tagId : string) : Async (list Note.t) :=
  λ w, (Some (Table.filter_toArray (λ note, bool_decide (tagId ∈ Note.tags note))
                (notes w)), w).

Definition searchNotes (query : string) : Async (list Note.t) :=
  if JsText.no_query query then getAllNotes
  else
    let lowerQuery := JsText.toLowerCase query in
    λ w, (Some (Table.filter_toArray
                  (λ note,
                     JsText.includes (JsText.toLowerCase (Note.title note)) lowerQuery
                     || JsText.includes (JsText.toLowerCase (Note.contentText note)) lowerQuery)
                  (notes w)), w).

Definition findLinkableTitles (query : string) : Async (list string) :=
  if JsText.no_query query then
    λ w, (Some (map Note.title
                  (take 10 (reverse (Index.orderBy Note.updatedAt (notes w))))), w)
  else
    let lowerQuery := JsText.toLowerCase query in
    λ w, (Some (map Note.title
                  (take 10 (Table.filter_toArray
                     (λ note, JsText.includes (JsText.toLowerCase (Note.title note)) lowerQuery)
                     (notes w)))), w).

(** ** The editor's nodes ([WikiLinkNode], WikiLinkPlugin) *)

Module Editor.

(** The nodes of a paragraph: plain text nodes and wiki-link nodes, each
    wiki-link node carrying its note title. *)
Inductive piece :=
  | text_node (text : string)
  | wiki_link_node (noteTitle : string).

(** The text content of a node; a wiki-link node is created with the
    text [[[noteTitle]]]. *)
Definition text_of (p : piece) : string :=
  match p with
  | text_node text => text
  | wiki_link_node noteTitle => "[[" +:+ noteTitle +:+ "]]"
  end.

Definition getTextContent (nodes : list piece) : string :=
  foldr (λ p s, text_of p +:+ s) "" nodes.

(** The note titles of the wiki-link nodes, in order. *)
Definition link_titles (nodes : list piece) : list string :=
  omap (λ p, match p with wiki_link_node t => Some t | text_node _ => None end) nodes.

End Editor.

(** ** The application's events

    The four handlers of the pages that write the store:
    [handleCreateNote] (home page), [debouncedSave] (NoteEditor),
    [debouncedUpdateLinks] (WikiLinkPlugin) and [handleDelete] (note
    page); of the two debounced ones, what runs when the timer fires. *)

Module App.

(** [try { await m } catch (error) { console.error(...) }] *)
Definition try_catch (m : Async unit) : Async unit :=
  λ w, match m w with
       | (None, w') => (Some tt, w')
       | r => r
       end.

Inductive event :=
  | NewNote                                 (* handleCreateNote *)
  | Save (noteId content : string)          (* debouncedSave, timer fired *)
  | UpdateLinks (noteId content : string)   (* debouncedUpdateLinks, timer fired *)
  | Delete (noteId : string).               (* handleDelete, confirmed *)

Section app.
Context (host : Host).

Definition handleCreateNote : Async Note.t :=
  createNote host
    (Note.mkPartial (Some "Untitled Note") (Some "") None None None None None).

Definition debouncedSave (noteId content : string) : Async unit :=
  try_catch
    (updateNote host noteId
       (Note.mkPartial None (Some content) None None None None None)).

Definition debouncedUpdateLinks (noteId content : string) : Async unit :=
  updateNoteLinks host noteId content.

Definition handleDelete (noteId : string) : Async unit :=
  try_catch (deleteNote noteId).

Definition fire (e : event) : Async unit :=
  match e with
  | NewNote => handleCreateNote ;;; ret tt
  | Save noteId content => debouncedSave noteId content
  | UpdateLinks noteId content => debouncedUpdateLinks noteId content
  | Delete noteId => handleDelete noteId
  end.

(** A session: the events, one after the other, each handler running to
    its end before the next one starts; a rejection that no handler
    catches ends the session. *)
Definition session (events : list event) : Async unit := forEach events fire.

End app.

(** The store of a fresh installation. *)
Definition start : World := mkWorld ∅ ∅ 0 [].

(** A host whose n-th identifier is the decimal numeral of n. *)
Definition counting_host : Host :=
  {| uuid_at n := pretty n; time_at n := Z.of_nat n |}.

End App.

(** ** The consistency of the link graph *)

(** The adjacency lists mention notes of the store only. *)
Definition closed (w : World) : Prop :=
  ∀ k n x, notes w !! k = Some n →
    x ∈ Note.linkedNoteIds n ∨ x ∈ Note.backlinkNoteIds n →
    is_Some (notes w !! x).

(** No adjacency list holds an identifier twice. *)
Definition duplicate_free (w : World) : Prop :=
  ∀ k n, notes w !! k = Some n →
    NoDup (Note.linkedNoteIds n) ∧ NoDup (Note.backlinkNoteIds n).

(** The store holds a resolved Link row from [src] to [tgt]. *)
Definition resolved_row (w : World) (src tgt : string) : Prop :=
  ∃ k r, links w !! k = Some r ∧ Link.sourceNoteId r = src ∧
         Link.targetNoteId r = tgt ∧ Link.resolved r = true.

(** The outgoing lists and the resolved Link rows tell the same edges. *)
Definition edges_recorded (w : World) : Prop :=
  ∀ src tgt,
    (∃ n, notes w !! src = Some n ∧ tgt ∈ Note.linkedNoteIds n)
    ↔ resolved_row w src tgt.

(** No two resolved Link rows share source and target. *)
Definition unique_resolved (w : World) : Prop :=
  ∀ k1 k2 r1 r2,
    links w !! k1 = Some r1 → links w !! k2 = Some r2 →
    Link.sourceNoteId r1 = Link.sourceNoteId r2 →
    Link.targetNoteId r1 = Link.targetNoteId r2 →
    Link.resolved r1 = true → Link.resolved r2 = true →
    k1 = k2.

(** Every Link row starts at a note of the store, and an unresolved row
    has the empty target. *)
Definition rows_anchored (w : World) : Prop :=
  ∀ k r, links w !! k = Some r →
    is_Some (notes w !! Link.sourceNoteId r) ∧
    (Link.resolved r = false → Link.targetNoteId r = "").

(** Every key of the two tables was handed out by the host. *)
Definition ids_drawn (host : Host) (w : World) : Prop :=
  (∀ k, is_Some (notes w !! k) → ∃ i, i < draws w ∧ k = uuid_at host i) ∧
  (∀ k, is_Some (links w !! k) → ∃ i, i < draws w ∧ k = uuid_at host i).

Definition consistent (w : World) : Prop :=
  keyed w ∧ symmetric w ∧ closed w ∧ duplicate_free w ∧
  edges_recorded w ∧ unique_resolved w ∧ rows_anchored w ∧ unique_unresolved w.

(** Nodes the parser reads back: a text node holds no opening bracket, a
    wiki-link node has a title that is not empty and holds no closing
    bracket. *)
Definition readable (p : Editor.piece) : Prop :=
  match p with
  | Editor.text_node text => JsString.occurs "[" text = false
  | Editor.wiki_link_node noteTitle =>
      noteTitle ≠ "" ∧ JsString.occurs "]" noteTitle = false
  end.

(** ** The live query of the backlinks hook ([src/hooks/useNotes.ts])

    The hook hands a query to [useLiveQuery], which runs it again
    whenever the store changes; what follows is the query. *)

Module Hooks.

Definition useBacklinks (noteId : string) : Async (list Note.t) :=
  note <~ notes_get noteId ;;
  match note with
  | None => ret []
  | Some note =>
      λ w, (Some (Index.anyOf (Note.backlinkNoteIds note) (notes w)), w)
  end.

End Hooks.

(** Every row of the links table is stored under its own [id]. *)
Definition links_keyed (w : World) : Prop :=
  ∀ k r, links w !! k = Some r → Link.id r = k.

(** * Properties *)

(** ** Strings, sets and the regular expression *)

Module JsStringFacts.
Import JsString.

Lemma append_cons c (s t : string) : String c s +:+ t = String c (s +:+ t).
Proof. reflexivity. Qed.

Lemma append_nil (t : string) : "" +:+ t = t.
Proof. reflexivity. Qed.

Lemma append_assoc (s t u : string) : (s +:+ t) +:+ u = s +:+ t +:+ u.
Proof.
  induction s as [|c s IH]; [done|].
  by rewrite !append_cons, IH.
Qed.

Lemma length_append (s t : string) :
  String.length (s +:+ t) = String.length s + String.length t.
Proof.
  induction s as [|c s IH]; [done|].
  rewrite append_cons. simpl. by rewrite IH.
Qed.

Lemma blank_app s t : blank (s +:+ t) = blank s && blank t.
Proof.
  induction s as [|c s IH]; [done|].
  rewrite append_cons. simpl. rewrite IH. by rewrite andb_assoc.
Qed.

Lemma occurs_cons c d s : occurs c (String d s) = Ascii.eqb c d || occurs c s.
Proof. reflexivity. Qed.

Lemma occurs_app c s t : occurs c (s +:+ t) = occurs c s || occurs c t.
Proof.
  induction s as [|d s IH]; [done|].
  rewrite append_cons. simpl. rewrite IH. by rewrite orb_assoc.
Qed.

Lemma trimStart_split s : ∃ pre, s = pre +:+ trimStart s ∧ blank pre = true.
Proof.
  induction s as [|c s [pre [E B]]]; simpl.
  - by exists "".
  - destruct (isWhiteSpace c) eqn:W.
    + exists (String c pre). rewrite append_cons. simpl.
      rewrite W, B. by rewrite <- E.
    + by exists "".
Qed.

Lemma trimStart_head s c : head (trimStart s) = Some c → isWhiteSpace c = false.
Proof.
  induction s as [|d s IH]; simpl; [done|].
  destruct (isWhiteSpace d) eqn:W; [done|].
  simpl. by intros [= <-].
Qed.

Lemma trimEnd_split s : ∃ post, s = trimEnd s +:+ post ∧ blank post = true.
Proof.
  induction s as [|c s [post [E B]]]; simpl.
  - by exists "".
  - destruct (trimEnd s) as [|d t] eqn:T.
    + rewrite append_nil in E. subst post.
      destruct (isWhiteSpace c) eqn:W.
      * exists (String c s). rewrite append_nil. simpl. by rewrite W, B.
      * exists s. by rewrite append_cons, append_nil.
    + exists post. split; [|done]. rewrite append_cons. by rewrite <- E.
Qed.

Lemma trimEnd_last s c : last (trimEnd s) = Some c → isWhiteSpace c = false.
Proof.
  induction s as [|d s IH]; simpl; [done|].
  destruct (trimEnd s) as [|e t] eqn:T.
  - destruct (isWhiteSpace d) eqn:W; simpl; [done|]. by intros [= <-].
  - simpl in *. destruct t; apply IH.
Qed.

Lemma trimEnd_head s c : head (trimEnd s) = Some c → head s = Some c.
Proof.
  destruct s as [|d s]; simpl; [done|].
  destruct (trimEnd s); [destruct (isWhiteSpace d)|]; simpl; done.
Qed.

Lemma trim_split s :
  ∃ pre post, s = pre +:+ trim s +:+ post ∧ blank pre = true ∧ blank post = true.
Proof.
  destruct (trimStart_split s) as [pre [E1 B1]].
  destruct (trimEnd_split (trimStart s)) as [post [E2 B2]].
  exists pre, post. unfold trim. by rewrite <- E2.
Qed.

Lemma trim_trimmed s : trimmed (trim s).
Proof.
  split; intros c H.
  - eapply trimStart_head, trimEnd_head, H.
  - eapply trimEnd_last, H.
Qed.

End JsStringFacts.

Module JsSetFacts.
Import JsSet.

Section facts.
Context {A : Type} `{EqDecision A}.
Implicit Types (l s : list A) (x : A).

Lemma elem_of_add s x y : y ∈ add s x ↔ y ∈ s ∨ y = x.
Proof.
  unfold add. case_decide as Hin.
  - split; [auto|]. intros [?| ->]; done.
  - rewrite elem_of_app, list_elem_of_singleton. done.
Qed.

Lemma NoDup_add s x : NoDup s → NoDup (add s x).
Proof.
  intros Hs. unfold add. case_decide as Hin; [done|].
  apply NoDup_app. split_and!; [done| |apply NoDup_singleton].
  intros y Hy ->%list_elem_of_singleton. done.
Qed.

Lemma elem_of_foldl_add l s y : y ∈ foldl add s l ↔ y ∈ s ∨ y ∈ l.
Proof.
  revert s. induction l as [|x l IH]; intros s; simpl.
  - rewrite elem_of_nil. naive_solver.
  - rewrite IH, elem_of_add, elem_of_cons. naive_solver.
Qed.

Lemma NoDup_foldl_add l s : NoDup s → NoDup (foldl add s l).
Proof.
  revert s. induction l as [|x l IH]; intros s Hs; simpl; [done|].
  by apply IH, NoDup_add.
Qed.

Lemma elem_of_of_list l y : y ∈ of_list l ↔ y ∈ l.
Proof.
  unfold of_list. rewrite elem_of_foldl_add, elem_of_nil. naive_solver.
Qed.

Lemma NoDup_of_list l : NoDup (of_list l).
Proof. apply NoDup_foldl_add, NoDup_nil_2. Qed.

Lemma elem_of_delete s x y : y ∈ delete s x ↔ y ∈ s ∧ y ≠ x.
Proof. unfold delete. rewrite list_elem_of_filter. naive_solver. Qed.

End facts.
End JsSetFacts.

(** The Set built from a list is the list of its first occurrences. *)
Lemma foldl_add_first_occurrences (l acc : list string) :
  foldl JsSet.add acc l = acc ++ filter (λ y, y ∉ acc) (first_occurrences l).
Proof.
  revert acc. induction l as [|x l IH]; intros acc; simpl.
  - by rewrite filter_nil, app_nil_r.
  - rewrite IH. unfold JsSet.add. case_decide as Hin.
    + rewrite filter_cons_False by (intros Hn; by apply Hn).
      f_equal. rewrite list_filter_filter. apply list_filter_iff.
      intros y. split; [|tauto]. intros Hy. split; [done|]. by intros ->.
    + rewrite filter_cons_True by done.
      rewrite <- app_assoc. simpl. do 2 f_equal.
      rewrite list_filter_filter. apply list_filter_iff.
      intros y. rewrite elem_of_app, list_elem_of_singleton. tauto.
Qed.

Lemma of_list_first_occurrences (l : list string) :
  JsSet.of_list l = first_occurrences l.
Proof.
  unfold JsSet.of_list. rewrite foldl_add_first_occurrences. simpl.
  induction (first_occurrences l) as [|y k IH]; [done|].
  rewrite filter_cons_True by apply not_elem_of_nil. by rewrite IH.
Qed.

Module RegexFacts.
Import JsString JsStringFacts Regex.

Lemma span_body_split s b r :
  span_body s = (b, r) → s = b +:+ r ∧ occurs "]" b = false.
Proof.
  revert b r. induction s as [|c s IH]; intros b r; simpl.
  - by intros [= <- <-].
  - destruct (Ascii.eqb c "]") eqn:Ec.
    + by intros [= <- <-].
    + destruct (span_body s) as [b' r'] eqn:Es. intros [= <- <-].
      destruct (IH _ _ eq_refl) as [-> Hb]. split; [done|].
      rewrite occurs_cons, Hb. rewrite Ascii.eqb_sym in Ec. by rewrite Ec.
Qed.

(** A successful attempt has read a well-formed marker. *)
Lemma exec_at_Some s g rest :
  exec_at s = Some (g, rest) →
  s = "[[" +:+ g +:+ "]]" +:+ rest ∧ g ≠ "" ∧ occurs "]" g = false.
Proof.
  unfold exec_at. intros H.
  repeat (case_match; simplify_eq).
  match goal with H : span_body _ = _ |- _ => apply span_body_split in H as [-> Hocc] end.
  split_and!; [reflexivity|done|done].
Qed.

Lemma matchAll_from_sound fuel s g :
  g ∈ matchAll_from fuel s →
  ∃ pre post, s = pre +:+ "[[" +:+ g +:+ "]]" +:+ post ∧ g ≠ "" ∧ occurs "]" g = false.
Proof.
  revert s. induction fuel as [|fuel IH]; intros s; simpl.
  - by intros ?%elem_of_nil.
  - destruct (exec_at s) as [[g' rest]|] eqn:Ex.
    + apply exec_at_Some in Ex as (-> & Hne & Hocc).
      intros [->|Hin]%elem_of_cons.
      * by exists "", rest.
      * destruct (IH _ Hin) as (pre & post & -> & ? & ?).
        exists ("[[" +:+ g' +:+ "]]" +:+ pre), post.
        split; [|done]. by rewrite !append_assoc.
    + destruct s as [|c s]; [by intros ?%elem_of_nil|].
      intros Hin. destruct (IH _ Hin) as (pre & post & -> & ? & ?).
      by exists (String c pre), post.
Qed.

Lemma exec_at_length s g rest :
  exec_at s = Some (g, rest) → String.length rest < String.length s.
Proof.
  intros (-> & _ & _)%exec_at_Some. rewrite !length_append. simpl. lia.
Qed.

(** The scan does not depend on the fuel once there is enough of it. *)
Lemma matchAll_from_enough fuel1 fuel2 s :
  String.length s ≤ fuel1 → String.length s ≤ fuel2 →
  matchAll_from fuel1 s = matchAll_from fuel2 s.
Proof.
  revert fuel2 s. induction fuel1 as [|fuel1 IH]; intros [|fuel2] s H1 H2; simpl;
    try done.
  - destruct s; simpl in *; [done|lia].
  - destruct s; simpl in *; [done|lia].
  - destruct (exec_at s) as [[g rest]|] eqn:Ex.
    + apply exec_at_length in Ex. f_equal. apply IH; lia.
    + destruct s as [|c s]; [done|]. simpl in *. apply IH; lia.
Qed.

Lemma matchAll_unfold s :
  matchAll s =
  match exec_at s with
  | Some (g, rest) => g :: matchAll rest
  | None => match s with EmptyString => [] | String _ s' => matchAll s' end
  end.
Proof.
  unfold matchAll. destruct s as [|c s]; [done|].
  change (String.length (String c s)) with (S (String.length s)).
  cbn [matchAll_from].
  destruct (exec_at (String c s)) as [[g rest]|] eqn:Ex; [|done].
  apply exec_at_length in Ex. simpl in Ex.
  f_equal. apply matchAll_from_enough; lia.
Qed.

Lemma span_body_closed g post :
  occurs "]" g = false → span_body (g +:+ "]]" +:+ post) = (g, "]]" +:+ post).
Proof.
  induction g as [|c g IH]; [done|].
  rewrite occurs_cons. intros [Hc Hg]%orb_false_elim.
  rewrite append_cons. simpl. rewrite Ascii.eqb_sym, Hc.
  by rewrite (IH Hg).
Qed.

(** A well-formed marker at the start of the text is matched. *)
Lemma exec_at_marker g post :
  g ≠ "" → occurs "]" g = false →
  exec_at ("[[" +:+ g +:+ "]]" +:+ post) = Some (g, post).
Proof.
  intros Hne Hocc.
  change ("[[" +:+ g +:+ "]]" +:+ post)
    with (String "[" (String "[" (g +:+ "]]" +:+ post))).
  unfold exec_at. rewrite (span_body_closed _ _ Hocc).
  destruct g; [done|reflexivity].
Qed.

(** No match starts on a unit that is not an opening bracket. *)
Lemma exec_at_other c s : Ascii.eqb "[" c = false → exec_at (String c s) = None.
Proof.
  intros Hc. unfold exec_at.
  destruct (decide (c = "["%char)) as [->|Hne]; [done|].
  destruct c as [[] [] [] [] [] [] [] []]; done.
Qed.

Lemma matchAll_marker pre g post :
  occurs "[" pre = false → g ≠ "" → occurs "]" g = false →
  matchAll (pre +:+ "[[" +:+ g +:+ "]]" +:+ post) = g :: matchAll post.
Proof.
  intros Hpre Hne Hocc. induction pre as [|c pre IH].
  - rewrite append_nil, matchAll_unfold. by rewrite exec_at_marker.
  - rewrite occurs_cons in Hpre. apply orb_false_elim in Hpre as [Hc Hpre].
    rewrite append_cons, matchAll_unfold, (exec_at_other _ _ Hc). by apply IH.
Qed.

(** Without a closing bracket nothing is matched. *)
Lemma matchAll_unterminated s : occurs "]" s = false → matchAll s = [].
Proof.
  intros Hocc. destruct (matchAll s) as [|g l] eqn:E; [done|].
  assert (g ∈ matchAll s) as Hin by (rewrite E; left).
  apply matchAll_from_sound in Hin as (pre & post & -> & _ & _).
  rewrite !occurs_app in Hocc. simpl in Hocc.
  by rewrite !orb_true_r in Hocc.
Qed.

End RegexFacts.

(** ** Markers and references *)

Module ReferenceFacts.
Import JsString JsStringFacts Regex RegexFacts.

Lemma exec_at_spec s g rest :
  exec_at s = Some (g, rest) ↔ marker_in s "" g rest.
Proof.
  unfold marker_in. rewrite append_nil. split.
  - apply exec_at_Some.
  - intros (-> & Hne & Hocc). by apply exec_at_marker.
Qed.

Lemma marker_in_nil pre g rest : ¬ marker_in "" pre g rest.
Proof. intros (E & _). destruct pre; rewrite ?append_cons in E; discriminate. Qed.

Lemma marker_in_cons c s pre g rest :
  marker_in (String c s) pre g rest ↔
  (pre = "" ∧ marker_in (String c s) "" g rest) ∨
  (∃ pre', pre = String c pre' ∧ marker_in s pre' g rest).
Proof.
  unfold marker_in. split.
  - intros (E & Hne & Hocc). destruct pre as [|d pre].
    + left. done.
    + right. rewrite append_cons in E. injection E as -> ->. by exists pre.
  - intros [[-> ?]|(pre' & -> & -> & ? & ?)]; [done|].
    by rewrite append_cons.
Qed.

(** [regex.test]: a well-formed marker stands somewhere in the text. *)
Lemma test_spec s : test s = true ↔ ∃ pre g rest, marker_in s pre g rest.
Proof.
  induction s as [|c s IH].
  - split; [done|]. intros (pre & g & rest & H). by apply marker_in_nil in H.
  - cbn [test]. destruct (exec_at (String c s)) as [[g rest]|] eqn:E.
    + split; [intros _|done]. exists "", g, rest. by apply exec_at_spec.
    + rewrite IH. split.
      * intros (pre & g & rest & H). exists (String c pre), g, rest.
        apply marker_in_cons. right. eauto.
      * intros (pre & g & rest & [[-> H]|(pre' & -> & H)]%marker_in_cons).
        -- apply exec_at_spec in H. congruence.
        -- eauto.
Qed.

(** The scan moves one unit on when no marker starts here. *)
Lemma references_skip c s gs :
  exec_at (String c s) = None → references s gs → references (String c s) gs.
Proof.
  intros E H. inversion H as [? Hnone|? pre g rest gs' Hm Hleft Hrest]; subst.
  - apply references_none.
    intros pre g rest [[-> Hm]|(pre' & -> & Hm)]%marker_in_cons.
    + apply exec_at_spec in Hm. congruence.
    + by apply Hnone in Hm.
  - apply (references_next _ (String c pre) g rest); [| |done].
    + apply marker_in_cons. right. eauto.
    + intros pre1 g1 rest1 [[-> Hm1]|(pre' & -> & Hm1)]%marker_in_cons.
      * apply exec_at_spec in Hm1. congruence.
      * apply Hleft in Hm1. simpl. lia.
Qed.

Lemma references_matchAll_bounded n s :
  String.length s ≤ n → references s (matchAll s).
Proof.
  revert s. induction n as [|n IH]; intros s Hn.
  - destruct s; [|simpl in Hn; lia].
    rewrite matchAll_unfold. cbn. apply references_none.
    intros pre g rest. apply marker_in_nil.
  - rewrite matchAll_unfold. destruct (exec_at s) as [[g rest]|] eqn:E.
    + apply (references_next _ "" g rest).
      * by apply exec_at_spec.
      * intros. simpl. lia.
      * apply IH. apply exec_at_length in E. lia.
    + destruct s as [|c s].
      * apply references_none. intros pre g rest. apply marker_in_nil.
      * apply references_skip; [done|]. apply IH. simpl in Hn. lia.
Qed.

(** The scan of [matchAll] finds the references of the text. *)
Lemma references_matchAll s : references s (matchAll s).
Proof. by apply (references_matchAll_bounded (String.length s)). Qed.

Lemma append_inj_length pre pre' a b :
  pre +:+ a = pre' +:+ b → String.length pre = String.length pre' →
  pre = pre' ∧ a = b.
Proof.
  revert pre'. induction pre as [|c pre IH]; intros [|c' pre']; simpl; try done.
  rewrite !append_cons. intros [= -> E] [= Hl].
  destruct (IH pre' E Hl) as [-> ->]. done.
Qed.

(** The body of a marker is settled by where the marker starts. *)
Lemma marker_body_unique g g' rest rest' :
  g +:+ "]]" +:+ rest = g' +:+ "]]" +:+ rest' →
  occurs "]" g = false → occurs "]" g' = false →
  g = g' ∧ rest = rest'.
Proof.
  intros E Hg Hg'.
  pose proof (span_body_closed g rest Hg) as S1.
  pose proof (span_body_closed g' rest' Hg') as S2.
  rewrite E, S2 in S1. injection S1 as -> E'.
  split; [done|]. by rewrite !append_nil in E'.
Qed.

(** A text has one list of references. *)
Lemma references_unique s gs gs' :
  references s gs → references s gs' → gs' = gs.
Proof.
  intros H. revert gs'.
  induction H as [text Hnone|text pre g rest gs Hm Hleft Hrest IH]; intros gs' H'.
  - inversion H' as [|? pre' g' rest' gs1 Hm' _ _]; subst; [done|].
    by apply Hnone in Hm'.
  - inversion H' as [? Hnone|? pre' g' rest' gs1 Hm' Hleft' Hrest']; subst.
    + by apply Hnone in Hm.
    + pose proof (Hleft _ _ _ Hm') as L1. pose proof (Hleft' _ _ _ Hm) as L2.
      destruct Hm as (E & _ & Hocc). destruct Hm' as (E' & _ & Hocc').
      rewrite E in E'.
      apply append_inj_length in E' as [<- E']; [|lia].
      rewrite !append_cons, !append_nil in E'. injection E' as E'.
      apply marker_body_unique in E' as [<- <-]; [|done..].
      f_equal. by apply IH.
Qed.

Lemma matchAll_nil s :
  matchAll s = [] ↔ ∀ pre g rest, ¬ marker_in s pre g rest.
Proof.
  split.
  - intros E. pose proof (references_matchAll s) as H. rewrite E in H.
    inversion H as [? Hnone|]; subst. done.
  - intros Hnone. apply (references_unique s []); [|apply references_matchAll].
    by apply references_none.
Qed.

End ReferenceFacts.

Lemma of_list_nil {A} `{EqDecision A} (l : list A) : JsSet.of_list l = [] ↔ l = [].
Proof.
  split; [|by intros ->]. intros H. destruct l as [|x l]; [done|].
  assert (x ∈ JsSet.of_list (x :: l)) as Hx
    by (apply JsSetFacts.elem_of_of_list; left).
  rewrite H in Hx. by apply elem_of_nil in Hx.
Qed.

Lemma parseWikiLinks_nil content :
  parseWikiLinks content = [] ↔ ∀ pre g rest, ¬ marker_in content pre g rest.
Proof.
  unfold parseWikiLinks. rewrite of_list_nil, <- ReferenceFacts.matchAll_nil.
  destruct (Regex.matchAll content); split; done.
Qed.

Lemma hasWikiLinks_false content :
  hasWikiLinks content = false → parseWikiLinks content = [].
Proof.
  intros H. apply parseWikiLinks_nil. intros pre g rest Hm.
  assert (hasWikiLinks content = true) as Ht
    by (apply ReferenceFacts.test_spec; eauto).
  congruence.
Qed.


(** ** The parser's contract *)

Example parseWikiLinks_sample :
  parseWikiLinks "See [[Note A]] and [[ Note B ]], [[Note A]] [[x] [[]] [[open"
  = ["Note A"; "Note B"].
Proof. vm_compute. reflexivity. Qed.

(** C9. For every text, [parseWikiLinks] returns the references of the
    text, each trimmed, with duplicates removed and every title kept at
    its first occurrence. The references of a text are the bodies of its
    well-formed markers in the order of the text: the leftmost
    well-formed marker first, then in the same way those of the text
    after that marker; a text has one such list, so every reference is
    returned and none is added. Every title is the captured text with
    only the white space around it stripped (nothing else is changed, so
    case is preserved); only well-formed markers are matched (two opening
    brackets, a non-empty body free of closing brackets, two closing
    brackets), so nothing is returned exactly when no well-formed marker
    stands in the text, as for every text without closing bracket. *)
Theorem parseWikiLinks_contract (content : string) :
  (∃ gs, references content gs ∧
         (∀ gs', references content gs' → gs' = gs) ∧
         parseWikiLinks content = first_occurrences (JsString.trim <$> gs)) ∧
  parseWikiLinks content
    = first_occurrences (JsString.trim <$> Regex.matchAll content) ∧
  NoDup (parseWikiLinks content) ∧
  (∀ t, t ∈ parseWikiLinks content
        ↔ ∃ g, g ∈ Regex.matchAll content ∧ t = JsString.trim g) ∧
  (∀ g, g ∈ Regex.matchAll content →
        (∃ pre post, content = pre +:+ "[[" +:+ g +:+ "]]" +:+ post) ∧
        g ≠ "" ∧ JsString.occurs "]" g = false ∧
        (∃ l r, g = l +:+ JsString.trim g +:+ r
                ∧ JsString.blank l = true ∧ JsString.blank r = true) ∧
        JsString.trimmed (JsString.trim g)) ∧
  (∀ pre g post,
        content = pre +:+ "[[" +:+ g +:+ "]]" +:+ post →
        JsString.occurs "[" pre = false → g ≠ "" → JsString.occurs "]" g = false →
        ∃ titles, parseWikiLinks content = JsString.trim g :: titles) ∧
  (parseWikiLinks content = [] ↔ ∀ pre g rest, ¬ marker_in content pre g rest) ∧
  (JsString.occurs "]" content = false → parseWikiLinks content = []).
Proof.
  split; [|split; [|split_and!]].
  - exists (Regex.matchAll content). split_and!.
    + apply ReferenceFacts.references_matchAll.
    + intros gs'. apply ReferenceFacts.references_unique.
      apply ReferenceFacts.references_matchAll.
    + apply of_list_first_occurrences.
  - apply of_list_first_occurrences.
  - apply JsSetFacts.NoDup_of_list.
  - intros t. unfold parseWikiLinks.
    rewrite JsSetFacts.elem_of_of_list, list_elem_of_fmap.
    naive_solver.
  - intros g Hg. destruct (RegexFacts.matchAll_from_sound _ _ _ Hg)
      as (pre & post & E & Hne & Hocc).
    split_and!; [by exists pre, post|done|done| |apply JsStringFacts.trim_trimmed].
    destruct (JsStringFacts.trim_split g) as (l & r & ? & ? & ?). by exists l, r.
  - intros pre g post -> Hpre Hne Hocc. unfold parseWikiLinks.
    rewrite RegexFacts.matchAll_marker by done.
    rewrite of_list_first_occurrences. simpl. eauto.
  - apply parseWikiLinks_nil.
  - intros Hocc. unfold parseWikiLinks.
    by rewrite RegexFacts.matchAll_unterminated.
Qed.

(** ** Tables *)

Module TableFacts.
Import Table.

Section facts.
Context {V : Type}.
Implicit Types (m : gmap string V) (p : V → bool).

Lemma elem_of_keys m k : k ∈ keys m ↔ is_Some (m !! k).
Proof.
  unfold keys. rewrite merge_sort_Permutation, elem_of_elements.
  apply elem_of_dom.
Qed.

Lemma elem_of_toArray m v : v ∈ toArray m ↔ ∃ k, m !! k = Some v.
Proof.
  unfold toArray. rewrite list_elem_of_omap. split.
  - intros (k & _ & Hk). eauto.
  - intros (k & Hk). exists k. split; [|done]. apply elem_of_keys. eauto.
Qed.

Lemma elem_of_filter_toArray p m v :
  v ∈ filter_toArray p m ↔ p v = true ∧ ∃ k, m !! k = Some v.
Proof. unfold filter_toArray. by rewrite list_elem_of_filter, elem_of_toArray. Qed.

Lemma first_Some p m v :
  first p m = Some v → p v = true ∧ ∃ k, m !! k = Some v.
Proof.
  unfold first. intros H. apply elem_of_filter_toArray.
  destruct (filter_toArray p m); simplify_eq/=. left.
Qed.

Lemma first_None p m :
  first p m = None ↔ ∀ k v, m !! k = Some v → p v = false.
Proof.
  unfold first. rewrite head_None. split.
  - intros H k v Hk. destruct (p v) eqn:Hp; [|done].
    assert (v ∈ filter_toArray p m) as Hin
      by (apply elem_of_filter_toArray; eauto).
    rewrite H in Hin. by apply elem_of_nil in Hin.
  - intros H. destruct (filter_toArray p m) as [|v l] eqn:E; [done|].
    assert (v ∈ filter_toArray p m) as Hin by (rewrite E; left).
    apply elem_of_filter_toArray in Hin as (Hp & k & Hk).
    rewrite (H _ _ Hk) in Hp. done.
Qed.

Lemma lookup_delete_where p m k v :
  delete_where p m !! k = Some v ↔ m !! k = Some v ∧ p v = false.
Proof. unfold delete_where. by rewrite map_lookup_filter_Some. Qed.

Lemma lookup_delete_where_None p m k :
  delete_where p m !! k = None ↔ ∀ v, m !! k = Some v → p v = true.
Proof.
  unfold delete_where. rewrite map_lookup_filter_None. split.
  - intros [H|H] v Hv; [congruence|]. specialize (H _ Hv). simpl in H.
    by destruct (p v).
  - intros H. right. intros v Hv. simpl. rewrite (H _ Hv). done.
Qed.

Lemma delete_where_none p m :
  (∀ k v, m !! k = Some v → p v = false) → delete_where p m = m.
Proof.
  intros H. apply map_eq. intros k. apply option_eq. intros v.
  rewrite lookup_delete_where. naive_solver.
Qed.

End facts.

(** Two tables with the same keys are enumerated alike: what is read off
    the rows in order agrees whenever it agrees row by row. *)
Lemma toArray_agree {V W} (f : V → option W) (m1 m2 : gmap string V) :
  (∀ k, m1 !! k ≫= f = m2 !! k ≫= f) →
  (∀ k, is_Some (m1 !! k) ↔ is_Some (m2 !! k)) →
  omap f (toArray m1) = omap f (toArray m2).
Proof.
  intros Hf Hdom. unfold toArray, keys.
  assert (dom m1 = dom m2) as ->.
  { apply set_eq. intros k. rewrite !elem_of_dom. apply Hdom. }
  induction (merge_sort _ _) as [|k l IH]; [done|].
  specialize (Hf k). csimpl.
  destruct (m1 !! k) as [v1|] eqn:E1, (m2 !! k) as [v2|] eqn:E2; csimpl in *.
  - by rewrite Hf, IH.
  - destruct (Hdom k) as [[? ?] _]; [eauto|congruence].
  - destruct (Hdom k) as [_ [? ?]]; [eauto|congruence].
  - done.
Qed.

End TableFacts.

(** ** Async computations and loops *)

Lemma bind_fulfils {A B} (m : Async A) (k : A → Async B) w b w' :
  bind m k w = (Some b, w') ↔ ∃ a w1, m w = (Some a, w1) ∧ k a w1 = (Some b, w').
Proof.
  unfold bind. destruct (m w) as [[a|] w1]; split.
  - intros H. by exists a, w1.
  - by intros (? & ? & [= <- <-] & H).
  - done.
  - by intros (? & ? & [=] & _).
Qed.

(** A property kept by every round is kept by the loop, whether the loop
    fulfils or is cut short by a rejection. *)
Lemma forEach_inv {A} (I : World → Prop) (l : list A) (body : A → Async unit) w :
  (∀ x w1, x ∈ l → I w1 → I (after (body x) w1)) →
  I w → I (after (forEach l body) w).
Proof.
  revert w. induction l as [|x l IH]; intros w Hbody Hw; [done|].
  unfold after in *. simpl. unfold bind.
  specialize (Hbody x w (list_elem_of_here _ _) Hw) as Hx.
  destruct (body x w) as [[[]|] w1]; simpl in *; [|done].
  apply IH; [|done]. intros y w2 Hy. apply Hbody. by right.
Qed.

(** A fulfilled loop, followed round by round: [R done w] relates the
    items already handled to the world reached. *)
Lemma forEach_fulfils_ind {A} (R : list A → World → Prop) (l : list A)
    (body : A → Async unit) w w' :
  R [] w →
  (∀ done x w1 w2, R done w1 → body x w1 = (Some tt, w2) → R (done ++ [x]) w2) →
  forEach l body w = (Some tt, w') → R l w'.
Proof.
  intros H0 Hstep. 
  cut (∀ done w, R done w → forEach l body w = (Some tt, w') → R (done ++ l) w').
  { intros H. apply (H []). done. }
  clear w H0. induction l as [|x l IH]; intros done w Hw; simpl.
  - intros [= <-]. by rewrite app_nil_r.
  - intros (a & w1 & Hx & Hl)%bind_fulfils. destruct a.
    rewrite (assoc_L _ done [x] l : done ++ x :: l = (done ++ [x]) ++ l).
    eapply IH; [|done]. eauto.
Qed.

(** Rounds that each fulfil without touching the world leave it as is. *)
Lemma forEach_skip {A} (l : list A) (body : A → Async unit) w :
  (∀ x, x ∈ l → body x w = (Some tt, w)) → forEach l body w = (Some tt, w).
Proof.
  induction l as [|x l IH]; intros H; [done|].
  simpl. unfold bind. rewrite (H x) by left.
  apply IH. intros y Hy. apply H. by right.
Qed.

(** ** Updating the rows of a list of keys *)

Section alter_each.
Context (G : Note.t → Note.t).

Lemma alter_each_snoc l x m :
  alter_each G (l ++ [x]) m = alter G x (alter_each G l m).
Proof. unfold alter_each. by rewrite foldl_app. Qed.

(** The row under [k] has gone through [G] some number of times, and not
    at all exactly when [k] is not in the list. *)
Lemma alter_each_lookup l m k :
  ∃ j, alter_each G l m !! k = Nat.iter j G <$> m !! k ∧ (j = 0 ↔ k ∉ l).
Proof.
  induction l as [|x l IH] using rev_ind.
  - exists 0. split; [|split; [intros _; apply not_elem_of_nil|done]].
    simpl. by destruct (m !! k).
  - destruct IH as (j & Hj & Hin). rewrite alter_each_snoc.
    destruct (decide (x = k)) as [->|Hne].
    + exists (S j). rewrite lookup_alter_eq, Hj. split.
      * simpl. by destruct (m !! k).
      * split; [done|]. intros Hn. exfalso. apply Hn.
        rewrite elem_of_app, list_elem_of_singleton. by right.
    + exists j. rewrite lookup_alter_ne by done. split; [done|].
      rewrite Hin, elem_of_app, list_elem_of_singleton. naive_solver.
Qed.

End alter_each.

(** Writing on a row what was computed from that same row. *)
Lemma alter_read (f : Note.t → Note.t → Note.t) (m : gmap string Note.t) x n :
  m !! x = Some n → alter (f n) x m = alter (λ n, f n n) x m.
Proof.
  intros Hx. apply map_eq. intros k. destruct (decide (x = k)) as [->|Hne].
  - rewrite !lookup_alter_eq, Hx. done.
  - by rewrite !lookup_alter_ne.
Qed.

Lemma alter_absent {V} (f : V → V) (m : gmap string V) x :
  m !! x = None → alter f x m = m.
Proof.
  intros Hx. apply map_eq. intros k. destruct (decide (x = k)) as [->|Hne].
  - rewrite lookup_alter_eq, Hx. done.
  - by rewrite lookup_alter_ne.
Qed.

Section rows.
Context (src : string).
Implicit Types (n : Note.t) (j : nat).

(** Repeating a loop's write on a row: the other fields are kept, and the
    membership of the adjacency list it rewrites is settled at the first
    write. *)
Lemma iter_with_backlink j n :
  let n' := Nat.iter j (with_backlink src) n in
  Note.id n' = Note.id n ∧ Note.title n' = Note.title n ∧
  Note.linkedNoteIds n' = Note.linkedNoteIds n ∧
  ∀ y, y ∈ Note.backlinkNoteIds n' ↔ y ∈ Note.backlinkNoteIds n ∨ (y = src ∧ j ≠ 0).
Proof.
  induction j as [|j (Hi & Ht & Hl & Hb)]; simpl.
  - split_and!; try done. naive_solver.
  - split_and!; try done. intros y.
    rewrite JsSetFacts.elem_of_add, JsSetFacts.elem_of_of_list, Hb.
    naive_solver.
Qed.

Lemma iter_without_backlink j n :
  let n' := Nat.iter j (without_backlink src) n in
  Note.id n' = Note.id n ∧ Note.title n' = Note.title n ∧
  Note.linkedNoteIds n' = Note.linkedNoteIds n ∧
  ∀ y, y ∈ Note.backlinkNoteIds n' ↔ y ∈ Note.backlinkNoteIds n ∧ ¬ (y = src ∧ j ≠ 0).
Proof.
  induction j as [|j (Hi & Ht & Hl & Hb)]; simpl.
  - split_and!; try done. naive_solver.
  - split_and!; try done. intros y.
    rewrite JsSetFacts.elem_of_delete, JsSetFacts.elem_of_of_list, Hb.
    naive_solver.
Qed.

Lemma iter_strip_backlink j n :
  let n' := Nat.iter j (strip_backlink src) n in
  Note.id n' = Note.id n ∧ Note.title n' = Note.title n ∧
  Note.linkedNoteIds n' = Note.linkedNoteIds n ∧
  ∀ y, y ∈ Note.backlinkNoteIds n' ↔ y ∈ Note.backlinkNoteIds n ∧ ¬ (y = src ∧ j ≠ 0).
Proof.
  induction j as [|j (Hi & Ht & Hl & Hb)]; simpl.
  - split_and!; try done. naive_solver.
  - split_and!; try done. intros y.
    rewrite list_elem_of_filter, Hb. naive_solver.
Qed.

Lemma iter_strip_link j n :
  let n' := Nat.iter j (strip_link src) n in
  Note.id n' = Note.id n ∧ Note.title n' = Note.title n ∧
  Note.backlinkNoteIds n' = Note.backlinkNoteIds n ∧
  ∀ y, y ∈ Note.linkedNoteIds n' ↔ y ∈ Note.linkedNoteIds n ∧ ¬ (y = src ∧ j ≠ 0).
Proof.
  induction j as [|j (Hi & Ht & Hl & Hb)]; simpl.
  - split_and!; try done. naive_solver.
  - split_and!; try done. intros y.
    rewrite list_elem_of_filter, Hb. naive_solver.
Qed.

End rows.

(** ** One round of each loop *)

Section rounds.
Context (host : Host).
Implicit Types (w : World) (x noteId : string).

Lemma addBacklink_run noteId x w :
  addBacklink host noteId x w =
  match notes w !! x with
  | None => (Some tt, w)
  | Some n =>
      let id := uuid_at host (draws w) in
      let row := Link.mk id noteId x (Note.title n) (time_at host (S (draws w))) true in
      let w1 := mkWorld (alter (with_backlink noteId) x (notes w)) (links w)
                  (S (S (draws w))) (journal w ++ [notes_update_req x]) in
      match links w !! id with
      | Some _ => (None, log (links_add_req id) w1)
      | None => (Some tt, log (links_add_req id)
                   (mkWorld (notes w1) (<[id := row]> (links w)) (draws w1) (journal w1)))
      end
  end.
Proof.
  unfold addBacklink, bind, notes_get. simpl.
  destruct (notes w !! x) as [n|] eqn:Hx; [|done].
  unfold links_add. simpl.
  rewrite (alter_read (λ n, Note.set_backlinkNoteIds
    (JsSet.add (JsSet.of_list (Note.backlinkNoteIds n)) noteId)) _ _ _ Hx).
  by destruct (links w !! uuid_at host (draws w)).
Qed.

Lemma removeBacklink_run noteId x w :
  removeBacklink noteId x w =
  match notes w !! x with
  | None => (Some tt, w)
  | Some n =>
      (Some tt,
       mkWorld (alter (without_backlink noteId) x (notes w))
         (Table.delete_where
            (λ link, String.eqb (Link.sourceNoteId link) noteId
                     && String.eqb (Link.targetNoteId link) x) (links w))
         (draws w) (journal w ++ [notes_update_req x; links_delete_req]))
  end.
Proof.
  unfold removeBacklink, bind, notes_get. simpl.
  destruct (notes w !! x) as [n|] eqn:Hx; [|done].
  unfold log. simpl.
  rewrite (alter_read (λ n, Note.set_backlinkNoteIds
    (JsSet.delete (JsSet.of_list (Note.backlinkNoteIds n)) noteId)) _ _ _ Hx).
  unfold links_delete, log. simpl. by rewrite <- app_assoc.
Qed.

Lemma addUnresolved_run noteId title w :
  addUnresolved host noteId title w =
  match Table.first (λ link, String.eqb (Link.sourceNoteId link) noteId
                             && (String.eqb (Link.targetTitle link) title
                                 && negb (Link.resolved link))) (links w) with
  | Some _ => (Some tt, w)
  | None =>
      let id := uuid_at host (draws w) in
      let row := Link.mk id noteId "" title (time_at host (S (draws w))) false in
      let w1 := mkWorld (notes w) (links w) (S (S (draws w))) (journal w) in
      match links w !! id with
      | Some _ => (None, log (links_add_req id) w1)
      | None => (Some tt, log (links_add_req id)
                   (mkWorld (notes w) (<[id := row]> (links w)) (draws w1) (journal w)))
      end
  end.
Proof.
  unfold addUnresolved, bind, links_first. simpl.
  destruct (Table.first _ _); [done|].
  unfold links_add. simpl.
  by destruct (links w !! uuid_at host (draws w)).
Qed.

Lemma dropBacklink_run id x w :
  dropBacklink id x w =
  match notes w !! x with
  | None => (Some tt, w)
  | Some n =>
      (Some tt, log (notes_update_req x)
         (mkWorld (alter (strip_backlink id) x (notes w)) (links w) (draws w) (journal w)))
  end.
Proof.
  unfold dropBacklink, bind, getNote, notes_get. simpl.
  destruct (notes w !! x) as [n|] eqn:Hx; [|done].
  unfold notes_update.
  by rewrite (alter_read (λ n, Note.set_backlinkNoteIds
    (filter (λ backlink, backlink ≠ id) (Note.backlinkNoteIds n))) _ _ _ Hx).
Qed.

Lemma dropLink_run id x w :
  dropLink id x w =
  match notes w !! x with
  | None => (Some tt, w)
  | Some n =>
      (Some tt, log (notes_update_req x)
         (mkWorld (alter (strip_link id) x (notes w)) (links w) (draws w) (journal w)))
  end.
Proof.
  unfold dropLink, bind, getNote, notes_get. simpl.
  destruct (notes w !! x) as [n|] eqn:Hx; [|done].
  unfold notes_update.
  by rewrite (alter_read (λ n, Note.set_linkedNoteIds
    (filter (λ link, link ≠ id) (Note.linkedNoteIds n))) _ _ _ Hx).
Qed.

End rounds.

(** ** The loops *)

Lemma forEach_total {A} (l : list A) (body : A → Async unit) w :
  (∀ x w1, (body x w1).1 = Some tt) → ∃ w', forEach l body w = (Some tt, w').
Proof.
  intros Hbody. revert w. induction l as [|x l IH]; intros w; simpl.
  - by eexists.
  - unfold bind. specialize (Hbody x w).
    destruct (body x w) as [[[]|] w1]; simplify_eq/=. apply IH.
Qed.

Section loops.
Context (host : Host).
Implicit Types (w : World) (x noteId : string).

(** First loop of [updateNoteLinks]. *)
Lemma addBacklink_loop noteId l w w' :
  forEach l (addBacklink host noteId) w = (Some tt, w') →
  notes w' = alter_each (with_backlink noteId) l (notes w) ∧
  (∀ k r, links w !! k = Some r → links w' !! k = Some r) ∧
  (∀ x n, x ∈ l → notes w !! x = Some n → resolved_edge w' noteId x (Note.title n)).
Proof.
  apply (forEach_fulfils_ind (λ done w1,
    notes w1 = alter_each (with_backlink noteId) done (notes w) ∧
    (∀ k r, links w !! k = Some r → links w1 !! k = Some r) ∧
    (∀ x n, x ∈ done → notes w !! x = Some n →
            resolved_edge w1 noteId x (Note.title n)))).
  { split_and!; [done|done|]. by intros x n ?%elem_of_nil. }
  intros done x w1 w2 (Hn & Hmono & Hedge). rewrite addBacklink_run.
  destruct (notes w1 !! x) as [n1|] eqn:Hx.
  - simpl. destruct (links w1 !! uuid_at host (draws w1)) eqn:Hfresh; [done|].
    intros [= <-]. simpl. split_and!.
    + by rewrite alter_each_snoc, Hn.
    + intros k r Hk. rewrite lookup_insert_ne; [by apply Hmono|].
      intros <-. apply Hmono in Hk. congruence.
    + intros y n [Hy| ->%list_elem_of_singleton]%elem_of_app Hyn.
      * destruct (Hedge y n Hy Hyn) as (k & r & Hk & Hr).
        exists k, r. split; [|done]. simpl.
        rewrite lookup_insert_ne; [done|]. intros <-. congruence.
      * eexists _, _. simpl. rewrite lookup_insert_eq. split; [done|].
        simpl. split_and!; try done.
        destruct (alter_each_lookup (with_backlink noteId) done (notes w) x)
          as (j & Hj & _).
        rewrite <- Hn, Hx, Hyn in Hj. simplify_eq/=.
        apply iter_with_backlink.
  - intros [= <-]. split_and!.
    + rewrite alter_each_snoc, <- Hn. by rewrite alter_absent.
    + done.
    + intros y n [Hy| ->%list_elem_of_singleton]%elem_of_app Hyn; [by apply Hedge|].
      destruct (alter_each_lookup (with_backlink noteId) done (notes w) x)
        as (j & Hj & _).
      rewrite <- Hn, Hx, Hyn in Hj. done.
Qed.

(** Second loop of [updateNoteLinks]: it always fulfils. *)
Lemma removeBacklink_loop noteId l w :
  ∃ w', forEach l (removeBacklink noteId) w = (Some tt, w') ∧
  notes w' = alter_each (without_backlink noteId) l (notes w) ∧
  draws w' = draws w ∧
  (∀ k r, links w' !! k = Some r → links w !! k = Some r) ∧
  (∀ k r, links w !! k = Some r →
          Link.sourceNoteId r ≠ noteId ∨ Link.targetNoteId r ∉ l
          ∨ notes w !! Link.targetNoteId r = None →
          links w' !! k = Some r).
Proof.
  destruct (forEach_total l (removeBacklink noteId) w) as [w' Hw'].
  { intros x w1. rewrite removeBacklink_run. by destruct (notes w1 !! x). }
  exists w'. split; [done|]. revert Hw'.
  apply (forEach_fulfils_ind (λ done w1,
    notes w1 = alter_each (without_backlink noteId) done (notes w) ∧
    draws w1 = draws w ∧
    (∀ k r, links w1 !! k = Some r → links w !! k = Some r) ∧
    (∀ k r, links w !! k = Some r →
            Link.sourceNoteId r ≠ noteId ∨ Link.targetNoteId r ∉ done
            ∨ notes w !! Link.targetNoteId r = None →
            links w1 !! k = Some r))).
  { done. }
  intros done x w1 w2 (Hn & Hd & Hsub & Hkeep). rewrite removeBacklink_run.
  destruct (notes w1 !! x) as [n1|] eqn:Hx; intros [= <-]; simpl.
  - split_and!.
    + by rewrite alter_each_snoc, Hn.
    + done.
    + intros k r (Hk & _)%TableFacts.lookup_delete_where. by apply Hsub.
    + intros k r Hk Hr. apply TableFacts.lookup_delete_where. split.
      * apply Hkeep; [done|]. rewrite elem_of_app in Hr. naive_solver.
      * apply andb_false_iff. rewrite !String.eqb_neq.
        destruct (decide (Link.targetNoteId r = x)) as [E|]; [|by right].
        left. destruct Hr as [?|[Hr|Hr]]; [done| |].
        -- exfalso. apply Hr. rewrite elem_of_app, list_elem_of_singleton. by right.
        -- exfalso. rewrite E in Hr.
           destruct (alter_each_lookup (without_backlink noteId) done (notes w) x)
             as (j & Hj & _).
           rewrite <- Hn, Hx, Hr in Hj. done.
  - split_and!.
    + rewrite alter_each_snoc, <- Hn. by rewrite alter_absent.
    + done.
    + done.
    + intros k r Hk Hr. apply Hkeep; [done|].
      destruct Hr as [?|[Hr|Hr]]; [by left| |by right; right].
      rewrite elem_of_app, list_elem_of_singleton in Hr.
      destruct (decide (Link.targetNoteId r = x)) as [E|]; [|naive_solver].
      right; right. rewrite E.
      destruct (alter_each_lookup (without_backlink noteId) done (notes w) x)
        as (j & Hj & _).
      rewrite <- Hn, Hx in Hj. by destruct (notes w !! x).
Qed.

(** Third loop of [updateNoteLinks]. *)
Lemma addUnresolved_loop noteId l w w' :
  forEach l (addUnresolved host noteId) w = (Some tt, w') →
  notes w' = notes w ∧
  (∀ k r, links w !! k = Some r → links w' !! k = Some r) ∧
  (∀ t, t ∈ l → placeholder w' noteId t).
Proof.
  apply (forEach_fulfils_ind (λ done w1,
    notes w1 = notes w ∧
    (∀ k r, links w !! k = Some r → links w1 !! k = Some r) ∧
    (∀ t, t ∈ done → placeholder w1 noteId t))).
  { split_and!; [done|done|]. by intros t ?%elem_of_nil. }
  intros done t w1 w2 (Hn & Hmono & Hph). rewrite addUnresolved_run.
  destruct (Table.first _ _) as [r0|] eqn:Hfirst.
  - intros [= <-]. split_and!; [done|done|].
    intros t' [Ht'| ->%list_elem_of_singleton]%elem_of_app; [by apply Hph|].
    apply TableFacts.first_Some in Hfirst as (Hp & k & Hk).
    apply andb_true_iff in Hp as [Hs [Ht Hr]%andb_true_iff].
    apply String.eqb_eq in Hs, Ht. apply negb_true_iff in Hr.
    by exists k, r0.
  - simpl. destruct (links w1 !! uuid_at host (draws w1)) eqn:Hfresh; [done|].
    intros [= <-]. simpl. split_and!; [done| |].
    + intros k r Hk. rewrite lookup_insert_ne; [by apply Hmono|].
      intros <-. apply Hmono in Hk. congruence.
    + intros t' [Ht'| ->%list_elem_of_singleton]%elem_of_app.
      * destruct (Hph t' Ht') as (k & r & Hk & Hr).
        exists k, r. split; [|done]. simpl.
        rewrite lookup_insert_ne; [done|]. intros <-. congruence.
      * eexists _, _. simpl. rewrite lookup_insert_eq. done.
Qed.

End loops.

(** ** Content commit, step by step *)

Section commit.
Context (host : Host).
Implicit Types (w : World) (noteId content : string).

Lemma updateNoteLinks_absent noteId content w :
  notes w !! noteId = None → updateNoteLinks host noteId content w = (Some tt, w).
Proof. intros H. unfold updateNoteLinks, bind, notes_get. simpl. by rewrite H. Qed.

Lemma updateNoteLinks_steps noteId content w w' cur :
  notes w !! noteId = Some cur →
  updateNoteLinks host noteId content w = (Some tt, w') →
  let linkedTitles := parseWikiLinks content in
  let linkedNotes :=
    Table.filter_toArray (λ note, includes linkedTitles (Note.title note)) (notes w) in
  let new := matching_ids w content in
  let old := Note.linkedNoteIds cur in
  ∃ w2 w3,
    forEach (addedLinks new old) (addBacklink host noteId) (relinked noteId new w)
      = (Some tt, w2) ∧
    forEach (removedLinks new old) (removeBacklink noteId) w2 = (Some tt, w3) ∧
    forEach (unresolvedTitles linkedTitles linkedNotes) (addUnresolved host noteId) w3
      = (Some tt, w').
Proof.
  intros Hcur. unfold updateNoteLinks.
  intros (o & w0 & [= <- <-] & H)%bind_fulfils. rewrite Hcur in H.
  apply bind_fulfils in H as (linkedNotes & w0 & [= <- <-] & H).
  apply bind_fulfils in H as ([] & w1 & [= <-] & H).
  apply bind_fulfils in H as ([] & w2 & H2 & H).
  apply bind_fulfils in H as ([] & w3 & H3 & H).
  by exists w2, w3.
Qed.

(** The notes table after a fulfilled commit, row by row. *)
Lemma commit_lookup noteId (new added removed : list string)
    (m : gmap string Note.t) k :
  option_Forall2
    (λ n n',
       Note.id n' = Note.id n ∧ Note.title n' = Note.title n ∧
       Note.linkedNoteIds n'
         = (if decide (k = noteId) then new else Note.linkedNoteIds n) ∧
       ∀ y, y ∈ Note.backlinkNoteIds n'
            ↔ (y ∈ Note.backlinkNoteIds n ∨ (y = noteId ∧ k ∈ added))
              ∧ ¬ (y = noteId ∧ k ∈ removed))
    (m !! k)
    (alter_each (without_backlink noteId) removed
       (alter_each (with_backlink noteId) added
          (alter (Note.set_linkedNoteIds new) noteId m)) !! k).
Proof.
  destruct (alter_each_lookup (without_backlink noteId) removed
     (alter_each (with_backlink noteId) added
        (alter (Note.set_linkedNoteIds new) noteId m)) k) as (j2 & -> & Hj2).
  destruct (alter_each_lookup (with_backlink noteId) added
     (alter (Note.set_linkedNoteIds new) noteId m) k) as (j1 & -> & Hj1).
  assert (alter (Note.set_linkedNoteIds new) noteId m !! k
          = (if decide (k = noteId) then Note.set_linkedNoteIds new else id) <$> m !! k)
    as ->.
  { rewrite lookup_alter. destruct (decide (noteId = k)) as [->|Hne].
    - by rewrite decide_True.
    - rewrite decide_False by done. by destruct (m !! k). }
  destruct (m !! k) as [n|]; [|constructor].
  simpl. constructor.
  set (n0 := (if decide (k = noteId) then Note.set_linkedNoteIds new else id) n).
  assert (Note.id n0 = Note.id n ∧ Note.title n0 = Note.title n ∧
          Note.backlinkNoteIds n0 = Note.backlinkNoteIds n ∧
          Note.linkedNoteIds n0
            = (if decide (k = noteId) then new else Note.linkedNoteIds n))
    as (Hi & Ht & Hb & Hl).
  { unfold n0. by destruct (decide (k = noteId)). }
  clearbody n0.
  destruct (iter_with_backlink noteId j1 n0) as (Hi1 & Ht1 & Hl1 & Hb1).
  destruct (iter_without_backlink noteId j2 (Nat.iter j1 (with_backlink noteId) n0))
    as (Hi2 & Ht2 & Hl2 & Hb2).
  simpl in *. split_and!; [congruence..|].
  intros y. rewrite Hb2, Hb1, Hb.
  assert (j1 ≠ 0 ↔ k ∈ added) as ->.
  { rewrite Hj1. destruct (decide (k ∈ added)); naive_solver. }
  assert (j2 ≠ 0 ↔ k ∈ removed) as ->.
  { rewrite Hj2. destruct (decide (k ∈ removed)); naive_solver. }
  done.
Qed.

(** What a fulfilled commit of an existing note leaves. *)
Lemma updateNoteLinks_summary noteId content w w' cur :
  notes w !! noteId = Some cur →
  updateNoteLinks host noteId content w = (Some tt, w') →
  let new := matching_ids w content in
  let old := Note.linkedNoteIds cur in
  notes w' = alter_each (without_backlink noteId) (removedLinks new old)
               (alter_each (with_backlink noteId) (addedLinks new old)
                  (alter (Note.set_linkedNoteIds new) noteId (notes w))) ∧
  (∀ x n, x ∈ addedLinks new old → notes w !! x = Some n →
          resolved_edge w' noteId x (Note.title n)) ∧
  (∀ t, t ∈ unresolvedTitles (parseWikiLinks content)
              (Table.filter_toArray
                 (λ note, includes (parseWikiLinks content) (Note.title note)) (notes w)) →
        placeholder w' noteId t) ∧
  (∀ k r, links w !! k = Some r →
          Link.sourceNoteId r ≠ noteId ∨ Link.targetNoteId r ∉ removedLinks new old
          ∨ notes w !! Link.targetNoteId r = None →
          links w' !! k = Some r).
Proof.
  intros Hcur Hrun.
  destruct (updateNoteLinks_steps _ _ _ _ _ Hcur Hrun) as (w2 & w3 & H1 & H2 & H3).
  apply addBacklink_loop in H1 as (Hn1 & Hmono1 & Hedge1).
  destruct (removeBacklink_loop noteId
    (removedLinks (matching_ids w content) (Note.linkedNoteIds cur)) w2)
    as (w3' & H2' & Hn2 & _ & Hsub2 & Hkeep2).
  rewrite H2 in H2'. injection H2' as <-.
  apply addUnresolved_loop in H3 as (Hn3 & Hmono3 & Hph3).
  simpl in *.
  assert (∀ x, is_Some (notes w2 !! x) ↔ is_Some (notes w !! x)) as Hdom.
  { intros x. rewrite Hn1.
    destruct (alter_each_lookup (with_backlink noteId)
      (addedLinks (matching_ids w content) (Note.linkedNoteIds cur))
      (alter (Note.set_linkedNoteIds (matching_ids w content)) noteId (notes w)) x)
      as (j & -> & _).
    rewrite lookup_alter. case_decide; subst; rewrite ?fmap_is_Some; done. }
  split_and!.
  - by rewrite Hn3, Hn2, Hn1.
  - intros x n Hx Hxn.
    assert (∃ n1, alter (Note.set_linkedNoteIds (matching_ids w content)) noteId
                    (notes w) !! x = Some n1 ∧ Note.title n1 = Note.title n)
      as (n1 & Hx1 & <-).
    { destruct (decide (noteId = x)) as [->|Hne].
      - rewrite lookup_alter_eq, Hxn. by eexists.
      - rewrite lookup_alter_ne, Hxn by done. by eexists. }
    destruct (Hedge1 x n1 Hx Hx1) as (k & r & Hk & Hs & Ht & Hr).
    exists k, r. split; [|done]. apply Hmono3, Hkeep2; [done|].
    right; left. rewrite Ht. unfold addedLinks, removedLinks in *.
    rewrite list_elem_of_filter in Hx. rewrite list_elem_of_filter.
    unfold includes in *. destruct Hx as [_ Hx].
    intros [Hnot _]. apply bool_decide_eq_false in Hnot. done.
  - done.
  - intros k r Hk Hr. apply Hmono3, Hkeep2; [by apply Hmono1|].
    destruct Hr as [?|[?|Hr]]; [by left|by right; left|].
    right; right. destruct (notes w2 !! Link.targetNoteId r) eqn:E; [|done].
    destruct (Hdom (Link.targetNoteId r)) as [[? ?] _]; [eauto|congruence].
Qed.

End commit.

(** ** Symmetry under content commit *)

Lemma elem_of_addedLinks new old x :
  x ∈ addedLinks new old ↔ x ∈ new ∧ x ∉ old.
Proof.
  unfold addedLinks, includes. rewrite list_elem_of_filter, bool_decide_eq_false.
  tauto.
Qed.

Lemma elem_of_removedLinks new old x :
  x ∈ removedLinks new old ↔ x ∈ old ∧ x ∉ new.
Proof.
  unfold removedLinks, includes. rewrite list_elem_of_filter, bool_decide_eq_false.
  tauto.
Qed.

Lemma updateNoteLinks_symmetric host noteId content w w' :
  symmetric w →
  updateNoteLinks host noteId content w = (Some tt, w') →
  symmetric w'.
Proof.
  intros Hsym Hrun.
  destruct (notes w !! noteId) as [cur|] eqn:Hcur.
  2:{ rewrite updateNoteLinks_absent in Hrun by done. by injection Hrun as <-. }
  destruct (updateNoteLinks_summary _ _ _ _ _ _ Hcur Hrun) as (Hn & _).
  set (new := matching_ids w content) in *.
  set (old := Note.linkedNoteIds cur) in *.
  intros a b na' nb' Ha Hb.
  pose proof (commit_lookup noteId new (addedLinks new old) (removedLinks new old)
                (notes w) a) as Ra.
  pose proof (commit_lookup noteId new (addedLinks new old) (removedLinks new old)
                (notes w) b) as Rb.
  rewrite <- Hn, Ha in Ra. rewrite <- Hn, Hb in Rb.
  inversion Ra as [na ? (_ & _ & Hla & _) Hna|]; subst.
  inversion Rb as [nb ? (_ & _ & _ & Hbb) Hnb|]; subst.
  symmetry in Hna, Hnb. rewrite Hla, Hbb.
  rewrite elem_of_addedLinks, elem_of_removedLinks.
  destruct (decide (a = noteId)) as [->|Hne].
  - assert (cur = na) as <- by congruence.
    pose proof (Hsym noteId b cur nb Hcur Hnb) as Hpre. fold old in Hpre.
    pose proof (eq_refl noteId) as Hrefl. revert Hpre Hrefl.
    generalize (noteId = noteId) (noteId ∈ Note.backlinkNoteIds nb).
    destruct (decide (b ∈ new)) as [H1|H1], (decide (b ∈ old)) as [H2|H2];
      revert H1 H2; clear; tauto.
  - rewrite (Hsym a b na nb Hna Hnb). clear -Hne. tauto.
Qed.

(** ** Deleting a note, step by step *)

(** A loop whose rounds rewrite the row they read, and nothing else. *)
Lemma rewrite_loop (G : Note.t → Note.t) (body : string → Async unit) l w :
  (∀ x w1, body x w1 =
           match notes w1 !! x with
           | None => (Some tt, w1)
           | Some _ =>
               (Some tt, log (notes_update_req x)
                  (mkWorld (alter G x (notes w1)) (links w1) (draws w1) (journal w1)))
           end) →
  ∃ w', forEach l body w = (Some tt, w') ∧
        notes w' = alter_each G l (notes w) ∧
        links w' = links w ∧ draws w' = draws w.
Proof.
  intros Hbody.
  destruct (forEach_total l body w) as [w' Hw'].
  { intros x w1. rewrite Hbody. by destruct (notes w1 !! x). }
  exists w'. split; [done|]. revert Hw'.
  apply (forEach_fulfils_ind (λ done w1,
    notes w1 = alter_each G done (notes w) ∧
    links w1 = links w ∧ draws w1 = draws w)); [done|].
  intros done x w1 w2 (Hn & Hl & Hd). rewrite Hbody.
  destruct (notes w1 !! x) eqn:Hx; intros [= <-]; simpl.
  - by rewrite alter_each_snoc, Hn.
  - by rewrite alter_each_snoc, <- Hn, alter_absent.
Qed.

Lemma deleteNote_absent id w :
  notes w !! id = None → deleteNote id w = (Some tt, w).
Proof. intros H. unfold deleteNote, bind, getNote, notes_get. simpl. by rewrite H. Qed.

Lemma deleteNote_run id w n :
  notes w !! id = Some n →
  ∃ w', deleteNote id w = (Some tt, w') ∧
    notes w' = delete id
                 (alter_each (strip_link id) (Note.backlinkNoteIds n)
                    (alter_each (strip_backlink id) (Note.linkedNoteIds n) (notes w))) ∧
    links w' = Table.delete_where (λ link, String.eqb (Link.targetNoteId link) id)
                 (Table.delete_where (λ link, String.eqb (Link.sourceNoteId link) id)
                    (links w)) ∧
    draws w' = draws w.
Proof.
  intros Hn. unfold deleteNote, bind, getNote, notes_get. simpl. rewrite Hn.
  destruct (rewrite_loop (strip_backlink id) (dropBacklink id)
              (Note.linkedNoteIds n) w (dropBacklink_run id))
    as (w1 & -> & Hn1 & Hl1 & Hd1).
  destruct (rewrite_loop (strip_link id) (dropLink id)
              (Note.backlinkNoteIds n) w1 (dropLink_run id))
    as (w2 & -> & Hn2 & Hl2 & Hd2).
  eexists. split; [done|]. simpl.
  by rewrite Hn2, Hn1, Hl2, Hl1, Hd2, Hd1.
Qed.

(** The notes table after the two loops of [deleteNote], row by row. *)
Lemma delete_lookup id (outgoing incoming : list string) (m : gmap string Note.t) k :
  option_Forall2
    (λ n n',
       Note.id n' = Note.id n ∧ Note.title n' = Note.title n ∧
       (∀ y, y ∈ Note.linkedNoteIds n'
             ↔ y ∈ Note.linkedNoteIds n ∧ ¬ (y = id ∧ k ∈ incoming)) ∧
       (∀ y, y ∈ Note.backlinkNoteIds n'
             ↔ y ∈ Note.backlinkNoteIds n ∧ ¬ (y = id ∧ k ∈ outgoing)))
    (m !! k)
    (alter_each (strip_link id) incoming
       (alter_each (strip_backlink id) outgoing m) !! k).
Proof.
  destruct (alter_each_lookup (strip_link id) incoming
     (alter_each (strip_backlink id) outgoing m) k) as (j2 & -> & Hj2).
  destruct (alter_each_lookup (strip_backlink id) outgoing m k) as (j1 & -> & Hj1).
  destruct (m !! k) as [n|]; [|constructor].
  simpl. constructor.
  destruct (iter_strip_backlink id j1 n) as (Hi1 & Ht1 & Hl1 & Hb1).
  destruct (iter_strip_link id j2 (Nat.iter j1 (strip_backlink id) n))
    as (Hi2 & Ht2 & Hb2 & Hl2).
  simpl in *. split_and!; [congruence..| |].
  - intros y. rewrite Hl2, Hl1.
    assert (j2 ≠ 0 ↔ k ∈ incoming) as ->; [|done].
    rewrite Hj2. destruct (decide (k ∈ incoming)); naive_solver.
  - intros y. rewrite Hb2, Hb1.
    assert (j1 ≠ 0 ↔ k ∈ outgoing) as ->; [|done].
    rewrite Hj1. destruct (decide (k ∈ outgoing)); naive_solver.
Qed.

Lemma deleteNote_symmetric id w :
  symmetric w → ∃ w', deleteNote id w = (Some tt, w') ∧ symmetric w'.
Proof.
  intros Hsym. destruct (notes w !! id) as [n|] eqn:Hn.
  2:{ exists w. by rewrite deleteNote_absent. }
  destruct (deleteNote_run id w n Hn) as (w' & Hrun & Hnotes & _).
  exists w'. split; [done|].
  intros a b na' nb'. rewrite Hnotes.
  intros [Hane Ha]%lookup_delete_Some [Hbne Hb]%lookup_delete_Some.
  pose proof (delete_lookup id (Note.linkedNoteIds n) (Note.backlinkNoteIds n)
                (notes w) a) as Ra.
  pose proof (delete_lookup id (Note.linkedNoteIds n) (Note.backlinkNoteIds n)
                (notes w) b) as Rb.
  rewrite Ha in Ra. rewrite Hb in Rb.
  inversion Ra as [na ? (_ & _ & Hla & _) Hna|]; subst.
  inversion Rb as [nb ? (_ & _ & _ & Hbb) Hnb|]; subst.
  symmetry in Hna, Hnb. rewrite Hla, Hbb, (Hsym a b na nb Hna Hnb).
  clear -Hane Hbne. intuition congruence.
Qed.

(** C6. If the outgoing and incoming views mirror each other over the
    notes of the store (B's id is in A's [linkedNoteIds] exactly when A's
    id is in B's [backlinkNoteIds]), they still do after a fulfilled
    [updateNoteLinks] and after [deleteNote], which always fulfils. *)
Theorem symmetry_preserved (host : Host) (w : World) :
  symmetric w →
  (∀ noteId content w',
     updateNoteLinks host noteId content w = (Some tt, w') → symmetric w') ∧
  (∀ id, ∃ w', deleteNote id w = (Some tt, w') ∧ symmetric w').
Proof.
  intros Hsym. split.
  - intros noteId content w'. by apply updateNoteLinks_symmetric.
  - intros id. by apply deleteNote_symmetric.
Qed.

(** C7. Deleting an existing note N, in a store whose two adjacency
    views mirror each other and whose rows sit under their own id:
    [deleteNote] fulfils; N is gone; every other note is kept, with N's id
    taken out of its outgoing and of its incoming list and nothing else
    taken out; the Link rows left are exactly the former rows that have N
    neither as source nor as target (so none is created, placeholder or
    other); and N's id occurs nowhere in the store any more. *)
Theorem deleteNote_cleanup (id : string) (w : World) (n : Note.t) :
  symmetric w → keyed w → notes w !! id = Some n →
  ∃ w', deleteNote id w = (Some tt, w') ∧
    notes w' !! id = None ∧
    (∀ k m, k ≠ id → notes w !! k = Some m →
       ∃ m', notes w' !! k = Some m' ∧
         Note.id m' = Note.id m ∧ Note.title m' = Note.title m ∧
         (∀ y, y ∈ Note.linkedNoteIds m' ↔ y ∈ Note.linkedNoteIds m ∧ y ≠ id) ∧
         (∀ y, y ∈ Note.backlinkNoteIds m' ↔ y ∈ Note.backlinkNoteIds m ∧ y ≠ id)) ∧
    (∀ k r, links w' !! k = Some r
            ↔ links w !! k = Some r ∧ Link.sourceNoteId r ≠ id
              ∧ Link.targetNoteId r ≠ id) ∧
    ¬ mentions w' id.
Proof.
  intros Hsym Hkeyed Hn.
  destruct (deleteNote_run id w n Hn) as (w' & Hrun & Hnotes & Hlinks & _).
  exists w'. split; [done|].
  assert (∀ k m, k ≠ id → notes w !! k = Some m →
       ∃ m', notes w' !! k = Some m' ∧
         Note.id m' = Note.id m ∧ Note.title m' = Note.title m ∧
         (∀ y, y ∈ Note.linkedNoteIds m' ↔ y ∈ Note.linkedNoteIds m ∧ y ≠ id) ∧
         (∀ y, y ∈ Note.backlinkNoteIds m' ↔ y ∈ Note.backlinkNoteIds m ∧ y ≠ id))
    as Hrows.
  { intros k m Hk Hm.
    pose proof (delete_lookup id (Note.linkedNoteIds n) (Note.backlinkNoteIds n)
                  (notes w) k) as Rk.
    rewrite Hm in Rk. inversion Rk as [? m' (Hi & Ht & Hl & Hb) E Hm'|]; subst.
    exists m'. rewrite Hnotes, lookup_delete_ne by done.
    split_and!; [done|done|done| |].
    - intros y. rewrite Hl. split; [|clear; tauto].
      intros [Hy Hex]. split; [done|]. intros ->. apply Hex. split; [done|].
      by apply (Hsym k id m n Hm Hn).
    - intros y. rewrite Hb. split; [|clear; tauto].
      intros [Hy Hex]. split; [done|]. intros ->. apply Hex. split; [done|].
      by apply (Hsym id k n m Hn Hm). }
  assert (∀ k r, links w' !! k = Some r
            ↔ links w !! k = Some r ∧ Link.sourceNoteId r ≠ id
              ∧ Link.targetNoteId r ≠ id) as Hrowsl.
  { intros k r. rewrite Hlinks, !TableFacts.lookup_delete_where, !String.eqb_neq.
    tauto. }
  split_and!; [by rewrite Hnotes, lookup_delete_eq|done|done|].
  intros [[m' Hm']|[(k & m' & Hk & Hocc)|(k & r & Hk & Hocc)]].
  - by rewrite Hnotes, lookup_delete_eq in Hm'.
  - destruct (decide (k = id)) as [->|Hne].
    { by rewrite Hnotes, lookup_delete_eq in Hk. }
    assert (is_Some (notes w !! k)) as [m Hm].
    { rewrite Hnotes, lookup_delete_ne in Hk by done.
      pose proof (delete_lookup id (Note.linkedNoteIds n) (Note.backlinkNoteIds n)
                    (notes w) k) as Rk.
      rewrite Hk in Rk. inversion Rk. eauto. }
    destruct (Hrows k m Hne Hm) as (m'' & Hm'' & Hi & _ & Hl & Hb).
    assert (m'' = m') as -> by congruence.
    destruct Hocc as [Hid|[Hin|Hin]].
    + rewrite Hi, (Hkeyed k m Hm) in Hid. done.
    + apply Hl in Hin. naive_solver.
    + apply Hb in Hin. naive_solver.
  - apply Hrowsl in Hk. naive_solver.
Qed.

(** ** What every commit keeps, fulfilled or not *)

Lemma after_bind {A B} (m : Async A) (k : A → Async B) w :
  after (bind m k) w =
  match m w with
  | (Some a, w1) => after (k a) w1
  | (None, w1) => w1
  end.
Proof. unfold after, bind. by destruct (m w) as [[a|] w1]. Qed.

Lemma updateNoteLinks_inv (I : World → Prop) host noteId content w :
  (∀ new w1, I w1 → I (relinked noteId new w1)) →
  (∀ x w1, I w1 → I (after (addBacklink host noteId x) w1)) →
  (∀ x w1, I w1 → I (after (removeBacklink noteId x) w1)) →
  (∀ t w1, I w1 → I (after (addUnresolved host noteId t) w1)) →
  I w → I (after (updateNoteLinks host noteId content) w).
Proof.
  intros Hre Hadd Hrem Hun Hw. unfold updateNoteLinks.
  rewrite after_bind. simpl. destruct (notes w !! noteId) as [cur|]; [|done].
  rewrite after_bind. simpl. rewrite after_bind. simpl.
  rewrite after_bind.
  match goal with |- context [forEach ?l ?b ?w0] =>
    pose proof (forEach_inv I l b w0 (λ x w1 _, Hadd x w1) (Hre _ _ Hw)) as H1;
    unfold after in H1 at 1; destruct (forEach l b w0) as [[[]|] w2]
  end; simpl in H1; [|done].
  rewrite after_bind.
  match goal with |- context [forEach ?l ?b ?w0] =>
    pose proof (forEach_inv I l b w0 (λ x w1 _, Hrem x w1) H1) as H2;
    unfold after in H2 at 1; destruct (forEach l b w0) as [[[]|] w3]
  end; simpl in H2; [|done].
  apply forEach_inv; [|done]. intros t w1 _. apply Hun.
Qed.

(** C10. A commit for an identifier under which the store holds no note
    fulfils and leaves the world as it was: no note is modified, no Link
    row is created or deleted and no write is issued, whatever references
    the text holds. *)
Theorem updateNoteLinks_unknown_note (host : Host) (noteId content : string) (w : World) :
  notes w !! noteId = None →
  updateNoteLinks host noteId content w = (Some tt, w).
Proof. apply updateNoteLinks_absent. Qed.

Lemma updateNoteLinks_unknown_note_witness :
  updateNoteLinks Demo.host "zz" "see [[A]] and [[B]]" Demo.w3 = (Some tt, Demo.w3).
Proof.
  apply (updateNoteLinks_unknown_note Demo.host "zz" "see [[A]] and [[B]]" Demo.w3).
  vm_compute. reflexivity.
Defined.

(** Inserting under an unused key keeps the rows already there. *)
Lemma lookup_insert_fresh {V} (m : gmap string V) i v k r :
  m !! i = None → m !! k = Some r → <[i := v]> m !! k = Some r.
Proof. intros Hi Hk. rewrite lookup_insert_ne; [done|]. intros <-. congruence. Qed.

(** C4, amended. A commit never deletes a Link row for its title having
    left the text: a row whose [targetNoteId] is not the id of a note of
    the store (as the empty target of an unresolved row) is still there
    after the commit, whatever the new text. *)
Theorem updateNoteLinks_keeps_placeholders (host : Host) (noteId content : string)
    (w : World) (k : string) (r : Link.t) :
  links w !! k = Some r →
  notes w !! Link.targetNoteId r = None →
  links (after (updateNoteLinks host noteId content) w) !! k = Some r.
Proof.
  intros Hk Hr.
  cut (links (after (updateNoteLinks host noteId content) w) !! k = Some r ∧
       notes (after (updateNoteLinks host noteId content) w) !! Link.targetNoteId r = None).
  { tauto. }
  apply (updateNoteLinks_inv
    (λ w1, links w1 !! k = Some r ∧ notes w1 !! Link.targetNoteId r = None));
    [| | | |done].
  - intros new w1 [H1 H2]. simpl. split; [done|].
    rewrite lookup_alter. case_decide; [subst; by rewrite H2|done].
  - intros x w1 [H1 H2]. unfold after. rewrite addBacklink_run.
    destruct (notes w1 !! x) eqn:Hx; [|done]. simpl.
    assert (alter (with_backlink noteId) x (notes w1) !! Link.targetNoteId r = None).
    { rewrite lookup_alter. case_decide; [subst; by rewrite H2|done]. }
    destruct (links w1 !! uuid_at host (draws w1)) eqn:Hfresh; simpl; [done|].
    split; [|done]. by apply lookup_insert_fresh.
  - intros x w1 [H1 H2]. unfold after. rewrite removeBacklink_run.
    destruct (notes w1 !! x) eqn:Hx; [|done]. simpl. split.
    + apply TableFacts.lookup_delete_where. split; [done|].
      apply andb_false_iff. right. apply String.eqb_neq. intros E.
      rewrite E in H2. congruence.
    + rewrite lookup_alter. case_decide; [subst; by rewrite H2|done].
  - intros t w1 [H1 H2]. unfold after. rewrite addUnresolved_run.
    destruct (Table.first _ _); [done|]. simpl.
    destruct (links w1 !! uuid_at host (draws w1)) eqn:Hfresh; simpl; [done|].
    split; [|done]. by apply lookup_insert_fresh.
Qed.

Lemma updateNoteLinks_keeps_placeholders_witness :
  links (after (updateNoteLinks Demo.host "b" "") Demo.w2) !! "c"
  = Some (Link.mk "c" "b" "" "B" 1003 false).
Proof.
  apply (updateNoteLinks_keeps_placeholders Demo.host "b" "" Demo.w2 "c");
    vm_compute; reflexivity.
Defined.

(** C4 as stated fails: the unresolved row of note "b" for the title "B"
    outlives a commit whose text no longer holds any reference. *)
Lemma placeholder_not_removed :
  parseWikiLinks "" = [] ∧
  links Demo.w2 !! "c" = Some (Link.mk "c" "b" "" "B" 1003 false) ∧
  updateNoteLinks Demo.host "b" "" Demo.w2
    = (Some tt, after (updateNoteLinks Demo.host "b" "") Demo.w2) ∧
  links (after (updateNoteLinks Demo.host "b" "") Demo.w2) !! "c"
    = Some (Link.mk "c" "b" "" "B" 1003 false).
Proof. vm_compute. done. Qed.

(** ** Ambiguous titles *)

Lemma elem_of_matching_ids w content k :
  keyed w →
  k ∈ matching_ids w content
  ↔ ∃ n, notes w !! k = Some n ∧ Note.title n ∈ parseWikiLinks content.
Proof.
  intros Hkeyed. unfold matching_ids. rewrite list_elem_of_fmap. split.
  - intros (n & -> & (Hp & k' & Hk)%TableFacts.elem_of_filter_toArray).
    exists n. rewrite (Hkeyed _ _ Hk). split; [done|].
    by apply bool_decide_eq_true in Hp.
  - intros (n & Hk & Hp). exists n. split; [by rewrite (Hkeyed _ _ Hk)|].
    apply TableFacts.elem_of_filter_toArray. split; [|eauto].
    by apply bool_decide_eq_true.
Qed.

(** C1, amended. A fulfilled commit of an existing note links it to
    every note whose title is among the titles parsed from the text, not
    to one chosen among them: the source's outgoing list becomes the ids
    of all these notes, and for each of them that was not in the outgoing
    list before, a resolved Link row from the source to it is in the
    store. *)
Theorem updateNoteLinks_links_every_match (host : Host) (noteId content : string)
    (w w' : World) (cur : Note.t) :
  keyed w →
  notes w !! noteId = Some cur →
  updateNoteLinks host noteId content w = (Some tt, w') →
  (∃ cur', notes w' !! noteId = Some cur' ∧
           Note.linkedNoteIds cur' = matching_ids w content) ∧
  (∀ k, k ∈ matching_ids w content
        ↔ ∃ n, notes w !! k = Some n ∧ Note.title n ∈ parseWikiLinks content) ∧
  (∀ k n, notes w !! k = Some n → Note.title n ∈ parseWikiLinks content →
          k ∉ Note.linkedNoteIds cur →
          resolved_edge w' noteId k (Note.title n)).
Proof.
  intros Hkeyed Hcur Hrun.
  destruct (updateNoteLinks_summary _ _ _ _ _ _ Hcur Hrun) as (Hn & Hedge & _).
  split_and!.
  - pose proof (commit_lookup noteId (matching_ids w content)
      (addedLinks (matching_ids w content) (Note.linkedNoteIds cur))
      (removedLinks (matching_ids w content) (Note.linkedNoteIds cur))
      (notes w) noteId) as R.
    rewrite <- Hn, Hcur in R. inversion R as [? cur' (_ & _ & Hl & _)|]; subst.
    exists cur'. split; [done|]. by rewrite decide_True in Hl.
  - intros k. by apply elem_of_matching_ids.
  - intros k n Hk Ht Hnew. apply Hedge; [|done].
    apply elem_of_addedLinks. split; [|done].
    apply elem_of_matching_ids; eauto.
Qed.

Lemma keyedb_sound w : keyedb w = true → keyed w.
Proof.
  unfold keyedb. rewrite forallb_forall. intros H k n Hk.
  specialize (H k). rewrite Hk in H. apply String.eqb_eq, H.
  apply list_elem_of_In, TableFacts.elem_of_keys. eauto.
Qed.

Lemma symmetricb_sound w : symmetricb w = true → symmetric w.
Proof.
  unfold symmetricb. rewrite forallb_forall. intros H a b na nb Ha Hb.
  specialize (H a). rewrite forallb_forall in H.
  assert (In a (Table.keys (notes w))) as Hina
    by (apply list_elem_of_In, TableFacts.elem_of_keys; eauto).
  assert (In b (Table.keys (notes w))) as Hinb
    by (apply list_elem_of_In, TableFacts.elem_of_keys; eauto).
  specialize (H Hina b Hinb). rewrite Ha, Hb in H.
  apply Bool.eqb_prop in H.
  rewrite <- (bool_decide_eq_true (b ∈ Note.linkedNoteIds na)), H.
  apply bool_decide_eq_true.
Qed.

Lemma updateNoteLinks_links_every_match_witness :
  (∃ cur', notes Demo.d4 !! "f" = Some cur' ∧
           Note.linkedNoteIds cur' = matching_ids Demo.d3 "[[Dup]]") ∧
  (∀ k, k ∈ matching_ids Demo.d3 "[[Dup]]"
        ↔ ∃ n, notes Demo.d3 !! k = Some n ∧ Note.title n ∈ parseWikiLinks "[[Dup]]") ∧
  (∀ k n, notes Demo.d3 !! k = Some n → Note.title n ∈ parseWikiLinks "[[Dup]]" →
          k ∉ Note.linkedNoteIds (Note.mk "f" "C" "" "" [] 1004 1004 [] []) →
          resolved_edge Demo.d4 "f" k (Note.title n)).
Proof.
  apply (updateNoteLinks_links_every_match Demo.host "f" "[[Dup]]" Demo.d3 Demo.d4
           (Note.mk "f" "C" "" "" [] 1004 1004 [] [])).
  - apply keyedb_sound. vm_compute. reflexivity.
  - vm_compute. reflexivity.
  - vm_compute. reflexivity.
Defined.

(** C1 as stated fails: with two notes titled "Dup", the commit of a
    third note whose text holds the one reference [[Dup]] fulfils and
    leaves two outgoing edges and two resolved Link rows for it. *)
Lemma ambiguous_title_two_edges :
  parseWikiLinks "[[Dup]]" = ["Dup"] ∧
  Note.title <$> notes Demo.d3 !! "b" = Some "Dup" ∧
  Note.title <$> notes Demo.d3 !! "d" = Some "Dup" ∧
  updateNoteLinks Demo.host "f" "[[Dup]]" Demo.d3 = (Some tt, Demo.d4) ∧
  Note.linkedNoteIds <$> notes Demo.d4 !! "f" = Some ["b"; "d"] ∧
  Link.targetNoteId <$>
    Table.filter_toArray
      (λ link, String.eqb (Link.sourceNoteId link) "f"
               && String.eqb (Link.targetTitle link) "Dup"
               && Link.resolved link) (links Demo.d4)
  = ["b"; "d"].
Proof. vm_compute. done. Qed.

(** ** Creating and updating a note, step by step *)

Lemma id_spread p n : Note.id (Note.spread p n) = Note.id n.
Proof. by destruct p as [[] [] [] [] [] [] []]. Qed.

Lemma id_newNote data id now : Note.id (newNote data id now) = id.
Proof.
  unfold newNote. simpl. destruct (_ && _); simpl; by rewrite id_spread.
Qed.

Lemma createNote_run host data w :
  let id := uuid_at host (S (draws w)) in
  let note := newNote data id (time_at host (draws w)) in
  let w1 := mkWorld (notes w) (links w) (S (S (draws w))) (journal w) in
  createNote host data w =
  match notes w !! id with
  | Some _ => (None, log (notes_add_req id) w1)
  | None =>
      (Some note,
       log (notes_add_req id)
         (mkWorld (<[id := note]> (notes w)) (links w) (draws w1) (journal w)))
  end.
Proof.
  unfold createNote, bind, Date_now, uuidv4, notes_add, ret. cbn -[newNote].
  rewrite id_newNote.
  by destruct (notes w !! uuid_at host (S (draws w))).
Qed.

Lemma updateNote_run host id updates w :
  ∃ finalUpdates,
    updateNote host id updates w =
    (Some tt,
     log (notes_update_req id)
       (mkWorld (alter (Note.spread finalUpdates) id (notes w)) (links w)
          (S (draws w)) (journal w))) ∧
    (Note.content_opt updates = None →
     finalUpdates =
       Note.mkPartial (Note.title_opt updates) None (Note.contentText_opt updates)
         (Note.tags_opt updates) (Some (time_at host (draws w)))
         (Note.linkedNoteIds_opt updates) (Note.backlinkNoteIds_opt updates)).
Proof.
  unfold updateNote, bind, Date_now, getNote, notes_get, notes_update. simpl.
  destruct (Note.content_opt updates) as [content|] eqn:Hc; simpl.
  - destruct (negb (truthy (Note.title_opt updates))); simpl.
    + destruct (notes w !! id) as [existingNote|]; simpl.
      * destruct (_ || _); simpl; eexists; split; done.
      * eexists; split; done.
    + eexists; split; done.
  - eexists. split; done.
Qed.

(** ** Unresolved rows are not duplicated *)

Lemma unique_unresolved_subset w w' :
  (∀ k r, links w' !! k = Some r → links w !! k = Some r) →
  unique_unresolved w → unique_unresolved w'.
Proof. intros Hsub H k1 k2 l1 l2 H1 H2. apply H; by apply Hsub. Qed.

Lemma unique_unresolved_insert w w' i row :
  links w' = <[i := row]> (links w) →
  (Link.resolved row = true ∨
   ∀ k r, links w !! k = Some r →
          Link.sourceNoteId r = Link.sourceNoteId row →
          Link.targetTitle r = Link.targetTitle row →
          Link.resolved r = true) →
  unique_unresolved w → unique_unresolved w'.
Proof.
  intros Hl Hrow H k1 k2 l1 l2. rewrite Hl.
  intros [[<- <-]|[Hne1 H1]]%lookup_insert_Some [[<- <-]|[Hne2 H2]]%lookup_insert_Some;
    intros Hs Ht Hr1 Hr2; [done| | |by apply (H k1 k2 l1 l2)].
  - destruct Hrow as [Hrow|Hrow]; [congruence|].
    rewrite (Hrow k2 l2 H2) in Hr2; done.
  - destruct Hrow as [Hrow|Hrow]; [congruence|].
    rewrite (Hrow k1 l1 H1) in Hr1; done.
Qed.

Lemma updateNoteLinks_unique_unresolved host noteId content w :
  unique_unresolved w →
  unique_unresolved (after (updateNoteLinks host noteId content) w).
Proof.
  apply updateNoteLinks_inv.
  - intros new w1. by apply unique_unresolved_subset.
  - intros x w1 H. unfold after. rewrite addBacklink_run.
    destruct (notes w1 !! x); [|done]. simpl.
    destruct (links w1 !! uuid_at host (draws w1)); simpl.
    + revert H. by apply unique_unresolved_subset.
    + revert H. eapply unique_unresolved_insert; [done|]. by left.
  - intros x w1 H. unfold after. rewrite removeBacklink_run.
    destruct (notes w1 !! x); [|done]. simpl.
    revert H. apply unique_unresolved_subset. simpl.
    by intros k r (Hk & _)%TableFacts.lookup_delete_where.
  - intros t w1 H. unfold after. rewrite addUnresolved_run.
    destruct (Table.first _ _) eqn:Hfirst; [done|]. simpl.
    destruct (links w1 !! uuid_at host (draws w1)); simpl.
    + revert H. by apply unique_unresolved_subset.
    + revert H. eapply unique_unresolved_insert; [done|]. right. simpl.
      intros k r Hk Hs Ht.
      pose proof (proj1 (TableFacts.first_None _ _) Hfirst k r Hk) as Hp.
      simpl in Hp. apply String.eqb_eq in Hs, Ht. rewrite Hs, Ht in Hp.
      simpl in Hp. by destruct (Link.resolved r).
Qed.

(** C5, amended. No operation of the engine makes two unresolved Link
    rows share [(sourceNoteId, targetTitle)]: if no two such rows exist
    before a content commit, a note creation, a note update or a note
    deletion, none exist in the store the operation leaves, whether it
    fulfils or rejects. *)
Theorem unresolved_rows_unique (host : Host) (w : World) :
  unique_unresolved w →
  (∀ noteId content, unique_unresolved (after (updateNoteLinks host noteId content) w)) ∧
  (∀ data, unique_unresolved (after (createNote host data) w)) ∧
  (∀ id updates, unique_unresolved (after (updateNote host id updates) w)) ∧
  (∀ id, unique_unresolved (after (deleteNote id) w)).
Proof.
  intros H. split_and!.
  - intros noteId content. by apply updateNoteLinks_unique_unresolved.
  - intros data. unfold after. rewrite createNote_run. simpl.
    destruct (notes w !! _); revert H; by apply unique_unresolved_subset.
  - intros id updates. destruct (updateNote_run host id updates w) as (fu & Hrun & _).
    unfold after. rewrite Hrun. revert H. by apply unique_unresolved_subset.
  - intros id. destruct (notes w !! id) as [n|] eqn:Hn.
    + destruct (deleteNote_run id w n Hn) as (w' & Hrun & _ & Hl & _).
      unfold after. rewrite Hrun. simpl. revert H.
      apply unique_unresolved_subset. rewrite Hl.
      by intros k r [[? _]%TableFacts.lookup_delete_where _]%TableFacts.lookup_delete_where.
    + unfold after. by rewrite deleteNote_absent.
Qed.

Lemma unique_unresolved_empty : unique_unresolved Demo.w0.
Proof. intros k1 k2 l1 l2 H. simpl in H. by rewrite lookup_empty in H. Qed.

Lemma unresolved_rows_unique_witness :
  unique_unresolved Demo.w4 ∧ unique_unresolved (after (deleteNote "b") Demo.w3).
Proof.
  pose proof (proj1 (proj2 (unresolved_rows_unique Demo.host Demo.w0
                              unique_unresolved_empty)) (Demo.titled "A")) as H1.
  pose proof (proj1 (unresolved_rows_unique Demo.host Demo.w1 H1) "b" "see [[B]]") as H2.
  pose proof (proj1 (proj2 (unresolved_rows_unique Demo.host Demo.w2 H2))
                (Demo.titled "B")) as H3.
  split.
  - exact (proj1 (unresolved_rows_unique Demo.host Demo.w3 H3) "b" "see [[B]]").
  - exact (proj2 (proj2 (proj2 (unresolved_rows_unique Demo.host Demo.w3 H3))) "b").
Defined.

(** C5 as stated fails. From the empty store: note "b" is created, its
    text "see [[B]]" committed (an unresolved row for "B"), note "f" titled
    "B" created, and the same text committed again.  Every operation
    fulfils, and two Link rows of "b" now carry the title "B": the
    unresolved one and the resolved one. *)
Lemma duplicate_link_rows :
  (createNote Demo.host (Demo.titled "A") Demo.w0).2 = Demo.w1 ∧
  updateNoteLinks Demo.host "b" "see [[B]]" Demo.w1 = (Some tt, Demo.w2) ∧
  (createNote Demo.host (Demo.titled "B") Demo.w2).2 = Demo.w3 ∧
  updateNoteLinks Demo.host "b" "see [[B]]" Demo.w3 = (Some tt, Demo.w4) ∧
  links Demo.w4 !! "c" = Some (Link.mk "c" "b" "" "B" 1003 false) ∧
  links Demo.w4 !! "g" = Some (Link.mk "g" "b" "f" "B" 1007 true) ∧
  ¬ unique_links Demo.w4.
Proof.
  assert (links Demo.w4 !! "c" = Some (Link.mk "c" "b" "" "B" 1003 false)) as Hc
    by (vm_compute; reflexivity).
  assert (links Demo.w4 !! "g" = Some (Link.mk "g" "b" "f" "B" 1007 true)) as Hg
    by (vm_compute; reflexivity).
  split_and!; [vm_compute; reflexivity..|done|done|].
  intros H. specialize (H "c" "g" _ _ Hc Hg eq_refl eq_refl). discriminate.
Qed.

(** ** Note creation and rename leave the links alone *)

(** C2, amended. Creating a note adds that note and touches nothing
    else: the Link rows are left as they were (an unresolved row for the
    new title stays unresolved) and no existing note is modified (no
    adjacency edge is added); when the new identifier is unused the
    creation fulfils and the new note is stored under it. *)
Theorem createNote_adds_one_row (host : Host) (data : Note.partial) (w : World) :
  let id := uuid_at host (S (draws w)) in
  let note := newNote data id (time_at host (draws w)) in
  let w' := after (createNote host data) w in
  links w' = links w ∧
  (∀ k n, notes w !! k = Some n → notes w' !! k = Some n) ∧
  (∀ k, k ≠ id → notes w' !! k = notes w !! k) ∧
  (notes w !! id = None →
   createNote host data w = (Some note, w') ∧ notes w' !! id = Some note).
Proof.
  intros id note w'. subst w'. unfold after. rewrite createNote_run. fold id note.
  destruct (notes w !! id) eqn:Hid; simpl.
  - done.
  - split_and!; [done| | |].
    + intros k n Hk. by apply lookup_insert_fresh.
    + intros k Hk. by rewrite lookup_insert_ne.
    + intros _. by rewrite lookup_insert_eq.
Qed.

(** C2 as stated fails: after note "b" referred to [[B]], creating the
    note titled "B" (stored under "f") leaves the Link row unresolved and
    both adjacency lists empty. *)
Lemma creation_resolves_nothing :
  links Demo.w2 !! "c" = Some (Link.mk "c" "b" "" "B" 1003 false) ∧
  (createNote Demo.host (Demo.titled "B") Demo.w2).1
    = Some (Note.mk "f" "B" "" "" [] 1004 1004 [] []) ∧
  links Demo.w3 !! "c" = Some (Link.mk "c" "b" "" "B" 1003 false) ∧
  Note.linkedNoteIds <$> notes Demo.w3 !! "b" = Some [] ∧
  Note.backlinkNoteIds <$> notes Demo.w3 !! "f" = Some [].
Proof. vm_compute. done. Qed.

(** C8, amended. Renaming a note rewrites its own row and nothing else:
    the update fulfils, the row gets the new title and the time of the
    update, every other note and every Link row is left as it was; no
    unresolved Link is re-resolved and no adjacency list changes. *)
Theorem updateNote_rename_only (host : Host) (id newTitle : string) (w : World) :
  let w' := after (updateNote host id (renaming newTitle)) w in
  updateNote host id (renaming newTitle) w = (Some tt, w') ∧
  links w' = links w ∧
  (∀ k, k ≠ id → notes w' !! k = notes w !! k) ∧
  notes w' !! id
    = (λ n, Note.set_updatedAt (time_at host (draws w)) (Note.set_title newTitle n))
        <$> notes w !! id ∧
  (∀ k n', notes w' !! k = Some n' →
     ∃ n, notes w !! k = Some n ∧
          Note.linkedNoteIds n' = Note.linkedNoteIds n ∧
          Note.backlinkNoteIds n' = Note.backlinkNoteIds n).
Proof.
  intros w'. subst w'. unfold after.
  destruct (updateNote_run host id (renaming newTitle) w) as (fu & Hrun & Hfu).
  rewrite Hrun. rewrite (Hfu eq_refl). simpl.
  split_and!; [done|done| | |].
  - intros k Hk. by rewrite lookup_alter_ne.
  - by rewrite lookup_alter_eq.
  - intros k n'. rewrite lookup_alter. case_decide as Hk.
    + subst k. destruct (notes w !! id) as [n|]; [|done].
      intros [= <-]. by exists n.
    + intros Hn'. by exists n'.
Qed.

(** C8 as stated fails: note "f" is renamed to "B" while note "b" holds
    an unresolved Link for "B"; the row stays unresolved and no adjacency
    is recorded. *)
Lemma rename_resolves_nothing :
  Note.title <$> notes Demo.r1 !! "f" = Some "X" ∧
  links Demo.r1 !! "c" = Some (Link.mk "c" "b" "" "B" 1003 false) ∧
  updateNote Demo.host "f" (renaming "B") Demo.r1 = (Some tt, Demo.r2) ∧
  Note.title <$> notes Demo.r2 !! "f" = Some "B" ∧
  links Demo.r2 !! "c" = Some (Link.mk "c" "b" "" "B" 1003 false) ∧
  Note.linkedNoteIds <$> notes Demo.r2 !! "b" = Some [] ∧
  Note.backlinkNoteIds <$> notes Demo.r2 !! "f" = Some [].
Proof. vm_compute. done. Qed.

Lemma symmetry_preserved_witness :
  symmetric Demo.w5 ∧
  ∃ w', deleteNote "f" Demo.w4 = (Some tt, w') ∧ symmetric w'.
Proof.
  assert (symmetric Demo.w4) as H by (apply symmetricb_sound; vm_compute; reflexivity).
  destruct (symmetry_preserved Demo.host Demo.w4 H) as [Hcommit Hdelete].
  split.
  - apply (Hcommit "b" "see [[B]]" Demo.w5). vm_compute. reflexivity.
  - apply Hdelete.
Defined.

Lemma deleteNote_cleanup_witness :
  ∃ w', deleteNote "f" Demo.w4 = (Some tt, w') ∧
        notes w' !! "f" = None ∧
        (∀ k r, links w' !! k = Some r
                ↔ links Demo.w4 !! k = Some r ∧ Link.sourceNoteId r ≠ "f"
                  ∧ Link.targetNoteId r ≠ "f") ∧
        ¬ mentions w' "f".
Proof.
  destruct (deleteNote_cleanup "f" Demo.w4
              (Note.mk "f" "B" "" "" [] 1004 1004 [] ["b"]))
    as (w' & Hrun & Hgone & _ & Hlinks & Hclean).
  - apply symmetricb_sound. vm_compute. reflexivity.
  - apply keyedb_sound. vm_compute. reflexivity.
  - vm_compute. reflexivity.
  - exists w'. split_and!; assumption.
Defined.

(** ** Committing the same text twice *)

Lemma fmap_filter_omap {A B} (p : A → bool) (g : A → B) (l : list A) :
  g <$> filter (λ v, p v = true) l = omap (λ v, if p v then Some (g v) else None) l.
Proof.
  induction l as [|x l IH]; [done|]. csimpl.
  destruct (p x) eqn:Hp.
  - rewrite filter_cons_True by done. csimpl. by rewrite IH.
  - rewrite filter_cons_False by congruence. done.
Qed.

(** Two tables with the same keys, ids and titles offer the same
    candidates, in the same order. *)
Lemma same_candidates {B} (g : Note.t → B) (titles : list string)
    (m1 m2 : gmap string Note.t) :
  (∀ k, option_Forall2 (λ n n', Note.title n' = Note.title n ∧ g n' = g n)
          (m1 !! k) (m2 !! k)) →
  g <$> Table.filter_toArray (λ note, includes titles (Note.title note)) m2
  = g <$> Table.filter_toArray (λ note, includes titles (Note.title note)) m1.
Proof.
  intros H. unfold Table.filter_toArray. rewrite !fmap_filter_omap.
  apply TableFacts.toArray_agree.
  - intros k. destruct (H k) as [n n' [Ht Hg]|]; simpl; [|done].
    by rewrite Ht, Hg.
  - intros k. destruct (H k); split; intros [? ?]; eauto; done.
Qed.

Lemma unresolvedTitles_ext titles l1 l2 :
  Note.title <$> l1 = Note.title <$> l2 →
  unresolvedTitles titles l1 = unresolvedTitles titles l2.
Proof.
  intros H. unfold unresolvedTitles. apply list_filter_iff. intros t.
  assert (∀ l, existsb (λ note, String.eqb (Note.title note) t) l
               = existsb (λ s, String.eqb s t) (Note.title <$> l)) as E.
  { induction l as [|x l IH]; [done|]. csimpl. by rewrite IH. }
  by rewrite !E, H.
Qed.

Lemma addedLinks_same l : addedLinks l l = [].
Proof.
  destruct (addedLinks l l) as [|x k] eqn:E; [done|].
  assert (x ∈ addedLinks l l) as Hx by (rewrite E; left).
  apply elem_of_addedLinks in Hx. tauto.
Qed.

Lemma removedLinks_same l : removedLinks l l = [].
Proof.
  destruct (removedLinks l l) as [|x k] eqn:E; [done|].
  assert (x ∈ removedLinks l l) as Hx by (rewrite E; left).
  apply elem_of_removedLinks in Hx. tauto.
Qed.

Lemma set_linkedNoteIds_same n : Note.set_linkedNoteIds (Note.linkedNoteIds n) n = n.
Proof. by destruct n. Qed.

(** A round of the third loop does nothing when the placeholder is
    there. *)
Lemma addUnresolved_skip host noteId t w :
  placeholder w noteId t → addUnresolved host noteId t w = (Some tt, w).
Proof.
  intros (k & r & Hk & Hs & Ht & Hr). rewrite addUnresolved_run.
  destruct (Table.first _ _) eqn:Hfirst; [done|]. exfalso.
  pose proof (proj1 (TableFacts.first_None _ _) Hfirst k r Hk) as Hp.
  simpl in Hp. rewrite Hs, Ht, Hr, !String.eqb_refl in Hp. done.
Qed.

(** C3, amended. When a commit has fulfilled, committing the same text
    again fulfils with an empty edit script (nothing to link, nothing to
    unlink, every unresolved title already has its placeholder) and
    leaves both tables as they were; it draws nothing from the host, and
    it issues one write, the update of the source's [linkedNoteIds] with
    the value it already holds (none when the note does not exist). *)
Theorem updateNoteLinks_twice (host : Host) (noteId content : string) (w w1 : World) :
  updateNoteLinks host noteId content w = (Some tt, w1) →
  ∃ w2, updateNoteLinks host noteId content w1 = (Some tt, w2) ∧
    notes w2 = notes w1 ∧ links w2 = links w1 ∧ draws w2 = draws w1 ∧
    journal w2
      = journal w1 ++ (if notes w1 !! noteId is Some _
                       then [notes_update_req noteId] else []) ∧
    (∀ cur1, notes w1 !! noteId = Some cur1 →
       addedLinks (matching_ids w1 content) (Note.linkedNoteIds cur1) = [] ∧
       removedLinks (matching_ids w1 content) (Note.linkedNoteIds cur1) = [] ∧
       ∀ t, t ∈ unresolvedTitles (parseWikiLinks content)
                  (Table.filter_toArray
                     (λ note, includes (parseWikiLinks content) (Note.title note))
                     (notes w1)) →
            placeholder w1 noteId t).
Proof.
  intros Hrun. destruct (notes w !! noteId) as [cur|] eqn:Hcur.
  2:{ rewrite updateNoteLinks_absent in Hrun by done. injection Hrun as <-.
      exists w. rewrite updateNoteLinks_absent by done. rewrite Hcur.
      split_and!; try done. by rewrite app_nil_r. }
  destruct (updateNoteLinks_summary _ _ _ _ _ _ Hcur Hrun) as (Hn & _ & Hph & _).
  set (titles := parseWikiLinks content) in *.
  set (new := matching_ids w content) in *.
  set (old := Note.linkedNoteIds cur) in *.
  assert (∀ k, option_Forall2
            (λ n n', Note.id n' = Note.id n ∧ Note.title n' = Note.title n ∧
                     Note.linkedNoteIds n'
                       = (if decide (k = noteId) then new else Note.linkedNoteIds n))
            (notes w !! k) (notes w1 !! k)) as Hrows.
  { intros k. rewrite Hn.
    destruct (commit_lookup noteId new (addedLinks new old) (removedLinks new old)
                (notes w) k) as [n n' (? & ? & ? & _)|]; by constructor. }
  assert (∃ cur1, notes w1 !! noteId = Some cur1 ∧ Note.linkedNoteIds cur1 = new)
    as (cur1 & Hcur1 & Hl1).
  { specialize (Hrows noteId). rewrite Hcur in Hrows.
    inversion Hrows as [? cur1 (_ & _ & Hl)|]; subst.
    exists cur1. split; [done|]. by rewrite decide_True in Hl. }
  assert (matching_ids w1 content = new) as Hnew.
  { unfold new, matching_ids. apply same_candidates. intros k.
    destruct (Hrows k) as [n n' (? & ? & _)|]; by constructor. }
  assert (unresolvedTitles titles
            (Table.filter_toArray (λ note, includes titles (Note.title note)) (notes w1))
          = unresolvedTitles titles
              (Table.filter_toArray (λ note, includes titles (Note.title note)) (notes w)))
    as Hun.
  { apply unresolvedTitles_ext, same_candidates. intros k.
    destruct (Hrows k) as [n n' (? & ? & _)|]; by constructor. }
  assert (relinked noteId new w1
          = mkWorld (notes w1) (links w1) (draws w1)
              (journal w1 ++ [notes_update_req noteId])) as Hre.
  { unfold relinked, log. simpl. f_equal.
    apply map_eq. intros k. rewrite lookup_alter. case_decide; [subst k|done].
    rewrite Hcur1. simpl. by rewrite <- Hl1, set_linkedNoteIds_same. }
  exists (relinked noteId new w1). rewrite Hre at 2 3 4 5. simpl.
  rewrite Hcur1. split_and!; try done.
  - unfold updateNoteLinks, bind, notes_get, notes_filter. simpl. rewrite Hcur1.
    fold titles. change (map Note.id (Table.filter_toArray
      (λ note, includes titles (Note.title note)) (notes w1)))
      with (matching_ids w1 content).
    rewrite Hnew, Hl1, addedLinks_same, removedLinks_same. simpl.
    change (notes_update noteId (Note.set_linkedNoteIds new) w1)
      with (Some tt, relinked noteId new w1).
    simpl. apply forEach_skip. intros t Ht.
    apply addUnresolved_skip. rewrite Hun in Ht.
    destruct (Hph t Ht) as (k & r & Hk & Hr). by exists k, r.
  - intros ? [= <-]. rewrite Hnew, Hl1, addedLinks_same, removedLinks_same.
    split_and!; [done|done|]. intros t Ht. apply Hph. by rewrite <- Hun.
Qed.

Lemma updateNoteLinks_twice_witness :
  ∃ w2, updateNoteLinks Demo.host "b" "see [[B]]" Demo.w4 = (Some tt, w2) ∧
        notes w2 = notes Demo.w4 ∧ links w2 = links Demo.w4 ∧
        draws w2 = draws Demo.w4.
Proof.
  destruct (updateNoteLinks_twice Demo.host "b" "see [[B]]" Demo.w3 Demo.w4)
    as (w2 & Hrun & Hn & Hl & Hd & _).
  - vm_compute. reflexivity.
  - exists w2. split_and!; assumption.
Defined.

(** C3 as stated fails on the writes: the second of two commits of the
    same text fulfils and issues a write request, the update of the
    source's row. *)
Lemma second_commit_writes :
  updateNoteLinks Demo.host "b" "see [[B]]" Demo.w3 = (Some tt, Demo.w4) ∧
  updateNoteLinks Demo.host "b" "see [[B]]" Demo.w4 = (Some tt, Demo.w5) ∧
  journal Demo.w5 = journal Demo.w4 ++ [notes_update_req "b"] ∧
  journal Demo.w5 ≠ journal Demo.w4.
Proof.
  split_and!; [vm_compute; reflexivity..|].
  intros H. apply (f_equal length) in H. vm_compute in H. discriminate.
Qed.

(** ** When a commit fulfils *)

Lemma forEach_fulfils_inv {A} (I : World → Prop) (l : list A)
    (body : A → Async unit) w :
  (∀ x w1, I w1 → ∃ w2, body x w1 = (Some tt, w2) ∧ I w2) →
  I w → ∃ w', forEach l body w = (Some tt, w') ∧ I w'.
Proof.
  intros Hbody. revert w. induction l as [|x l IH]; intros w Hw; simpl.
  - by exists w.
  - destruct (Hbody x w Hw) as (w1 & Hx & Hw1).
    unfold bind. rewrite Hx. by apply IH.
Qed.

(** Drawing an identifier and adding a row under it keeps the supply
    fresh. *)
Lemma fresh_ids_insert host w (row : Link.t) ns js :
  fresh_ids host w →
  fresh_ids host (mkWorld ns (<[uuid_at host (draws w) := row]> (links w))
                    (S (S (draws w))) js).
Proof.
  intros [Hunused Hinj]. split; simpl.
  - intros i Hi. rewrite lookup_insert_ne; [apply Hunused; lia|].
    intros E. apply Hinj in E; lia.
  - intros i j Hi Hj. apply Hinj; lia.
Qed.

(** A commit fulfils whenever the host hands out fresh identifiers. *)
Lemma updateNoteLinks_fulfils host noteId content w :
  fresh_ids host w →
  ∃ w', updateNoteLinks host noteId content w = (Some tt, w') ∧ fresh_ids host w'.
Proof.
  intros Hw. destruct (notes w !! noteId) as [cur|] eqn:Hcur.
  2:{ exists w. by rewrite updateNoteLinks_absent. }
  unfold updateNoteLinks, bind at 1, notes_get. simpl. rewrite Hcur.
  unfold bind at 1, notes_filter. simpl.
  unfold bind at 1, notes_update. simpl.
  unfold bind at 1.
  match goal with |- context [forEach ?l (addBacklink _ _) ?w0] =>
    destruct (forEach_fulfils_inv (fresh_ids host) l (addBacklink host noteId) w0)
      as (w2 & H2 & Hw2)
  end.
  { intros x w1 Hw1. rewrite addBacklink_run.
    destruct (notes w1 !! x); [|by exists w1]. simpl.
    rewrite (proj1 Hw1 (draws w1)) by lia.
    eexists. split; [done|]. by apply fresh_ids_insert. }
  { done. }
  rewrite H2. unfold bind at 1.
  match goal with |- context [forEach ?l (removeBacklink _) ?w0] =>
    destruct (forEach_fulfils_inv (fresh_ids host) l (removeBacklink noteId) w0)
      as (w3 & H3 & Hw3)
  end.
  { intros x w1 [Hunused Hinj]. rewrite removeBacklink_run.
    destruct (notes w1 !! x); [|by exists w1].
    eexists. split; [done|]. split; simpl; [|done].
    intros i Hi. apply TableFacts.lookup_delete_where_None.
    intros v Hv. rewrite Hunused in Hv by done. done. }
  { done. }
  rewrite H3.
  apply forEach_fulfils_inv; [|done].
  intros t w1 Hw1. rewrite addUnresolved_run.
  destruct (Table.first _ _); [by exists w1|]. simpl.
  rewrite (proj1 Hw1 (draws w1)) by lia.
  eexists. split; [done|]. by apply fresh_ids_insert.
Qed.

(** With fresh identifiers the commit fulfils, so it keeps the symmetry
    of the two views outright. *)
Corollary updateNoteLinks_symmetric_fresh host noteId content w :
  symmetric w → fresh_ids host w →
  ∃ w', updateNoteLinks host noteId content w = (Some tt, w') ∧ symmetric w'.
Proof.
  intros Hsym Hfresh.
  destruct (updateNoteLinks_fulfils host noteId content w Hfresh) as (w' & Hrun & _).
  exists w'. split; [done|]. by eapply updateNoteLinks_symmetric.
Qed.

(** * Further properties *)

(** ** White space and trimming *)

Module TrimFacts.
Import JsString JsStringFacts.

Lemma trimStart_fixed s :
  (∀ c, head s = Some c → isWhiteSpace c = false) → trimStart s = s.
Proof.
  destruct s as [|c s]; [done|]. intros H. simpl. by rewrite (H c eq_refl).
Qed.

Lemma trimEnd_fixed s :
  (∀ c, last s = Some c → isWhiteSpace c = false) → trimEnd s = s.
Proof.
  induction s as [|c s IH]; [done|]. intros H. simpl.
  destruct s as [|d s].
  - simpl. by rewrite (H c eq_refl).
  - rewrite IH by (intros e He; by apply H). done.
Qed.

Lemma trim_fixed s : trimmed s → trim s = s.
Proof.
  intros [Hh Hl]. unfold trim. rewrite trimStart_fixed by done.
  by apply trimEnd_fixed.
Qed.

Lemma trim_idemp s : trim (trim s) = trim s.
Proof. apply trim_fixed, trim_trimmed. Qed.

Lemma trimStart_blank s : blank s = true → trimStart s = "".
Proof.
  induction s as [|c s IH]; [done|]. simpl.
  intros [Hc Hs]%andb_true_iff. rewrite Hc. by apply IH.
Qed.

Lemma trim_blank s : trim s = "" ↔ blank s = true.
Proof.
  split.
  - intros H. destruct (trim_split s) as (pre & post & E & Hpre & Hpost).
    rewrite H, append_nil in E. by rewrite E, blank_app, Hpre, Hpost.
  - intros H. unfold trim. by rewrite trimStart_blank.
Qed.

End TrimFacts.

(** ** The plain text and the generated title ([src/lib/db/schema.ts]) *)

(** X1. [extractPlainText] normalises: applying it twice is applying it
    once, its result has no white space at either end, it is the content
    with white space taken off both ends and nothing else, and it is empty
    exactly for a content made of white space only. *)
Theorem extractPlainText_normal (content : string) :
  extractPlainText (extractPlainText content) = extractPlainText content ∧
  JsString.trimmed (extractPlainText content) ∧
  (∃ pre post, content = pre +:+ extractPlainText content +:+ post ∧
               JsString.blank pre = true ∧ JsString.blank post = true) ∧
  (extractPlainText content = "" ↔ JsString.blank content = true).
Proof.
  unfold extractPlainText. split_and!.
  - apply TrimFacts.trim_idemp.
  - apply JsStringFacts.trim_trimmed.
  - apply JsStringFacts.trim_split.
  - apply TrimFacts.trim_blank.
Qed.

Module TitleFacts.
Import JsString JsStringFacts.

Lemma occurs_split_first c s : occurs c (split_first c s) = false.
Proof.
  induction s as [|d s IH]; [done|]. simpl.
  destruct (Ascii.eqb d c) eqn:E; [done|].
  rewrite occurs_cons, IH, Ascii.eqb_sym, E. done.
Qed.

Lemma occurs_trim c s : occurs c s = false → occurs c (trim s) = false.
Proof.
  destruct (trim_split s) as (pre & post & E & _). intros H.
  rewrite E, !occurs_app in H.
  apply orb_false_elim in H as [_ H]. by apply orb_false_elim in H as [H _].
Qed.

Lemma length_substring n s :
  String.length (String.substring 0 n s) = n `min` String.length s.
Proof.
  revert s. induction n as [|n IH]; intros [|c s]; simpl; try done.
  by rewrite IH.
Qed.

Lemma occurs_substring c n s :
  occurs c s = false → occurs c (String.substring 0 n s) = false.
Proof.
  revert s. induction n as [|n IH]; intros [|d s]; simpl; try done.
  intros [H1 H2]%orb_false_elim. by rewrite H1, IH.
Qed.

Lemma head_substring n s : head (String.substring 0 (S n) s) = head s.
Proof. by destruct s. Qed.

Lemma head_app s t : s ≠ "" → head (s +:+ t) = head s.
Proof. by destruct s. Qed.

Lemma last_app s t : t ≠ "" → last (s +:+ t) = last t.
Proof.
  intros Ht. induction s as [|c s IH]; [done|].
  rewrite append_cons. simpl. rewrite IH.
  destruct (s +:+ t) eqn:E; [|done].
  destruct s, t; done.
Qed.

Lemma endsWith_app s t : endsWith (s +:+ t) t = true.
Proof.
  induction s as [|c s IH].
  - rewrite append_nil. destruct t; simpl; by rewrite ?String.eqb_refl, ?Ascii.eqb_refl.
  - rewrite append_cons. simpl. rewrite IH. by rewrite orb_true_r.
Qed.

Lemma generated_first_line content :
  let firstLine := trim (split_first "010" content) in
  occurs "010" firstLine = false ∧ trimmed firstLine.
Proof.
  split; [|apply trim_trimmed]. apply occurs_trim, occurs_split_first.
Qed.

(** The three outcomes of [generateTitleFromContent]. *)
Lemma generateTitle_cases (content : string) (P : string → Prop) :
  P "Untitled Note" →
  (∀ firstLine, firstLine = trim (split_first "010" content) →
     0 < String.length firstLine → String.length firstLine ≤ 100 → P firstLine) →
  (∀ firstLine, firstLine = trim (split_first "010" content) →
     100 < String.length firstLine →
     P (String.substring 0 100 firstLine +:+ "...")) →
  P (generateTitleFromContent content).
Proof.
  intros H0 H1 H2. unfold generateTitleFromContent.
  destruct (_ || _); [done|].
  set (firstLine := trim _).
  case_bool_decide as Hpos; [|done].
  case_bool_decide as Hlong; [by apply H2|].
  apply H1; [done|done|lia].
Qed.

Lemma generateTitle_nonempty content : generateTitleFromContent content ≠ "".
Proof.
  apply generateTitle_cases; [done| |].
  - intros f _ Hlen _ ->. simpl in Hlen. lia.
  - intros f _ Hlen E. apply (f_equal String.length) in E.
    rewrite length_append in E.
    change (String.length "...") with 3 in E.
    change (String.length "") with 0 in E. lia.
Qed.

End TitleFacts.

(** X2. The title generated from a content is never empty, holds no
    line feed, has no white space at either end and is at most 103 units
    long; a title of more than 100 units ends with "...", and a content
    made of white space only gives "Untitled Note". *)
Theorem generateTitleFromContent_shape (content : string) :
  let title := generateTitleFromContent content in
  title ≠ "" ∧
  String.length title ≤ 103 ∧
  JsString.occurs "010" title = false ∧
  JsString.trimmed title ∧
  (100 < String.length title → JsString.endsWith title "..." = true) ∧
  (JsString.blank content = true → title = "Untitled Note").
Proof.
  pose proof (TitleFacts.generateTitle_cases content) as Hcases.
  destruct (TitleFacts.generated_first_line content) as [Hnl Htr].
  simpl. split_and!.
  - apply TitleFacts.generateTitle_nonempty.
  - apply Hcases; [simpl; lia| |].
    + intros f _ _ Hlen. lia.
    + intros f _ Hlen. rewrite JsStringFacts.length_append,
        TitleFacts.length_substring.
      change (String.length "...") with 3. lia.
  - apply Hcases; [done| |].
    + by intros f -> _ _.
    + intros f -> _. rewrite JsStringFacts.occurs_app.
      by rewrite TitleFacts.occurs_substring.
  - apply Hcases.
    + split; intros c [= <-]; reflexivity.
    + by intros f -> _ _.
    + intros f -> Hlen. destruct Htr as [Hh Hl]. split.
      * intros c. rewrite TitleFacts.head_app.
        -- rewrite TitleFacts.head_substring. apply Hh.
        -- intros E. apply (f_equal String.length) in E.
           rewrite TitleFacts.length_substring in E.
           change (String.length "") with 0 in E. lia.
      * intros c. rewrite TitleFacts.last_app by done. by intros [= <-].
  - apply Hcases.
    + simpl. lia.
    + intros f _ _ Hlen. lia.
    + intros f _ _ _. apply TitleFacts.endsWith_app.
  - intros Hblank. unfold generateTitleFromContent.
    apply TrimFacts.trim_blank in Hblank. rewrite Hblank.
    by rewrite orb_true_r.
Qed.

(** ** Markers, parser and editor *)

(** X3. [hasWikiLinks], which tries the regex without the [g] flag at
    each position until an attempt succeeds, is true exactly when a
    well-formed marker stands somewhere in the text, which is exactly when
    [parseWikiLinks] returns a title; it is false for every text without
    closing bracket. *)
Theorem hasWikiLinks_parse (content : string) :
  (hasWikiLinks content = true ↔ ∃ pre g rest, marker_in content pre g rest) ∧
  (hasWikiLinks content = true ↔ parseWikiLinks content ≠ []) ∧
  (JsString.occurs "]" content = false → hasWikiLinks content = false).
Proof.
  split_and!.
  - apply ReferenceFacts.test_spec.
  - split.
    + intros Ht Hnil. apply ReferenceFacts.test_spec in Ht as (pre & g & rest & Hm).
      by apply (proj1 (parseWikiLinks_nil content) Hnil pre g rest).
    + intros Hne. destruct (hasWikiLinks content) eqn:E; [done|].
      by apply hasWikiLinks_false in E.
  - intros Hocc. destruct (hasWikiLinks content) eqn:E; [|done].
    apply ReferenceFacts.test_spec in E as (pre & g & rest & (-> & _ & _)).
    rewrite !JsStringFacts.occurs_app in Hocc. simpl in Hocc.
    by rewrite !orb_true_r in Hocc.
Qed.

Module EditorFacts.
Import JsString JsStringFacts Regex RegexFacts Editor.

(** No match starts inside a text free of opening brackets. *)
Lemma matchAll_skip s rest :
  occurs "[" s = false → matchAll (s +:+ rest) = matchAll rest.
Proof.
  induction s as [|c s IH]; [done|].
  rewrite occurs_cons. intros [Hc Hs]%orb_false_elim.
  rewrite append_cons, matchAll_unfold, (exec_at_other _ _ Hc). by apply IH.
Qed.

Lemma matchAll_getTextContent nodes :
  Forall readable nodes →
  matchAll (getTextContent nodes) = link_titles nodes.
Proof.
  induction 1 as [|p nodes Hp _ IH]; [done|].
  destruct p as [text|noteTitle]; simpl in *.
  - by rewrite matchAll_skip.
  - destruct Hp as [Hne Hocc].
    pose proof (matchAll_marker "" noteTitle (getTextContent nodes)
                  eq_refl Hne Hocc) as E.
    rewrite append_nil in E. rewrite !append_assoc, E. by rewrite IH.
Qed.

End EditorFacts.

(** X4. The parser reads the editor's content back: for nodes whose
    text nodes hold no opening bracket and whose link titles are not
    empty and hold no closing bracket, the titles parsed from the text
    content of the nodes are the trimmed titles of the wiki-link nodes,
    each at its first occurrence. *)
Theorem parseWikiLinks_getTextContent (nodes : list Editor.piece) :
  Forall readable nodes →
  parseWikiLinks (Editor.getTextContent nodes)
  = first_occurrences (JsString.trim <$> Editor.link_titles nodes).
Proof.
  intros H. unfold parseWikiLinks.
  by rewrite EditorFacts.matchAll_getTextContent, of_list_first_occurrences.
Qed.

Lemma parseWikiLinks_getTextContent_witness :
  parseWikiLinks
    (Editor.getTextContent
       [Editor.text_node "see "; Editor.wiki_link_node " Note A";
        Editor.wiki_link_node "B"; Editor.text_node "]] and ";
        Editor.wiki_link_node "Note A"])
  = first_occurrences
      (JsString.trim <$>
         Editor.link_titles
           [Editor.text_node "see "; Editor.wiki_link_node " Note A";
            Editor.wiki_link_node "B"; Editor.text_node "]] and ";
            Editor.wiki_link_node "Note A"]).
Proof.
  apply (parseWikiLinks_getTextContent
           [Editor.text_node "see "; Editor.wiki_link_node " Note A";
            Editor.wiki_link_node "B"; Editor.text_node "]] and ";
            Editor.wiki_link_node "Note A"]).
  repeat constructor; done.
Defined.

(** ** What a created note holds *)

Lemma spread_fields p n :
  Note.id (Note.spread p n) = Note.id n ∧
  Note.title (Note.spread p n) = default (Note.title n) (Note.title_opt p) ∧
  Note.content (Note.spread p n) = default (Note.content n) (Note.content_opt p) ∧
  Note.contentText (Note.spread p n)
    = default (Note.contentText n) (Note.contentText_opt p) ∧
  Note.tags (Note.spread p n) = default (Note.tags n) (Note.tags_opt p) ∧
  Note.createdAt (Note.spread p n) = Note.createdAt n ∧
  Note.updatedAt (Note.spread p n) = default (Note.updatedAt n) (Note.updatedAt_opt p) ∧
  Note.linkedNoteIds (Note.spread p n)
    = default (Note.linkedNoteIds n) (Note.linkedNoteIds_opt p) ∧
  Note.backlinkNoteIds (Note.spread p n)
    = default (Note.backlinkNoteIds n) (Note.backlinkNoteIds_opt p).
Proof.
  destruct p as [[] [] [] [] [] [] []]; repeat split.
Qed.

Lemma newNote_fields data id now :
  let content := default "" (Note.content_opt data) in
  Note.id (newNote data id now) = id ∧
  Note.createdAt (newNote data id now) = now ∧
  Note.updatedAt (newNote data id now) = now ∧
  Note.content (newNote data id now) = content ∧
  Note.contentText (newNote data id now) = extractPlainText content ∧
  Note.title (newNote data id now)
    = (if truthy (Note.title_opt data) then default "" (Note.title_opt data)
       else if truthy (Some content) then generateTitleFromContent content
       else default "Untitled Note" (Note.title_opt data)).
Proof.
  intros content. unfold newNote.
  destruct (spread_fields data (createEmptyNote id now now))
    as (Hi & Ht & Hc & _ & _ & Hca & _ & _ & _).
  destruct (Note.spread data (createEmptyNote id now now)) as [i t c ct tg ca ua l b].
  cbn in Hi, Ht, Hc, Hca. fold content in Hc. subst i t c ca.
  cbn -[generateTitleFromContent extractPlainText truthy].
  destruct (truthy (Note.title_opt data)) eqn:Et;
    [|destruct (truthy (Some content))];
    cbn -[generateTitleFromContent extractPlainText truthy];
    split_and!; try reflexivity.
  by destruct (Note.title_opt data).
Qed.

(** X8. A creation that fulfils returns the note it stored: it sits
    under the identifier drawn from the host, with both time stamps set to
    the time drawn, the caller's content (empty by default) and its plain
    text; its title is the caller's when that is not empty, else the title
    generated from the content when the content is not empty, else what
    the caller gave ("Untitled Note" when nothing was given); so the title
    is empty only when the caller passes an empty title with an empty
    content. *)
Theorem createNote_note (host : Host) (data : Note.partial) (w w' : World)
    (note : Note.t) :
  createNote host data w = (Some note, w') →
  let content := default "" (Note.content_opt data) in
  getNote (Note.id note) w' = (Some (Some note), w') ∧
  Note.id note = uuid_at host (S (draws w)) ∧
  Note.createdAt note = time_at host (draws w) ∧
  Note.updatedAt note = time_at host (draws w) ∧
  Note.content note = content ∧
  Note.contentText note = extractPlainText content ∧
  Note.title note
    = (if truthy (Note.title_opt data) then default "" (Note.title_opt data)
       else if truthy (Some content) then generateTitleFromContent content
       else default "Untitled Note" (Note.title_opt data)) ∧
  (Note.title note = "" ↔ Note.title_opt data = Some "" ∧ content = "").
Proof.
  rewrite createNote_run.
  destruct (notes w !! uuid_at host (S (draws w))) eqn:Hfree; [done|].
  intros [= <- <-]. intros content.
  set (id := uuid_at host (S (draws w))). set (now := time_at host (draws w)).
  destruct (newNote_fields data id now) as (Hid & Hc & Hu & Hcontent & Htext & Htitle).
  fold content in Hcontent, Htext, Htitle.
  split_and!; try assumption.
  - unfold getNote, notes_get. rewrite Hid. cbn [log notes].
    by rewrite lookup_insert_eq.
  - rewrite Htitle. clear. unfold truthy.
    destruct (Note.title_opt data) as [t|]; cbn [default negb].
    + destruct (String.eqb t "") eqn:Et; cbn [negb].
      * apply String.eqb_eq in Et as ->.
        destruct (String.eqb content "") eqn:Ec; cbn [negb].
        -- apply String.eqb_eq in Ec. rewrite Ec. tauto.
        -- apply String.eqb_neq in Ec. split.
           ++ intros E. by apply TitleFacts.generateTitle_nonempty in E.
           ++ by intros [_ ?].
      * apply String.eqb_neq in Et. split; [done|]. by intros [[= ->] _].
    + destruct (String.eqb content "") eqn:Ec; cbn [negb].
      * split; [intros [=]|]. by intros [? _].
      * split; [|by intros [? _]].
        intros E. by apply TitleFacts.generateTitle_nonempty in E.
Qed.

Lemma createNote_note_witness :
  let data := Note.mkPartial None (Some "  First note ") None None None None None in
  let note := Note.mk "b" "First note" "  First note " "First note" [] 1000 1000 [] [] in
  getNote (Note.id note) (after (createNote Demo.host data) Demo.w0)
    = (Some (Some note), after (createNote Demo.host data) Demo.w0) ∧
  Note.title note = "First note".
Proof.
  intros data note.
  destruct (createNote_note Demo.host data Demo.w0
              (after (createNote Demo.host data) Demo.w0) note) as (H & _).
  - vm_compute. reflexivity.
  - split; [exact H|reflexivity].
Defined.

(** ** Saving a content *)

(** X9. Updating an identifier under which there is no note fulfils and
    writes nothing into the tables: no row is created and none is
    changed. *)
Theorem updateNote_unknown_note (host : Host) (id : string) (updates : Note.partial)
    (w : World) :
  notes w !! id = None →
  ∃ w', updateNote host id updates w = (Some tt, w') ∧
        notes w' = notes w ∧ links w' = links w.
Proof.
  intros Hid. destruct (updateNote_run host id updates w) as (fu & Hrun & _).
  eexists. split; [done|]. simpl. split; [|done]. by apply alter_absent.
Qed.

Lemma updateNote_unknown_note_witness :
  ∃ w', updateNote Demo.host "zz" (renaming "T") Demo.w3 = (Some tt, w') ∧
        notes w' = notes Demo.w3 ∧ links w' = links Demo.w3.
Proof.
  apply (updateNote_unknown_note Demo.host "zz" (renaming "T") Demo.w3).
  vm_compute. reflexivity.
Defined.

(** The updates of a save: [{ content }]. *)
Lemma updateNote_content_run host id content w n :
  notes w !! id = Some n →
  updateNote host id (Note.mkPartial None (Some content) None None None None None) w
  = (Some tt,
     log (notes_update_req id)
       (mkWorld
          (<[id := Note.mk (Note.id n)
                    (if String.eqb (Note.title n) "Untitled Note"
                        || JsString.endsWith (Note.title n) "..."
                     then generateTitleFromContent content else Note.title n)
                    content (extractPlainText content) (Note.tags n)
                    (Note.createdAt n) (time_at host (draws w))
                    (Note.linkedNoteIds n) (Note.backlinkNoteIds n)]> (notes w))
          (links w) (S (draws w)) (journal w))).
Proof.
  intros Hn. unfold updateNote, bind, Date_now, getNote, notes_get, notes_update.
  simpl. rewrite Hn. simpl.
  destruct (_ || _); simpl; f_equal; f_equal; f_equal; apply map_eq; intros k;
    (destruct (decide (id = k)) as [->|Hne];
     [rewrite lookup_alter_eq, lookup_insert_eq, Hn; by destruct n
     |by rewrite lookup_alter_ne, lookup_insert_ne]).
Qed.

(** X10. Saving a content into an existing note fulfils and rewrites
    that row only: the content, its plain text and the time of the save
    are stored; the title is generated anew from the content when the old
    title is "Untitled Note" or ends with "...", and is kept otherwise;
    identifier, creation time, tags and both adjacency lists stay, and so
    do all other notes and all Link rows. *)
Theorem updateNote_content (host : Host) (id content : string) (w : World) (n : Note.t) :
  notes w !! id = Some n →
  ∃ w',
    updateNote host id (Note.mkPartial None (Some content) None None None None None) w
      = (Some tt, w') ∧
    notes w' !! id
      = Some (Note.mk (Note.id n)
                (if String.eqb (Note.title n) "Untitled Note"
                    || JsString.endsWith (Note.title n) "..."
                 then generateTitleFromContent content else Note.title n)
                content (extractPlainText content) (Note.tags n)
                (Note.createdAt n) (time_at host (draws w))
                (Note.linkedNoteIds n) (Note.backlinkNoteIds n)) ∧
    (∀ k, k ≠ id → notes w' !! k = notes w !! k) ∧
    links w' = links w.
Proof.
  intros Hn. eexists. split; [by apply updateNote_content_run|]. simpl.
  split_and!; [by rewrite lookup_insert_eq| |done].
  intros k Hk. by rewrite lookup_insert_ne.
Qed.

Lemma updateNote_content_witness :
  ∃ w',
    updateNote Demo.host "f"
      (Note.mkPartial None (Some "Plans for [[A]]") None None None None None) Demo.r1
      = (Some tt, w') ∧
    notes w' !! "f"
      = Some (Note.mk "f" "X" "Plans for [[A]]" "Plans for [[A]]" [] 1004 1006 [] []) ∧
    links w' = links Demo.r1.
Proof.
  destruct (updateNote_content Demo.host "f" "Plans for [[A]]" Demo.r1
              (Note.mk "f" "X" "" "" [] 1004 1004 [] []))
    as (w' & Hrun & Hrow & _ & Hlinks).
  - vm_compute. reflexivity.
  - exists w'. split_and!; [exact Hrun|exact Hrow|exact Hlinks].
Defined.

Lemma updateNote_final host id updates w :
  ∃ finalUpdates,
    updateNote host id updates w =
    (Some tt,
     log (notes_update_req id)
       (mkWorld (alter (Note.spread finalUpdates) id (notes w)) (links w)
          (S (draws w)) (journal w))) ∧
    Note.updatedAt_opt finalUpdates = Some (time_at host (draws w)) ∧
    Note.contentText_opt finalUpdates
      = match Note.content_opt updates with
        | Some content => Some (extractPlainText content)
        | None => Note.contentText_opt updates
        end ∧
    Note.linkedNoteIds_opt finalUpdates = Note.linkedNoteIds_opt updates ∧
    Note.backlinkNoteIds_opt finalUpdates = Note.backlinkNoteIds_opt updates.
Proof.
  unfold updateNote, bind, Date_now, getNote, notes_get, notes_update. simpl.
  destruct (Note.content_opt updates) as [content|] eqn:Hc; simpl.
  - destruct (negb (truthy (Note.title_opt updates))); simpl.
    + destruct (notes w !! id) as [existingNote|]; simpl.
      * destruct (_ || _); simpl; eexists; split; done.
      * eexists; split; done.
    + eexists; split; done.
  - eexists. split; done.
Qed.

(** X11. Whatever the updates, [updateNote] fulfils, keeps the
    identifier and the creation time of the note, stamps it with the time
    of the call (an [updatedAt] among the updates is overridden), and,
    when a content is given, stores the plain text of that content (a
    [contentText] among the updates is overridden); the adjacency lists
    change only when the updates carry them, and the Link rows never. *)
Theorem updateNote_stamps (host : Host) (id : string) (updates : Note.partial)
    (w : World) (n : Note.t) :
  notes w !! id = Some n →
  ∃ w' n',
    updateNote host id updates w = (Some tt, w') ∧
    notes w' !! id = Some n' ∧
    Note.id n' = Note.id n ∧
    Note.createdAt n' = Note.createdAt n ∧
    Note.updatedAt n' = time_at host (draws w) ∧
    (∀ content, Note.content_opt updates = Some content →
                Note.contentText n' = extractPlainText content) ∧
    Note.linkedNoteIds n'
      = default (Note.linkedNoteIds n) (Note.linkedNoteIds_opt updates) ∧
    Note.backlinkNoteIds n'
      = default (Note.backlinkNoteIds n) (Note.backlinkNoteIds_opt updates) ∧
    (∀ k, k ≠ id → notes w' !! k = notes w !! k) ∧
    links w' = links w.
Proof.
  intros Hn.
  destruct (updateNote_final host id updates w) as (fu & Hrun & Hu & Ht & Hl & Hb).
  destruct (spread_fields fu n) as (Hi' & _ & _ & Ht' & _ & Hc' & Hu' & Hl' & Hb').
  eexists _, (Note.spread fu n). split; [exact Hrun|]. cbn [log notes links].
  split_and!.
  - by rewrite lookup_alter_eq, Hn.
  - exact Hi'.
  - exact Hc'.
  - by rewrite Hu', Hu.
  - intros content Hcontent. by rewrite Ht', Ht, Hcontent.
  - by rewrite Hl', Hl.
  - by rewrite Hb', Hb.
  - intros k Hk. by rewrite lookup_alter_ne.
  - reflexivity.
Qed.

Lemma updateNote_stamps_witness :
  ∃ w' n',
    updateNote Demo.host "b"
      (Note.mkPartial (Some "T") (Some " x ") (Some "ignored") None (Some 5%Z) None None)
      Demo.w4 = (Some tt, w') ∧
    notes w' !! "b" = Some n' ∧
    Note.updatedAt n' = 1008%Z ∧ Note.linkedNoteIds n' = ["f"].
Proof.
  destruct (updateNote_stamps Demo.host "b"
              (Note.mkPartial (Some "T") (Some " x ") (Some "ignored") None
                 (Some 5%Z) None None)
              Demo.w4 (Note.mk "b" "A" "" "" [] 1000 1000 ["f"] []))
    as (w' & n' & Hrun & Hrow & _ & _ & Hu & _ & Hl & _).
  - vm_compute. reflexivity.
  - exists w', n'. split_and!; [exact Hrun|exact Hrow|exact Hu|exact Hl].
Defined.

(** ** The queries *)

Module IndexFacts.

Section facts.
Context {V : Type} (f : V → Z).

Lemma le_trans : Transitive (Index.le f).
Proof.
  intros a b c [Hab|[Hab Hk]] [Hbc|[Hbc Hk']]; unfold Index.le;
    [left; lia|left; lia|left; lia|right].
  split; [lia|]. by etrans.
Qed.

Lemma le_total : Total (Index.le f).
Proof.
  intros a b. unfold Index.le.
  destruct (Z.lt_trichotomy (f a.2) (f b.2)) as [?|[?|?]]; [tauto| |tauto].
  destruct (total String.le a.1 b.1); [left|right]; right; split; done.
Qed.

Lemma orderBy_Permutation (m : gmap string V) :
  Index.orderBy f m ≡ₚ (map_to_list m).*2.
Proof. unfold Index.orderBy. by rewrite merge_sort_Permutation. Qed.

Lemma elem_of_orderBy (m : gmap string V) v :
  v ∈ Index.orderBy f m ↔ ∃ k, m !! k = Some v.
Proof.
  rewrite orderBy_Permutation, list_elem_of_fmap. split.
  - intros ([k v'] & -> & Hin). exists k. by apply elem_of_map_to_list.
  - intros (k & Hk). exists (k, v). split; [done|]. by apply elem_of_map_to_list.
Qed.

Lemma orderBy_sorted (m : gmap string V) :
  StronglySorted (λ a b, (f a ≤ f b)%Z) (Index.orderBy f m).
Proof.
  unfold Index.orderBy.
  apply (StronglySorted_fmap snd (Index.le f) (λ a b, (f a ≤ f b)%Z)).
  - intros a b [?|[? _]]; lia.
  - apply (@StronglySorted_merge_sort _ (Index.le f) _ le_trans le_total).
Qed.

Lemma length_orderBy (m : gmap string V) : length (Index.orderBy f m) = size m.
Proof. by rewrite orderBy_Permutation, length_fmap, length_map_to_list. Qed.

End facts.

Lemma StronglySorted_reverse {A} (R : relation A) l :
  StronglySorted R l → StronglySorted (flip R) (reverse l).
Proof.
  induction 1 as [|x l Hl IH Hx]; [constructor|].
  rewrite reverse_cons. apply StronglySorted_app. split_and!; [|done|repeat constructor].
  intros a b Ha ->%list_elem_of_singleton. rewrite elem_of_reverse in Ha.
  rewrite Forall_forall in Hx. by apply Hx.
Qed.

Lemma elem_of_anyOf {V} (ks : list string) (m : gmap string V) v :
  v ∈ Index.anyOf ks m ↔ ∃ k, k ∈ ks ∧ m !! k = Some v.
Proof.
  unfold Index.anyOf. rewrite list_elem_of_omap. split.
  - intros (k & _ & Hk). exists k. by case_bool_decide.
  - intros (k & Hin & Hk). exists k. split; [apply TableFacts.elem_of_keys; eauto|].
    by rewrite bool_decide_eq_true_2.
Qed.

Lemma NoDup_keys {V} (m : gmap string V) : NoDup (Table.keys m).
Proof. unfold Table.keys. rewrite merge_sort_Permutation. apply NoDup_elements. Qed.

Lemma NoDup_omap {A B} (g : A → option B) l :
  (∀ x y z, x ∈ l → y ∈ l → g x = Some z → g y = Some z → x = y) →
  NoDup l → NoDup (omap g l).
Proof.
  intros Hinj. induction 1 as [|x l Hx Hl IH]; [constructor|].
  simpl. destruct (g x) as [z|] eqn:Hz.
  - constructor.
    + rewrite list_elem_of_omap. intros (y & Hy & Hgy).
      assert (x = y) as <- by (eapply Hinj; [left|by right|done..]). done.
    + apply IH. intros a b c Ha Hb. apply Hinj; by right.
  - apply IH. intros a b c Ha Hb. apply Hinj; by right.
Qed.

End IndexFacts.

(** X12. [getAllNotes] writes nothing and returns every stored note
    exactly once (a permutation of the rows of the table), the most
    recently updated first. *)
Theorem getAllNotes_newest_first (w : World) :
  ∃ l, getAllNotes w = (Some l, w) ∧
       l ≡ₚ (map_to_list (notes w)).*2 ∧
       StronglySorted (λ a b, (Note.updatedAt b ≤ Note.updatedAt a)%Z) l.
Proof.
  eexists. split; [reflexivity|]. split.
  - by rewrite reverse_Permutation, IndexFacts.orderBy_Permutation.
  - apply (IndexFacts.StronglySorted_reverse (λ a b, (Note.updatedAt a ≤ Note.updatedAt b)%Z)).
    apply (IndexFacts.orderBy_sorted Note.updatedAt).
Qed.

Lemma anyOf_backlinks w id n :
  keyed w → symmetric w → notes w !! id = Some n →
  NoDup (Index.anyOf (Note.backlinkNoteIds n) (notes w)) ∧
  ∀ m, m ∈ Index.anyOf (Note.backlinkNoteIds n) (notes w)
       ↔ notes w !! Note.id m = Some m ∧ id ∈ Note.linkedNoteIds m.
Proof.
  intros Hkeyed Hsym Hn. split.
  - apply IndexFacts.NoDup_omap; [|apply IndexFacts.NoDup_keys].
    intros x y z _ _ Hx Hy.
    repeat case_bool_decide; try done.
    apply Hkeyed in Hx, Hy. congruence.
  - intros m. rewrite IndexFacts.elem_of_anyOf. split.
    + intros (k & Hin & Hk). pose proof (Hkeyed _ _ Hk) as <-.
      split; [done|]. by apply (Hsym (Note.id m) id m n).
    + intros [Hm Hin]. exists (Note.id m). split; [|done].
      by apply (Hsym (Note.id m) id m n).
Qed.

(** X13. In a symmetric store whose rows sit under their own ids,
    [getBacklinks id] returns, each once, exactly the stored notes whose
    outgoing list holds [id]; for an [id] without a note it returns the
    empty list. It writes nothing. *)
Theorem getBacklinks_sources (w : World) (id : string) :
  keyed w → symmetric w →
  ∃ l, getBacklinks id w = (Some l, w) ∧
       NoDup l ∧
       (notes w !! id = None → l = []) ∧
       (is_Some (notes w !! id) →
        ∀ m, m ∈ l ↔ notes w !! Note.id m = Some m ∧ id ∈ Note.linkedNoteIds m).
Proof.
  intros Hkeyed Hsym. unfold getBacklinks, bind, getNote, notes_get.
  destruct (notes w !! id) as [n|] eqn:Hn.
  - destruct (anyOf_backlinks w id n Hkeyed Hsym Hn) as [Hnd Hl].
    eexists. split; [reflexivity|]. split_and!; [done|done|]. by intros _.
  - eexists. split; [reflexivity|]. split_and!; [constructor|done|].
    by intros [? [=]].
Qed.

Lemma getBacklinks_sources_witness :
  ∃ l, getBacklinks "f" Demo.w4 = (Some l, Demo.w4) ∧
       (∀ m, m ∈ l ↔ notes Demo.w4 !! Note.id m = Some m ∧ "f" ∈ Note.linkedNoteIds m).
Proof.
  destruct (getBacklinks_sources Demo.w4 "f") as (l & Hrun & _ & _ & Hl).
  - apply keyedb_sound. vm_compute. reflexivity.
  - apply symmetricb_sound. vm_compute. reflexivity.
  - exists l. split; [exact Hrun|]. apply Hl. vm_compute. eexists. reflexivity.
Defined.
Module JsTextFacts.
Import JsText JsString JsStringFacts.

Lemma prefix_spec sub s :
  String.prefix sub s = true ↔ ∃ post, s = sub +:+ post.
Proof.
  revert s. induction sub as [|c sub IH]; intros s.
  - split; [intros _; by exists s|by destruct s].
  - destruct s as [|d s]; simpl.
    + split; [done|]. intros (post & E). rewrite append_cons in E. discriminate.
    + destruct (Ascii.ascii_dec c d) as [<-|Hne].
      * rewrite IH. split; intros (post & E); exists post.
        -- by rewrite append_cons, E.
        -- rewrite append_cons in E. by injection E.
      * split; [done|]. intros (post & E). rewrite append_cons in E.
        injection E as -> _. done.
Qed.

Lemma includes_spec s sub :
  includes s sub = true ↔ ∃ pre post, s = pre +:+ sub +:+ post.
Proof.
  induction s as [|c s IH].
  - cbn [includes]. rewrite orb_false_r, prefix_spec. split.
    + intros (post & E). by exists "", post.
    + intros ([|d pre] & post & E); [by exists post|].
      rewrite append_cons in E. discriminate.
  - cbn [includes]. rewrite orb_true_iff, IH, prefix_spec. split.
    + intros [(post & E)|(pre & post & E)].
      * by exists "", post.
      * exists (String c pre), post. by rewrite append_cons, E.
    + intros ([|d pre] & post & E).
      * left. by exists post.
      * right. rewrite append_cons in E. injection E as -> ->. by exists pre, post.
Qed.

Lemma lower_unit_idemp c : lower_unit (lower_unit c) = lower_unit c.
Proof. by destruct c as [[] [] [] [] [] [] [] []]. Qed.

Lemma lower_unit_space c : isWhiteSpace (lower_unit c) = isWhiteSpace c.
Proof. by destruct c as [[] [] [] [] [] [] [] []]. Qed.

Lemma toLowerCase_idemp s : toLowerCase (toLowerCase s) = toLowerCase s.
Proof.
  induction s as [|c s IH]; [done|]. cbn [toLowerCase].
  by rewrite lower_unit_idemp, IH.
Qed.

Lemma toLowerCase_empty s : toLowerCase s = "" ↔ s = "".
Proof. by destruct s. Qed.

Lemma toLowerCase_app s t : toLowerCase (s +:+ t) = toLowerCase s +:+ toLowerCase t.
Proof.
  induction s as [|c s IH]; [done|].
  rewrite append_cons. cbn [toLowerCase]. by rewrite append_cons, IH.
Qed.

Lemma blank_toLowerCase s : blank (toLowerCase s) = blank s.
Proof.
  induction s as [|c s IH]; [done|]. cbn [toLowerCase blank].
  by rewrite lower_unit_space, IH.
Qed.

Lemma no_query_blank query : no_query query = blank query.
Proof.
  unfold no_query. destruct (String.eqb_spec query "") as [->|Hne]; [done|].
  cbn [orb]. destruct (String.eqb_spec (trim query) "") as [E|E].
  - symmetry. by apply TrimFacts.trim_blank.
  - destruct (blank query) eqn:Hb; [|done].
    by apply TrimFacts.trim_blank in Hb.
Qed.

End JsTextFacts.

(** X14. [searchNotes] writes nothing. A query that is empty or made of
    white space gives what [getAllNotes] gives; any other query gives
    exactly the stored notes whose title or plain text, in lower case,
    holds the query in lower case as a substring. *)
Theorem searchNotes_matches (query : string) (w : World) :
  (JsString.blank query = true → searchNotes query w = getAllNotes w) ∧
  (JsString.blank query = false →
   ∃ l, searchNotes query w = (Some l, w) ∧
     ∀ n, n ∈ l ↔
       (∃ k, notes w !! k = Some n) ∧
       ((∃ pre post, JsText.toLowerCase (Note.title n)
                     = pre +:+ JsText.toLowerCase query +:+ post) ∨
        (∃ pre post, JsText.toLowerCase (Note.contentText n)
                     = pre +:+ JsText.toLowerCase query +:+ post))).
Proof.
  unfold searchNotes. rewrite JsTextFacts.no_query_blank.
  split; intros ->; [done|].
  eexists. split; [reflexivity|]. intros n.
  rewrite TableFacts.elem_of_filter_toArray, orb_true_iff,
    !JsTextFacts.includes_spec. tauto.
Qed.

(** X15. The search does not look at the case of the query: two queries
    with the same lower-case form give the same result in every store. *)
Theorem searchNotes_case_insensitive (query1 query2 : string) (w : World) :
  JsText.toLowerCase query1 = JsText.toLowerCase query2 →
  searchNotes query1 w = searchNotes query2 w.
Proof.
  intros E. unfold searchNotes. rewrite !JsTextFacts.no_query_blank.
  rewrite <- (JsTextFacts.blank_toLowerCase query1),
    <- (JsTextFacts.blank_toLowerCase query2), E.
  by destruct (JsString.blank _).
Qed.

Lemma searchNotes_case_insensitive_witness :
  searchNotes "see B" Demo.w4 = searchNotes "SEE b" Demo.w4.
Proof.
  apply (searchNotes_case_insensitive "see B" "SEE b" Demo.w4).
  vm_compute. reflexivity.
Defined.
Lemma length_toArray {V} (m : gmap string V) : length (Table.toArray m) ≤ size m.
Proof.
  unfold Table.toArray.
  trans (length (Table.keys m)).
  - generalize (Table.keys m). intros l. induction l as [|k l IH]; [done|].
    csimpl. destruct (m !! k); csimpl; lia.
  - unfold Table.keys. by rewrite merge_sort_Permutation, <- size_dom.
Qed.

(** X16. [findLinkableTitles] writes nothing and proposes at most ten
    titles, each the title of a stored note. For a query that is empty or
    white space they are the titles of the notes updated last: no note
    left out is newer than a note proposed. For any other query each
    proposed title holds the query as a substring, case apart. A store of
    at most ten notes has every such title proposed. *)
Theorem findLinkableTitles_proposals (query : string) (w : World) :
  ∃ rows,
    findLinkableTitles query w = (Some (Note.title <$> rows), w) ∧
    length rows ≤ 10 ∧
    (∀ n, n ∈ rows → ∃ k, notes w !! k = Some n) ∧
    (JsString.blank query = true →
     ∀ k n r, notes w !! k = Some n → n ∉ rows → r ∈ rows →
              (Note.updatedAt n ≤ Note.updatedAt r)%Z) ∧
    (JsString.blank query = false →
     ∀ n, n ∈ rows →
          ∃ pre post, JsText.toLowerCase (Note.title n)
                      = pre +:+ JsText.toLowerCase query +:+ post) ∧
    (size (notes w) ≤ 10 →
     ∀ k n, notes w !! k = Some n →
            JsString.blank query = true ∨
            (∃ pre post, JsText.toLowerCase (Note.title n)
                         = pre +:+ JsText.toLowerCase query +:+ post) →
            n ∈ rows).
Proof.
  unfold findLinkableTitles. rewrite JsTextFacts.no_query_blank.
  destruct (JsString.blank query) eqn:Hb.
  - set (L := reverse (Index.orderBy Note.updatedAt (notes w))).
    assert (∀ n, n ∈ L ↔ ∃ k, notes w !! k = Some n) as HL.
    { intros n. unfold L. rewrite elem_of_reverse. apply IndexFacts.elem_of_orderBy. }
    exists (take 10 L). split; [reflexivity|]. split_and!.
    + rewrite length_take. lia.
    + intros n Hn. apply HL. by apply (subseteq_take 10).
    + intros _ k n r Hk Hn Hr.
      assert (n ∈ drop 10 L) as Hd.
      { assert (n ∈ take 10 L ++ drop 10 L) as [?|?]%elem_of_app; [|done..].
        rewrite take_drop. apply HL. eauto. }
      assert (StronglySorted (λ a b, (Note.updatedAt b ≤ Note.updatedAt a)%Z)
                (take 10 L ++ drop 10 L)) as Hs.
      { rewrite take_drop.
        apply (IndexFacts.StronglySorted_reverse
                 (λ a b, (Note.updatedAt a ≤ Note.updatedAt b)%Z)).
        apply (IndexFacts.orderBy_sorted Note.updatedAt). }
      apply StronglySorted_app in Hs as (Hs & _). by apply Hs.
    + done.
    + intros Hsize k n Hk _. rewrite take_ge.
      * apply HL. eauto.
      * unfold L. by rewrite length_reverse, IndexFacts.length_orderBy.
  - eexists (take 10 _). split; [reflexivity|]. split_and!.
    + rewrite length_take. lia.
    + intros n Hn%(subseteq_take 10).
      by apply TableFacts.elem_of_filter_toArray in Hn as [_ ?].
    + done.
    + intros _ n Hn%(subseteq_take 10).
      apply TableFacts.elem_of_filter_toArray in Hn as [Hn _].
      by apply JsTextFacts.includes_spec.
    + intros Hsize k n Hk [?|Hin]; [done|]. rewrite take_ge.
      * apply TableFacts.elem_of_filter_toArray. split; [|eauto].
        by apply JsTextFacts.includes_spec.
      * unfold Table.filter_toArray. etrans; [apply length_filter|].
        etrans; [apply length_toArray|done].
Qed.

(** ** Rows stay under their own identifier *)

Lemma keyed_alter (G : Note.t → Note.t) x w w' :
  (∀ n, Note.id (G n) = Note.id n) →
  notes w' = alter G x (notes w) → keyed w → keyed w'.
Proof.
  intros HG Hn Hk k n. rewrite Hn. destruct (decide (x = k)) as [->|Hne].
  - rewrite lookup_alter_eq. destruct (notes w !! k) as [n0|] eqn:E; [|done].
    intros [= <-]. rewrite HG. by apply Hk.
  - rewrite lookup_alter_ne by done. apply Hk.
Qed.

Lemma keyed_same w w' : notes w' = notes w → keyed w → keyed w'.
Proof. intros Hn Hk k n. rewrite Hn. apply Hk. Qed.

Lemma keyed_createNote host data w : keyed w → keyed (after (createNote host data) w).
Proof.
  intros Hk. unfold after. rewrite createNote_run.
  destruct (notes w !! uuid_at host (S (draws w))) eqn:E; cbn [snd log notes].
  - done.
  - intros k n. cbn [log notes].
    intros [[<- <-]|[_ ?]]%lookup_insert_Some; [apply id_newNote|by apply Hk].
Qed.

Lemma keyed_updateNote host id updates w :
  keyed w → keyed (after (updateNote host id updates) w).
Proof.
  intros Hk. destruct (updateNote_run host id updates w) as (fu & Hrun & _).
  unfold after. rewrite Hrun. cbn [snd].
  eapply (keyed_alter (Note.spread fu) id w); [apply id_spread|done|done].
Qed.

Lemma keyed_updateNoteLinks host noteId content w :
  keyed w → keyed (after (updateNoteLinks host noteId content) w).
Proof.
  apply updateNoteLinks_inv.
  - intros new w1. by apply (keyed_alter (Note.set_linkedNoteIds new) noteId).
  - intros x w1 Hk. unfold after. rewrite addBacklink_run.
    destruct (notes w1 !! x) eqn:E; [|done].
    cbn zeta. destruct (links w1 !! _); cbn [snd];
      by apply (keyed_alter (with_backlink noteId) x w1).
  - intros x w1 Hk. unfold after. rewrite removeBacklink_run.
    destruct (notes w1 !! x) eqn:E; [|done].
    by apply (keyed_alter (without_backlink noteId) x w1).
  - intros t w1 Hk. unfold after. rewrite addUnresolved_run.
    destruct (Table.first _ _); [done|].
    cbn zeta. by destruct (links w1 !! _).
Qed.

Lemma keyed_deleteNote id w : keyed w → keyed (after (deleteNote id) w).
Proof.
  intros Hk. unfold after. destruct (notes w !! id) as [n|] eqn:Hn.
  - destruct (deleteNote_run id w n Hn) as (w' & -> & Hnotes & _). cbn [snd].
    intros k n'. rewrite Hnotes. intros [Hne Hk']%lookup_delete_Some.
    pose proof (delete_lookup id (Note.linkedNoteIds n) (Note.backlinkNoteIds n)
                  (notes w) k) as H.
    rewrite Hk' in H. inversion H as [n0 ? (Hid & _) E|]; subst.
    rewrite Hid. apply Hk. done.
  - by rewrite deleteNote_absent.
Qed.

(** X17. Every operation that writes the notes table leaves each row
    under its own identifier, also when it rejects: creation stores the
    note under the id it carries, and no update (by [updateNote], by a
    content commit, or by the clean-up of [deleteNote]) changes the
    identifier of a row. *)
Theorem keyed_preserved (host : Host) (w : World) :
  keyed w →
  (∀ data, keyed (after (createNote host data) w)) ∧
  (∀ id updates, keyed (after (updateNote host id updates) w)) ∧
  (∀ noteId content, keyed (after (updateNoteLinks host noteId content) w)) ∧
  (∀ id, keyed (after (deleteNote id) w)).
Proof.
  intros Hk. split_and!; intros.
  - by apply keyed_createNote.
  - by apply keyed_updateNote.
  - by apply keyed_updateNoteLinks.
  - by apply keyed_deleteNote.
Qed.

Lemma keyed_preserved_witness :
  keyed (after (updateNoteLinks Demo.host "b" "see [[B]]") Demo.w3) ∧
  keyed (after (deleteNote "b") Demo.w3).
Proof.
  destruct (keyed_preserved Demo.host Demo.w3) as (_ & _ & H3 & H4).
  - apply keyedb_sound. vm_compute. reflexivity.
  - split; [apply H3|apply H4].
Defined.

(** ** The Link rows a content commit leaves *)

Section rows.
Context (host : Host).

Lemma is_Some_alter (G : Note.t → Note.t) x (m : gmap string Note.t) k :
  is_Some (alter G x m !! k) ↔ is_Some (m !! k).
Proof.
  destruct (decide (x = k)) as [->|Hne].
  - rewrite lookup_alter_eq. by rewrite fmap_is_Some.
  - by rewrite lookup_alter_ne.
Qed.

Lemma NoDup_snoc_inv {A} (l : list A) x : NoDup (l ++ [x]) → NoDup l ∧ x ∉ l.
Proof.
  intros (Hl & Hx & _)%NoDup_app. split; [done|]. intros Hin.
  apply (Hx x Hin). left.
Qed.

(** The rows after the first loop: those there before, and resolved rows
    from the source to notes of the list, one for each. *)
Lemma addBacklink_rows noteId l w w' :
  forEach l (addBacklink host noteId) w = (Some tt, w') →
  (∀ k, is_Some (notes w' !! k) ↔ is_Some (notes w !! k)) ∧
  (∀ k r, links w !! k = Some r → links w' !! k = Some r) ∧
  (∀ k r, links w' !! k = Some r →
     links w !! k = Some r ∨
     (links w !! k = None ∧ Link.sourceNoteId r = noteId ∧ Link.resolved r = true ∧
      Link.targetNoteId r ∈ l ∧ is_Some (notes w !! Link.targetNoteId r))) ∧
  (NoDup l →
   ∀ k1 k2 r1 r2, links w' !! k1 = Some r1 → links w' !! k2 = Some r2 →
     links w !! k1 = None → links w !! k2 = None →
     Link.targetNoteId r1 = Link.targetNoteId r2 → k1 = k2).
Proof.
  apply (forEach_fulfils_ind (λ done w1,
    (∀ k, is_Some (notes w1 !! k) ↔ is_Some (notes w !! k)) ∧
    (∀ k r, links w !! k = Some r → links w1 !! k = Some r) ∧
    (∀ k r, links w1 !! k = Some r →
       links w !! k = Some r ∨
       (links w !! k = None ∧ Link.sourceNoteId r = noteId ∧ Link.resolved r = true ∧
        Link.targetNoteId r ∈ done ∧ is_Some (notes w !! Link.targetNoteId r))) ∧
    (NoDup done →
     ∀ k1 k2 r1 r2, links w1 !! k1 = Some r1 → links w1 !! k2 = Some r2 →
       links w !! k1 = None → links w !! k2 = None →
       Link.targetNoteId r1 = Link.targetNoteId r2 → k1 = k2))).
  - split_and!; try done.
    + intros k r Hk. by left.
    + intros _ k1 k2 r1 r2 H1 _ H1'. congruence.
  - intros done x w1 w2 (Hdom & Hsub & Hup & Huniq). rewrite addBacklink_run.
    destruct (notes w1 !! x) as [n|] eqn:Hx.
    + cbn zeta. destruct (links w1 !! uuid_at host (draws w1)) eqn:Hfree; [done|].
      intros [= <-]. cbn [log notes links].
      assert (links w !! uuid_at host (draws w1) = None) as Hfree0.
      { destruct (links w !! uuid_at host (draws w1)) as [r|] eqn:E; [|done].
        apply Hsub in E. congruence. }
      assert (is_Some (notes w !! x)) as Hx0 by (apply Hdom; eauto).
      split_and!.
      * intros k. by rewrite is_Some_alter.
      * intros k r Hk. apply lookup_insert_fresh; [done|]. by apply Hsub.
      * intros k r [[<- <-]|[Hne Hk]]%lookup_insert_Some.
        -- right. cbn. split_and!; try done. apply elem_of_app. right. left.
        -- destruct (Hup k r Hk) as [?|(? & ? & ? & ? & ?)]; [by left|right].
           split_and!; try done. apply elem_of_app. by left.
      * intros [Hnd Hnew]%NoDup_snoc_inv k1 k2 r1 r2.
        intros [[<- <-]|[Hne1 H1]]%lookup_insert_Some
               [[<- <-]|[Hne2 H2]]%lookup_insert_Some H1' H2'; cbn.
        -- done.
        -- intros ->. destruct (Hup k2 r2 H2) as [?|(_ & _ & _ & Hin & _)]; [congruence|].
           done.
        -- intros E. destruct (Hup k1 r1 H1) as [?|(_ & _ & _ & Hin & _)]; [congruence|].
           rewrite E in Hin. done.
        -- by apply Huniq.
    + intros [= <-]. split_and!; try done.
      * intros k r Hk. destruct (Hup k r Hk) as [?|(? & ? & ? & ? & ?)]; [by left|right].
        split_and!; try done. apply elem_of_app. by left.
      * intros [Hnd _]%NoDup_snoc_inv. by apply Huniq.
Qed.

(** The rows after the second loop: rows there before, none of them
    from the source to a note of the list. *)
Lemma removeBacklink_rows noteId l w w' :
  forEach l (removeBacklink noteId) w = (Some tt, w') →
  ∀ k r, links w' !! k = Some r →
    links w !! k = Some r ∧
    ¬ (Link.sourceNoteId r = noteId ∧ Link.targetNoteId r ∈ l ∧
       is_Some (notes w !! Link.targetNoteId r)).
Proof.
  intros Hrun.
  enough ((∀ k, is_Some (notes w' !! k) ↔ is_Some (notes w !! k)) ∧
          ∀ k r, links w' !! k = Some r →
            links w !! k = Some r ∧
            ¬ (Link.sourceNoteId r = noteId ∧ Link.targetNoteId r ∈ l ∧
               is_Some (notes w !! Link.targetNoteId r))) as [_ H] by exact H.
  revert Hrun.
  apply (forEach_fulfils_ind (λ done w1,
    (∀ k, is_Some (notes w1 !! k) ↔ is_Some (notes w !! k)) ∧
    ∀ k r, links w1 !! k = Some r →
      links w !! k = Some r ∧
      ¬ (Link.sourceNoteId r = noteId ∧ Link.targetNoteId r ∈ done ∧
         is_Some (notes w !! Link.targetNoteId r)))).
  - split; [done|]. intros k r Hk. split; [done|]. intros (_ & Hin & _).
    by apply elem_of_nil in Hin.
  - intros done x w1 w2 (Hdom & Hup). rewrite removeBacklink_run.
    destruct (notes w1 !! x) as [n|] eqn:Hx.
    + intros [= <-]. cbn [notes links]. split.
      * intros k. by rewrite is_Some_alter.
      * intros k r [Hk Hp]%TableFacts.lookup_delete_where.
        destruct (Hup k r Hk) as [H0 Hnot]. split; [done|].
        intros (Hs & [Hin|Ht%list_elem_of_singleton]%elem_of_app & Hex);
          [by apply Hnot|].
        cbn beta in Hp. by apply andb_false_iff in Hp as [Hp|Hp]; apply String.eqb_neq in Hp.
    + intros [= <-]. split; [done|]. intros k r Hk.
      destruct (Hup k r Hk) as [H0 Hnot]. split; [done|].
      intros (Hs & [Hin|E%list_elem_of_singleton]%elem_of_app & Hex);
        [by apply Hnot|].
      rewrite E in Hex. apply Hdom in Hex. rewrite Hx in Hex. by destruct Hex.
Qed.

(** The rows after the third loop: those there before, and unresolved
    rows of the source for titles of the list. *)
Lemma addUnresolved_rows noteId l w w' :
  forEach l (addUnresolved host noteId) w = (Some tt, w') →
  ∀ k r, links w' !! k = Some r →
    links w !! k = Some r ∨
    (Link.sourceNoteId r = noteId ∧ Link.resolved r = false ∧
     Link.targetNoteId r = "" ∧ Link.targetTitle r ∈ l).
Proof.
  apply (forEach_fulfils_ind (λ done w1,
    ∀ k r, links w1 !! k = Some r →
      links w !! k = Some r ∨
      (Link.sourceNoteId r = noteId ∧ Link.resolved r = false ∧
       Link.targetNoteId r = "" ∧ Link.targetTitle r ∈ done))).
  - intros k r Hk. by left.
  - intros done x w1 w2 Hup. rewrite addUnresolved_run.
    destruct (Table.first _ _).
    + intros [= <-] k r Hk.
      destruct (Hup k r Hk) as [?|(? & ? & ? & ?)]; [by left|right].
      split_and!; try done. apply elem_of_app. by left.
    + cbn zeta. destruct (links w1 !! uuid_at host (draws w1)) eqn:Hfree; [done|].
      intros [= <-]. cbn [log links].
      intros k r [[<- <-]|[Hne Hk]]%lookup_insert_Some.
      * right. cbn. split_and!; try done. apply elem_of_app. right. left.
      * destruct (Hup k r Hk) as [?|(? & ? & ? & ?)]; [by left|right].
        split_and!; try done. apply elem_of_app. by left.
Qed.

End rows.

(** ** The link graph after a content commit *)

Section commit.
Context (host : Host).

Lemma updateNoteLinks_rows noteId content w w' cur :
  notes w !! noteId = Some cur →
  updateNoteLinks host noteId content w = (Some tt, w') →
  let new := matching_ids w content in
  let old := Note.linkedNoteIds cur in
  (∀ k r, links w' !! k = Some r →
     (links w !! k = Some r ∧
      ¬ (Link.sourceNoteId r = noteId ∧ Link.targetNoteId r ∈ removedLinks new old ∧
         is_Some (notes w !! Link.targetNoteId r))) ∨
     (Link.sourceNoteId r = noteId ∧ Link.resolved r = true ∧ links w !! k = None ∧
      Link.targetNoteId r ∈ addedLinks new old ∧
      is_Some (notes w !! Link.targetNoteId r)) ∨
     (Link.sourceNoteId r = noteId ∧ Link.resolved r = false ∧
      Link.targetNoteId r = "")) ∧
  (NoDup new →
   ∀ k1 k2 r1 r2, links w' !! k1 = Some r1 → links w' !! k2 = Some r2 →
     links w !! k1 = None → links w !! k2 = None →
     Link.resolved r1 = true → Link.resolved r2 = true →
     Link.targetNoteId r1 = Link.targetNoteId r2 → k1 = k2).
Proof.
  intros Hcur Hrun new old.
  destruct (updateNoteLinks_steps host noteId content w w' cur Hcur Hrun)
    as (w2 & w3 & H1 & H2 & H3).
  fold new old in H1, H2.
  apply addBacklink_rows in H1 as (Hdom1 & _ & Hup1 & Huniq1).
  pose proof (removeBacklink_rows noteId _ _ _ H2) as Hup2.
  pose proof (addUnresolved_rows host noteId _ _ _ H3) as Hup3.
  cbn [relinked log notes links] in Hdom1, Hup1, Huniq1.
  assert (∀ k, is_Some (notes w2 !! k) ↔ is_Some (notes w !! k)) as Hdom.
  { intros k. by rewrite Hdom1, is_Some_alter. }
  assert (∀ k r, links w' !! k = Some r → Link.resolved r = true →
                 links w2 !! k = Some r) as Hback.
  { intros k r Hk Hr. destruct (Hup3 k r Hk) as [Hk3|(_ & ? & _)]; [|congruence].
    by destruct (Hup2 k r Hk3). }
  split.
  - intros k r Hk. destruct (Hup3 k r Hk) as [Hk3|(? & ? & ? & _)]; [|by right; right].
    destruct (Hup2 k r Hk3) as [Hk2 Hnot].
    destruct (Hup1 k r Hk2) as [Hk0|(? & ? & ? & ? & Hex)]; [left|right; left].
    2:{ split_and!; try done. by rewrite is_Some_alter in Hex. }
    split; [done|]. intros (? & ? & ?). apply Hnot. split_and!; try done.
    by apply Hdom.
  - intros Hnd k1 k2 r1 r2 Hk1 Hk2 Hn1 Hn2 Hr1 Hr2.
    apply (Huniq1 (NoDup_filter _ _ Hnd)); auto.
Qed.

Lemma commit_row noteId content w w' cur k :
  notes w !! noteId = Some cur →
  updateNoteLinks host noteId content w = (Some tt, w') →
  let new := matching_ids w content in
  let old := Note.linkedNoteIds cur in
  option_Forall2
    (λ n n',
       Note.id n' = Note.id n ∧ Note.title n' = Note.title n ∧
       Note.linkedNoteIds n'
         = (if decide (k = noteId) then new else Note.linkedNoteIds n) ∧
       ∀ y, y ∈ Note.backlinkNoteIds n'
            ↔ (y ∈ Note.backlinkNoteIds n ∨ (y = noteId ∧ k ∈ addedLinks new old))
              ∧ ¬ (y = noteId ∧ k ∈ removedLinks new old))
    (notes w !! k) (notes w' !! k).
Proof.
  intros Hcur Hrun new old.
  destruct (updateNoteLinks_summary host noteId content w w' cur Hcur Hrun) as (-> & _).
  apply commit_lookup.
Qed.

End commit.

Lemma alter_each_Forall (P : Note.t → Prop) (G : Note.t → Note.t) l
    (m : gmap string Note.t) :
  (∀ n, P n → P (G n)) →
  (∀ k n, m !! k = Some n → P n) →
  ∀ k n, alter_each G l m !! k = Some n → P n.
Proof.
  intros HG. revert m. induction l as [|x l IH]; intros m Hm; [done|].
  apply IH. intros k n. destruct (decide (x = k)) as [->|Hne].
  - rewrite lookup_alter_eq. destruct (m !! k) as [n0|] eqn:E; [|done].
    intros [= <-]. by apply HG, (Hm k).
  - rewrite lookup_alter_ne by done. apply Hm.
Qed.

Lemma NoDup_toArray w : keyed w → NoDup (Table.toArray (notes w)).
Proof.
  intros Hk. apply IndexFacts.NoDup_omap; [|apply IndexFacts.NoDup_keys].
  intros x y z _ _ Hx Hy. apply Hk in Hx, Hy. congruence.
Qed.

Lemma NoDup_matching_ids w content : keyed w → NoDup (matching_ids w content).
Proof.
  intros Hk. unfold matching_ids. apply NoDup_fmap_2_strong.
  - intros x y [_ (kx & Hx)]%TableFacts.elem_of_filter_toArray
                [_ (ky & Hy)]%TableFacts.elem_of_filter_toArray E.
    pose proof (Hk _ _ Hx). pose proof (Hk _ _ Hy). congruence.
  - apply NoDup_filter. by apply NoDup_toArray.
Qed.

Section commit_invariants.
Context (host : Host) (noteId content : string) (w w' : World) (cur : Note.t).
Hypothesis Hcur : notes w !! noteId = Some cur.
Hypothesis Hrun : updateNoteLinks host noteId content w = (Some tt, w').
Hypothesis Hkeyed : keyed w.

Lemma commit_dom k : is_Some (notes w' !! k) ↔ is_Some (notes w !! k).
Proof.
  pose proof (commit_row host noteId content w w' cur k Hcur Hrun) as R.
  cbn zeta in R. inversion R; split; intros [? ?]; eauto; congruence.
Qed.

Lemma commit_source :
  ∃ cur', notes w' !! noteId = Some cur' ∧
          Note.linkedNoteIds cur' = matching_ids w content.
Proof.
  pose proof (commit_row host noteId content w w' cur noteId Hcur Hrun) as R.
  cbn zeta in R. rewrite Hcur in R. inversion R as [? cur' (_ & _ & Hl & _)|]; subst.
  exists cur'. split; [done|]. by rewrite Hl, decide_True.
Qed.

Lemma commit_closed : closed w → closed w'.
Proof.
  intros Hc k n' x Hk' Hx.
  pose proof (commit_row host noteId content w w' cur k Hcur Hrun) as R.
  cbn zeta in R. rewrite Hk' in R.
  inversion R as [n ? (_ & _ & Hl & Hb) E|]; subst. symmetry in E.
  apply commit_dom. destruct Hx as [Hx|Hx].
  - rewrite Hl in Hx. destruct (decide (k = noteId)).
    + apply elem_of_matching_ids in Hx as (nx & -> & _); [eauto|done].
    + eapply Hc; eauto.
  - apply Hb in Hx as [[Hx|[-> _]] _]; [eapply Hc; eauto|eauto].
Qed.

Lemma commit_duplicate_free : duplicate_free w → duplicate_free w'.
Proof.
  intros Hd.
  destruct (updateNoteLinks_summary host noteId content w w' cur Hcur Hrun)
    as (Hnotes & _).
  unfold duplicate_free. rewrite Hnotes.
  apply (alter_each_Forall
           (λ n, NoDup (Note.linkedNoteIds n) ∧ NoDup (Note.backlinkNoteIds n))).
  { intros n [? _]. split; [done|]. cbn. apply NoDup_filter, JsSetFacts.NoDup_of_list. }
  apply (alter_each_Forall
           (λ n, NoDup (Note.linkedNoteIds n) ∧ NoDup (Note.backlinkNoteIds n))).
  { intros n [? _]. split; [done|]. cbn.
    apply JsSetFacts.NoDup_add, JsSetFacts.NoDup_of_list. }
  intros k n. destruct (decide (noteId = k)) as [->|Hne].
  - rewrite lookup_alter_eq, Hcur. intros [= <-]. cbn.
    split; [by apply NoDup_matching_ids|]. by apply (Hd k cur).
  - rewrite lookup_alter_ne by done. apply Hd.
Qed.

Lemma commit_edges : closed w → edges_recorded w → edges_recorded w'.
Proof.
  intros Hc He src tgt.
  destruct (updateNoteLinks_summary host noteId content w w' cur Hcur Hrun)
    as (_ & Hedge & _ & Hkept).
  destruct (updateNoteLinks_rows host noteId content w w' cur Hcur Hrun) as (Hup & _).
  cbn zeta in Hedge, Hkept, Hup.
  pose proof (commit_row host noteId content w w' cur src Hcur Hrun) as R.
  cbn zeta in R. split.
  - intros (n' & Hk' & Hin). rewrite Hk' in R.
    inversion R as [n ? (_ & _ & Hl & _) E|]; subst. symmetry in E.
    rewrite Hl in Hin. destruct (decide (src = noteId)) as [->|Hne].
    + assert (n = cur) as -> by congruence.
      destruct (decide (tgt ∈ Note.linkedNoteIds cur)) as [Hold|Hold].
      * assert (resolved_row w noteId tgt) as (k & r & Hk & Hs & Ht & Hr)
          by (apply He; eauto).
        exists k, r. split_and!; try done. apply Hkept; [done|].
        right. left. rewrite Ht, elem_of_removedLinks. tauto.
      * pose proof Hin as (nt & Hnt & _)%elem_of_matching_ids; [|done].
        destruct (Hedge tgt nt) as (k & r & ? & ? & ? & _ & ?); [|done|].
        { by apply elem_of_addedLinks. }
        by exists k, r.
    + assert (resolved_row w src tgt) as (k & r & Hk & Hs & Ht & Hr)
        by (apply He; eauto).
      exists k, r. split_and!; try done. apply Hkept; [done|]. left. congruence.
  - intros (k & r & Hk' & Hs & Ht & Hr).
    destruct (Hup k r Hk') as [[Hk Hnot]|[(Hs' & _ & _ & Hadd & _)|(_ & ? & _)]];
      [| |congruence].
    + assert (∃ n, notes w !! src = Some n ∧ tgt ∈ Note.linkedNoteIds n)
        as (n & Hn & Hin) by (apply He; by exists k, r).
      rewrite Hn in R. inversion R as [? n' (_ & _ & Hl & _) E E'|]; subst.
      exists n'. split; [done|]. rewrite Hl.
      destruct (decide (Link.sourceNoteId r = noteId)) as [Hsrc|Hsrc]; [|done].
      assert (n = cur) as -> by congruence.
      destruct (decide (Link.targetNoteId r ∈ matching_ids w content)); [done|].
      exfalso. apply Hnot. split_and!; [done| |].
      * apply elem_of_removedLinks. done.
      * apply (Hc noteId cur); [done|by left].
    + destruct commit_source as (cur' & Hcur' & Hl).
      exists cur'. rewrite <- Hs, Hs'. split; [done|].
      rewrite Hl, <- Ht. by apply elem_of_addedLinks in Hadd as [? _].
Qed.

Lemma commit_unique_resolved :
  edges_recorded w → unique_resolved w → unique_resolved w'.
Proof.
  intros He Hu k1 k2 r1 r2 H1 H2 Hs Ht Hr1 Hr2.
  destruct (updateNoteLinks_rows host noteId content w w' cur Hcur Hrun)
    as (Hup & Huniq).
  cbn zeta in Hup, Huniq.
  assert (∀ k r t, links w !! k = Some r → Link.resolved r = true →
            Link.sourceNoteId r = noteId → Link.targetNoteId r = t →
            t ∈ addedLinks (matching_ids w content) (Note.linkedNoteIds cur) →
            False) as Hclash.
  { intros k r t Hk Hr Hsrc Htgt [_ Hnot]%elem_of_addedLinks.
    assert (∃ n, notes w !! noteId = Some n ∧ t ∈ Note.linkedNoteIds n)
      as (n & Hn & Hin) by (apply He; by exists k, r).
    congruence. }
  destruct (Hup k1 r1 H1) as [[A1 _]|[(S1 & _ & N1 & T1 & _)|(_ & ? & _)]];
    [| |congruence];
    (destruct (Hup k2 r2 H2) as [[A2 _]|[(S2 & _ & N2 & T2 & _)|(_ & ? & _)]];
      [| |congruence]).
  - by apply (Hu k1 k2 r1 r2).
  - exfalso. apply (Hclash k1 r1 (Link.targetNoteId r2)); try done. congruence.
  - exfalso. apply (Hclash k2 r2 (Link.targetNoteId r1)); try done. congruence.
  - apply (Huniq (NoDup_matching_ids w content Hkeyed) k1 k2 r1 r2); done.
Qed.

Lemma commit_anchored : rows_anchored w → rows_anchored w'.
Proof.
  intros Ha k r Hk'.
  destruct (updateNoteLinks_rows host noteId content w w' cur Hcur Hrun) as (Hup & _).
  cbn zeta in Hup.
  destruct (Hup k r Hk') as [[Hk _]|[(Hs & Hr & _)|(Hs & _ & Ht)]].
  - destruct (Ha k r Hk) as [Hsrc Htgt]. split; [by apply commit_dom|done].
  - split; [|congruence]. rewrite Hs. apply commit_dom. eauto.
  - split; [|done]. rewrite Hs. apply commit_dom. eauto.
Qed.

End commit_invariants.

Lemma consistent_updateNoteLinks host noteId content w w' :
  consistent w →
  updateNoteLinks host noteId content w = (Some tt, w') →
  consistent w'.
Proof.
  intros (Hk & Hs & Hc & Hd & He & Hu & Ha & Hp) Hrun.
  destruct (notes w !! noteId) as [cur|] eqn:Hcur.
  2:{ rewrite updateNoteLinks_absent in Hrun by done.
      injection Hrun as <-. by split_and!. }
  split_and!.
  - replace w' with (after (updateNoteLinks host noteId content) w)
      by (unfold after; by rewrite Hrun).
    by apply keyed_updateNoteLinks.
  - by apply (updateNoteLinks_symmetric host noteId content w).
  - by apply (commit_closed host noteId content w w' cur).
  - by apply (commit_duplicate_free host noteId content w w' cur).
  - by apply (commit_edges host noteId content w w' cur).
  - by apply (commit_unique_resolved host noteId content w w' cur).
  - by apply (commit_anchored host noteId content w w' cur).
  - replace w' with (after (updateNoteLinks host noteId content) w)
      by (unfold after; by rewrite Hrun).
    by apply updateNoteLinks_unique_unresolved.
Qed.

(** ** The link graph after a deletion *)

Section delete_invariants.
Context (id : string) (w w' : World) (n : Note.t).
Hypothesis Hn : notes w !! id = Some n.
Hypothesis Hrun : deleteNote id w = (Some tt, w').
Hypothesis Hsym : symmetric w.

Lemma delete_tables :
  notes w' = delete id
               (alter_each (strip_link id) (Note.backlinkNoteIds n)
                  (alter_each (strip_backlink id) (Note.linkedNoteIds n) (notes w))) ∧
  links w' = Table.delete_where (λ link, String.eqb (Link.targetNoteId link) id)
               (Table.delete_where (λ link, String.eqb (Link.sourceNoteId link) id)
                  (links w)).
Proof.
  destruct (deleteNote_run id w n Hn) as (w'' & Hrun' & ? & ? & _).
  assert (w'' = w') as -> by congruence. done.
Qed.

Lemma delete_gone : notes w' !! id = None.
Proof. destruct delete_tables as [-> _]. apply lookup_delete_eq. Qed.

(** The other rows: the deleted identifier has left both lists, and
    nothing else has changed in them. *)
Lemma delete_row k :
  k ≠ id →
  option_Forall2
    (λ n0 n', Note.id n' = Note.id n0 ∧
       (∀ y, y ∈ Note.linkedNoteIds n' ↔ y ∈ Note.linkedNoteIds n0 ∧ y ≠ id) ∧
       (∀ y, y ∈ Note.backlinkNoteIds n' ↔ y ∈ Note.backlinkNoteIds n0 ∧ y ≠ id))
    (notes w !! k) (notes w' !! k).
Proof.
  intros Hne. destruct delete_tables as [-> _]. rewrite lookup_delete_ne by done.
  pose proof (delete_lookup id (Note.linkedNoteIds n) (Note.backlinkNoteIds n)
                (notes w) k) as R.
  destruct (notes w !! k) as [n0|] eqn:Hk; inversion R as [? n' (Hi & _ & Hl & Hb)|];
    subst; constructor.
  split_and!; [done| |].
  - intros y. rewrite Hl. pose proof (Hsym k id n0 n Hk Hn) as S.
    split; [|intros [? ?]; split; [done|tauto]].
    intros [Hin Hnot]. split; [done|]. intros ->. tauto.
  - intros y. rewrite Hb. pose proof (Hsym id k n n0 Hn Hk) as S.
    split; [|intros [? ?]; split; [done|tauto]].
    intros [Hin Hnot]. split; [done|]. intros ->. tauto.
Qed.

Lemma delete_dom k : is_Some (notes w' !! k) ↔ k ≠ id ∧ is_Some (notes w !! k).
Proof.
  destruct (decide (k = id)) as [->|Hne].
  - rewrite delete_gone. split; [by intros [? ?]|tauto].
  - pose proof (delete_row k Hne) as R.
    inversion R; split; try tauto; (intros [? ?] || intros [_ [? ?]]); eauto; congruence.
Qed.

Lemma delete_links k r :
  links w' !! k = Some r ↔
  links w !! k = Some r ∧ Link.sourceNoteId r ≠ id ∧ Link.targetNoteId r ≠ id.
Proof.
  destruct delete_tables as [_ ->].
  rewrite !TableFacts.lookup_delete_where, !String.eqb_neq. tauto.
Qed.

Lemma delete_closed : closed w → closed w'.
Proof.
  intros Hc k n' x Hk' Hx.
  assert (k ≠ id) as Hne by (intros ->; by rewrite delete_gone in Hk').
  pose proof (delete_row k Hne) as R. rewrite Hk' in R.
  inversion R as [n0 ? (_ & Hl & Hb) E|]; subst. symmetry in E.
  assert ((x ∈ Note.linkedNoteIds n0 ∨ x ∈ Note.backlinkNoteIds n0) ∧ x ≠ id)
    as [Hx0 Hxne].
  { destruct Hx as [Hx|Hx]; [apply Hl in Hx|apply Hb in Hx]; tauto. }
  apply delete_dom. split; [done|]. by apply (Hc k n0).
Qed.

Lemma delete_duplicate_free : duplicate_free w → duplicate_free w'.
Proof.
  intros Hd k n'. destruct delete_tables as [-> _].
  intros [_ Hk]%lookup_delete_Some. revert k n' Hk.
  apply (alter_each_Forall
           (λ n, NoDup (Note.linkedNoteIds n) ∧ NoDup (Note.backlinkNoteIds n))).
  { intros n0 [? ?]. split; [|done]. cbn. by apply NoDup_filter. }
  apply (alter_each_Forall
           (λ n, NoDup (Note.linkedNoteIds n) ∧ NoDup (Note.backlinkNoteIds n))).
  { intros n0 [? ?]. split; [done|]. cbn. by apply NoDup_filter. }
  apply Hd.
Qed.

Lemma delete_edges : edges_recorded w → edges_recorded w'.
Proof.
  intros He src tgt. split.
  - intros (n' & Hk' & Hin).
    assert (src ≠ id) as Hne by (intros ->; by rewrite delete_gone in Hk').
    pose proof (delete_row src Hne) as R. rewrite Hk' in R.
    inversion R as [n0 ? (_ & Hl & _) E|]; subst. symmetry in E.
    apply Hl in Hin as [Hin Htne].
    assert (resolved_row w src tgt) as (k & r & Hk & Hs & Ht & Hr)
      by (apply He; eauto).
    exists k, r. split_and!; try done. apply delete_links. split_and!; congruence.
  - intros (k & r & (Hk & Hsne & Htne)%delete_links & Hs & Ht & Hr).
    assert (∃ n0, notes w !! src = Some n0 ∧ tgt ∈ Note.linkedNoteIds n0)
      as (n0 & Hn0 & Hin) by (apply He; by exists k, r).
    assert (src ≠ id) as Hne by congruence.
    pose proof (delete_row src Hne) as R. rewrite Hn0 in R.
    inversion R as [? n' (_ & Hl & _) E E'|]; subst.
    exists n'. split; [done|]. apply Hl. split; [done|congruence].
Qed.

Lemma delete_unique_resolved : unique_resolved w → unique_resolved w'.
Proof.
  intros Hu k1 k2 r1 r2 [H1 _]%delete_links [H2 _]%delete_links.
  by apply Hu.
Qed.

Lemma delete_unique_unresolved : unique_unresolved w → unique_unresolved w'.
Proof.
  apply unique_unresolved_subset. by intros k r [? _]%delete_links.
Qed.

Lemma delete_anchored : rows_anchored w → rows_anchored w'.
Proof.
  intros Ha k r (Hk & Hsne & _)%delete_links.
  destruct (Ha k r Hk) as [Hsrc Htgt]. split; [|done].
  apply delete_dom. done.
Qed.

End delete_invariants.

Lemma consistent_deleteNote id w :
  consistent w → ∃ w', deleteNote id w = (Some tt, w') ∧ consistent w'.
Proof.
  intros (Hk & Hs & Hc & Hd & He & Hu & Ha & Hp).
  destruct (notes w !! id) as [n|] eqn:Hn.
  2:{ exists w. rewrite deleteNote_absent by done. by split_and!. }
  destruct (deleteNote_symmetric id w Hs) as (w' & Hrun & Hs').
  exists w'. split; [done|]. split_and!.
  - replace w' with (after (deleteNote id) w) by (unfold after; by rewrite Hrun).
    by apply keyed_deleteNote.
  - done.
  - by apply (delete_closed id w w' n).
  - by apply (delete_duplicate_free id w w' n).
  - by apply (delete_edges id w w' n).
  - by apply (delete_unique_resolved id w w' n).
  - by apply (delete_anchored id w w' n).
  - by apply (delete_unique_unresolved id w w' n).
Qed.

(** ** The link graph after a creation or a save *)

Lemma newNote_lists data id now :
  Note.linkedNoteIds (newNote data id now)
    = default [] (Note.linkedNoteIds_opt data) ∧
  Note.backlinkNoteIds (newNote data id now)
    = default [] (Note.backlinkNoteIds_opt data).
Proof.
  unfold newNote.
  destruct (spread_fields data (createEmptyNote id now now))
    as (_ & _ & _ & _ & _ & _ & _ & Hl & Hb).
  destruct (Note.spread data (createEmptyNote id now now)) as [i t c ct tg ca ua l b].
  cbn in Hl, Hb. subst l b. cbn -[generateTitleFromContent extractPlainText truthy].
  by destruct (_ && _).
Qed.

(** A note without links enters a consistent store. *)
Lemma consistent_insert w w' id note :
  notes w !! id = None →
  notes w' = <[id := note]> (notes w) → links w' = links w →
  Note.id note = id →
  Note.linkedNoteIds note = [] → Note.backlinkNoteIds note = [] →
  consistent w → consistent w'.
Proof.
  intros Hfree Hnotes Hlinks Hid Hl Hb (Hk & Hs & Hc & Hd & He & Hu & Ha & Hp).
  assert (∀ k n, notes w !! k = Some n → notes w' !! k = Some n) as Hold.
  { intros k n Hkn. rewrite Hnotes. by apply lookup_insert_fresh. }
  assert (∀ k n, notes w' !! k = Some n →
            (k = id ∧ n = note) ∨ (k ≠ id ∧ notes w !! k = Some n)) as Hcases.
  { intros k n. rewrite Hnotes. intros [[<- <-]|[? ?]]%lookup_insert_Some; auto. }
  assert (∀ k n, notes w !! k = Some n →
            (id ∉ Note.linkedNoteIds n) ∧ (id ∉ Note.backlinkNoteIds n)) as Hnew.
  { intros k n Hkn. split; intros Hin.
    - destruct (Hc k n id Hkn) as [? ?]; [by left|congruence].
    - destruct (Hc k n id Hkn) as [? ?]; [by right|congruence]. }
  unfold consistent, keyed, symmetric, closed, duplicate_free, edges_recorded,
    unique_resolved, rows_anchored, unique_unresolved, resolved_row.
  rewrite Hlinks. split_and!.
  - intros k n [[-> ->]|[_ ?]]%Hcases; [done|by apply Hk].
  - intros a b na nb [[-> ->]|[_ Ha']]%Hcases [[-> ->]|[_ Hb']]%Hcases.
    + rewrite Hl, Hb. done.
    + rewrite Hl. destruct (Hnew b nb Hb') as [_ ?].
      split; [by intros ?%elem_of_nil|done].
    + rewrite Hb. destruct (Hnew a na Ha') as [? _].
      split; [done|by intros ?%elem_of_nil].
    + by apply Hs.
  - intros k n x [[-> ->]|[_ Hkn]]%Hcases.
    + rewrite Hl, Hb. intros [?%elem_of_nil|?%elem_of_nil]; done.
    + intros Hx. destruct (Hc k n x Hkn Hx) as [nx Hnx]. eauto.
  - intros k n [[-> ->]|[_ Hkn]]%Hcases.
    + rewrite Hl, Hb. split; constructor.
    + by apply (Hd k).
  - intros src tgt. rewrite <- (He src tgt). split.
    + intros (n & [[-> ->]|[_ Hkn]]%Hcases & Hin).
      * rewrite Hl in Hin. by apply elem_of_nil in Hin.
      * eauto.
    + intros (n & Hkn & Hin). eauto.
  - done.
  - intros k r Hkr. destruct (Ha k r Hkr) as [[ns Hns] ?]. split; [eauto|done].
  - done.
Qed.

(** A rewrite of rows that keeps identifiers and both lists. *)
Lemma consistent_same_graph w w' :
  (∀ k, option_Forall2
          (λ n n', Note.id n' = Note.id n ∧
                   Note.linkedNoteIds n' = Note.linkedNoteIds n ∧
                   Note.backlinkNoteIds n' = Note.backlinkNoteIds n)
          (notes w !! k) (notes w' !! k)) →
  links w' = links w →
  consistent w → consistent w'.
Proof.
  intros Hrows Hlinks (Hk & Hs & Hc & Hd & He & Hu & Ha & Hp).
  assert (∀ k n', notes w' !! k = Some n' →
            ∃ n, notes w !! k = Some n ∧ Note.id n' = Note.id n ∧
                 Note.linkedNoteIds n' = Note.linkedNoteIds n ∧
                 Note.backlinkNoteIds n' = Note.backlinkNoteIds n) as Hback.
  { intros k n' Hkn. pose proof (Hrows k) as R. rewrite Hkn in R.
    inversion R as [n ? ? E|]; subst. eauto. }
  assert (∀ k n, notes w !! k = Some n →
            ∃ n', notes w' !! k = Some n' ∧ Note.id n' = Note.id n ∧
                  Note.linkedNoteIds n' = Note.linkedNoteIds n ∧
                  Note.backlinkNoteIds n' = Note.backlinkNoteIds n) as Hforth.
  { intros k n Hkn. pose proof (Hrows k) as R. rewrite Hkn in R.
    inversion R as [? n' ? E E'|]; subst. eauto. }
  unfold consistent, keyed, symmetric, closed, duplicate_free, edges_recorded,
    unique_resolved, rows_anchored, unique_unresolved, resolved_row.
  rewrite Hlinks. split_and!.
  - intros k n' (n & Hkn & -> & _)%Hback. by apply Hk.
  - intros a b na' nb' (na & Ha' & _ & -> & _)%Hback (nb & Hb' & _ & _ & ->)%Hback.
    by apply Hs.
  - intros k n' x (n & Hkn & _ & -> & ->)%Hback Hx.
    destruct (Hc k n x Hkn Hx) as [nx (nx' & ? & _)%Hforth]. eauto.
  - intros k n' (n & Hkn & _ & -> & ->)%Hback. by apply (Hd k).
  - intros src tgt. rewrite <- (He src tgt). split.
    + intros (n' & (n & Hkn & _ & -> & _)%Hback & Hin). eauto.
    + intros (n & (n' & Hkn & _ & <- & _)%Hforth & Hin). eauto.
  - done.
  - intros k r Hkr. destruct (Ha k r Hkr) as [[ns (ns' & ? & _)%Hforth] ?].
    split; [eauto|done].
  - done.
Qed.

Lemma consistent_createNote host data w w' note :
  Note.linkedNoteIds_opt data = None → Note.backlinkNoteIds_opt data = None →
  consistent w → createNote host data w = (Some note, w') → consistent w'.
Proof.
  intros Hl Hb Hcons. rewrite createNote_run.
  destruct (notes w !! uuid_at host (S (draws w))) eqn:Hfree; [done|].
  intros [= <- <-].
  destruct (newNote_lists data (uuid_at host (S (draws w))) (time_at host (draws w)))
    as [Hl' Hb']. rewrite Hl in Hl'. rewrite Hb in Hb'.
  by eapply (consistent_insert w _ (uuid_at host (S (draws w))));
    [done|reflexivity|reflexivity|apply id_newNote|done|done|done].
Qed.

Lemma consistent_updateNote host id updates w :
  Note.linkedNoteIds_opt updates = None → Note.backlinkNoteIds_opt updates = None →
  consistent w →
  ∃ w', updateNote host id updates w = (Some tt, w') ∧ consistent w'.
Proof.
  intros Hl Hb Hcons.
  destruct (updateNote_final host id updates w) as (fu & Hrun & _ & _ & Hl' & Hb').
  eexists. split; [exact Hrun|].
  apply (consistent_same_graph w); [|reflexivity|done].
  intros k. cbn [log notes]. destruct (decide (id = k)) as [->|Hne].
  - rewrite lookup_alter_eq. destruct (notes w !! k) as [n|]; constructor.
    destruct (spread_fields fu n) as (-> & _ & _ & _ & _ & _ & _ & -> & ->).
    by rewrite Hl', Hl, Hb', Hb.
  - rewrite lookup_alter_ne by done. destruct (notes w !! k); by constructor.
Qed.

(** ** The identifiers in the store *)

Lemma ids_drawn_mono host w w' :
  draws w ≤ draws w' →
  (∀ k, is_Some (notes w' !! k) →
        is_Some (notes w !! k) ∨ ∃ i, i < draws w' ∧ k = uuid_at host i) →
  (∀ k, is_Some (links w' !! k) →
        is_Some (links w !! k) ∨ ∃ i, i < draws w' ∧ k = uuid_at host i) →
  ids_drawn host w → ids_drawn host w'.
Proof.
  intros Hd Hn Hl [In Il]. split.
  - intros k [Hk|Hk]%Hn; [|done]. destruct (In k Hk) as (i & ? & ?).
    exists i. split; [lia|done].
  - intros k [Hk|Hk]%Hl; [|done]. destruct (Il k Hk) as (i & ? & ?).
    exists i. split; [lia|done].
Qed.

Lemma is_Some_insert {V} (m : gmap string V) i v k :
  is_Some (<[i := v]> m !! k) → k = i ∨ is_Some (m !! k).
Proof.
  destruct (decide (i = k)) as [->|Hne]; [by left|].
  rewrite lookup_insert_ne by done. by right.
Qed.

Lemma is_Some_delete_where {V} (p : V → bool) (m : gmap string V) k :
  is_Some (Table.delete_where p m !! k) → is_Some (m !! k).
Proof. intros [v [? _]%TableFacts.lookup_delete_where]. eauto. Qed.

Lemma ids_drawn_updateNoteLinks host noteId content w :
  ids_drawn host w → ids_drawn host (after (updateNoteLinks host noteId content) w).
Proof.
  apply updateNoteLinks_inv.
  - intros new w1. apply ids_drawn_mono; cbn [relinked log notes links draws].
    + done.
    + intros k ?%is_Some_alter. by left.
    + by left.
  - intros x w1. unfold after. rewrite addBacklink_run.
    destruct (notes w1 !! x) eqn:E; [|done].
    cbn zeta. destruct (links w1 !! _); cbn [snd];
      apply ids_drawn_mono; cbn [log notes links draws]; try lia.
    + intros k ?%is_Some_alter. by left.
    + by left.
    + intros k ?%is_Some_alter. by left.
    + intros k [->|?]%is_Some_insert; [right|by left].
      exists (draws w1). split; [lia|done].
  - intros x w1. unfold after. rewrite removeBacklink_run.
    destruct (notes w1 !! x) eqn:E; [|done].
    apply ids_drawn_mono; cbn [snd notes links draws]; try lia.
    + intros k ?%is_Some_alter. by left.
    + intros k ?%is_Some_delete_where. by left.
  - intros t w1. unfold after. rewrite addUnresolved_run.
    destruct (Table.first _ _); [done|].
    cbn zeta. destruct (links w1 !! _); cbn [snd];
      apply ids_drawn_mono; cbn [log notes links draws]; try lia; try by left.
    intros k [->|?]%is_Some_insert; [right|by left].
    exists (draws w1). split; [lia|done].
Qed.

Lemma ids_drawn_fresh host w :
  Inj (=) (=) (uuid_at host) → ids_drawn host w → fresh_ids host w.
Proof.
  intros Hinj [_ Il]. split.
  - intros i Hi. destruct (links w !! uuid_at host i) eqn:E; [|done].
    destruct (Il (uuid_at host i)) as (j & Hj & Heq); [eauto|].
    apply Hinj in Heq. lia.
  - intros i j _ _. apply Hinj.
Qed.

(** ** Sessions of the application *)

Lemma consistent_start : consistent App.start.
Proof.
  unfold consistent, keyed, symmetric, closed, duplicate_free, edges_recorded,
    unique_resolved, rows_anchored, unique_unresolved, resolved_row.
  cbn [App.start notes links]. split_and!; try by (intros; simplify_map_eq).
  intros src tgt. split.
  - intros (n & Hn & _). by simplify_map_eq.
  - intros (k & r & Hk & _). by simplify_map_eq.
Qed.

Lemma consistent_fire host e w w' :
  consistent w → App.fire host e w = (Some tt, w') → consistent w'.
Proof.
  intros Hcons. destruct e as [|noteId content|noteId content|noteId]; cbn [App.fire].
  - intros (note & w1 & Hrun & [= <-])%bind_fulfils.
    by apply (consistent_createNote host _ w w1 note) in Hrun.
  - unfold App.debouncedSave, App.try_catch.
    destruct (consistent_updateNote host noteId
                (Note.mkPartial None (Some content) None None None None None) w)
      as (w1 & -> & Hcons1); [done..|].
    by intros [= <-].
  - apply consistent_updateNoteLinks. done.
  - unfold App.handleDelete, App.try_catch.
    destruct (consistent_deleteNote noteId w Hcons) as (w1 & -> & Hcons1).
    by intros [= <-].
Qed.

Lemma consistent_session host events w w' :
  consistent w → App.session host events w = (Some tt, w') → consistent w'.
Proof.
  intros Hcons. unfold App.session.
  apply (forEach_fulfils_ind (λ _ w1, consistent w1)); [done|].
  intros _ e w1 w2. apply consistent_fire.
Qed.

Lemma fire_fulfils host e w :
  Inj (=) (=) (uuid_at host) → ids_drawn host w →
  ∃ w', App.fire host e w = (Some tt, w') ∧ ids_drawn host w'.
Proof.
  intros Hinj Hids.
  destruct e as [|noteId content|noteId content|noteId]; cbn [App.fire].
  - unfold App.handleCreateNote, bind. rewrite createNote_run.
    destruct (notes w !! uuid_at host (S (draws w))) eqn:E.
    + destruct Hids as [In _].
      destruct (In (uuid_at host (S (draws w)))) as (j & Hj & Heq); [eauto|].
      apply Hinj in Heq. lia.
    + eexists. split; [reflexivity|]. revert Hids.
      apply ids_drawn_mono; cbn [log notes links draws]; try lia; try by left.
      intros k [->|?]%is_Some_insert; [right|by left].
      exists (S (draws w)). split; [lia|done].
  - unfold App.debouncedSave, App.try_catch.
    destruct (updateNote_run host noteId
                (Note.mkPartial None (Some content) None None None None None) w)
      as (fu & -> & _).
    eexists. split; [reflexivity|]. revert Hids.
    apply ids_drawn_mono; cbn [log notes links draws]; try lia; try by left.
    intros k ?%is_Some_alter. by left.
  - destruct (updateNoteLinks_fulfils host noteId content w) as (w' & Hrun & _).
    { by apply ids_drawn_fresh. }
    exists w'. split; [done|].
    replace w' with (after (updateNoteLinks host noteId content) w)
      by (unfold after, App.debouncedUpdateLinks; by rewrite Hrun).
    by apply ids_drawn_updateNoteLinks.
  - unfold App.handleDelete, App.try_catch.
    destruct (notes w !! noteId) as [n|] eqn:Hn.
    + destruct (deleteNote_run noteId w n Hn) as (w' & -> & Hnotes & Hlinks & Hd).
      exists w'. split; [done|]. revert Hids.
      apply ids_drawn_mono; [lia| |].
      * rewrite Hnotes. intros k [v [_ Hk]%lookup_delete_Some].
        left. pose proof (delete_lookup noteId (Note.linkedNoteIds n)
                            (Note.backlinkNoteIds n) (notes w) k) as R.
        rewrite Hk in R. inversion R. eauto.
      * rewrite Hlinks. intros k ?%is_Some_delete_where%is_Some_delete_where.
        by left.
    + rewrite deleteNote_absent by done. eauto.
Qed.

(** ** The consistency of the link graph is kept *)

Lemma consistent_w1 : consistent Demo.w1.
Proof.
  apply (consistent_createNote Demo.host (Demo.titled "A") Demo.w0 Demo.w1
           (Note.mk "b" "A" "" "" [] 1000 1000 [] []));
    [reflexivity|reflexivity|apply consistent_start|vm_compute; reflexivity].
Qed.

Lemma consistent_w4 : consistent Demo.w4.
Proof.
  apply (consistent_updateNoteLinks Demo.host "b" "see [[B]]" Demo.w3 Demo.w4);
    [|vm_compute; reflexivity].
  apply (consistent_createNote Demo.host (Demo.titled "B") Demo.w2 Demo.w3
           (Note.mk "f" "B" "" "" [] 1004 1004 [] []));
    [reflexivity|reflexivity| |vm_compute; reflexivity].
  apply (consistent_updateNoteLinks Demo.host "b" "see [[B]]" Demo.w1 Demo.w2);
    [apply consistent_w1|vm_compute; reflexivity].
Qed.

(** X18. A content commit that fulfils keeps the link graph consistent:
    if, before it, every row sits under its id, the two adjacency lists
    mirror each other, mention stored notes only and hold no identifier
    twice, the outgoing lists and the resolved Link rows tell the same
    edges with one row for each, every Link row starts at a stored note
    with an empty target when unresolved, and no two unresolved rows share
    source and title, then all of this holds after it. *)
Theorem commit_keeps_consistency (host : Host) (noteId content : string)
    (w w' : World) :
  consistent w →
  updateNoteLinks host noteId content w = (Some tt, w') →
  consistent w'.
Proof. apply consistent_updateNoteLinks. Qed.

Lemma commit_keeps_consistency_witness : consistent Demo.w2.
Proof.
  apply (commit_keeps_consistency Demo.host "b" "see [[B]]" Demo.w1 Demo.w2).
  - apply consistent_w1.
  - vm_compute. reflexivity.
Defined.

(** X19. [deleteNote] fulfils on a consistent store and leaves a
    consistent store: the clean-up of the adjacency lists and of the Link
    rows leaves no list entry and no row that starts at a missing note. *)
Theorem deleteNote_keeps_consistency (id : string) (w : World) :
  consistent w →
  ∃ w', deleteNote id w = (Some tt, w') ∧ consistent w'.
Proof. apply consistent_deleteNote. Qed.

Lemma deleteNote_keeps_consistency_witness :
  ∃ w', deleteNote "f" Demo.w4 = (Some tt, w') ∧ consistent w'.
Proof.
  apply (deleteNote_keeps_consistency "f" Demo.w4).
  apply consistent_w4.
Defined.

(** X20. Creating a note and updating a note keep the link graph
    consistent as long as the caller passes no adjacency list: a new note
    enters with both lists empty under an identifier nothing refers to,
    and an update rewrites neither the lists nor the identifier. The
    update always fulfils. *)
Theorem note_writes_keep_consistency (host : Host) (w : World) :
  consistent w →
  (∀ data note w',
     Note.linkedNoteIds_opt data = None → Note.backlinkNoteIds_opt data = None →
     createNote host data w = (Some note, w') → consistent w') ∧
  (∀ id updates,
     Note.linkedNoteIds_opt updates = None → Note.backlinkNoteIds_opt updates = None →
     ∃ w', updateNote host id updates w = (Some tt, w') ∧ consistent w').
Proof.
  intros Hcons. split.
  - intros data note w' Hl Hb. by apply consistent_createNote.
  - intros id updates Hl Hb. by apply consistent_updateNote.
Qed.

Lemma note_writes_keep_consistency_witness :
  consistent Demo.r1 ∧
  ∃ w', updateNote Demo.host "b" (renaming "B") Demo.w2 = (Some tt, w') ∧ consistent w'.
Proof.
  destruct (note_writes_keep_consistency Demo.host Demo.w2) as [Hc Hu].
  - apply (consistent_updateNoteLinks Demo.host "b" "see [[B]]" Demo.w1 Demo.w2).
    + apply consistent_w1.
    + vm_compute. reflexivity.
  - split.
    + apply (Hc (Demo.titled "X") (Note.mk "f" "X" "" "" [] 1004 1004 [] []) Demo.r1);
        [reflexivity|reflexivity|vm_compute; reflexivity].
    + apply (Hu "b" (renaming "B")); reflexivity.
Defined.

(** X21. The store of the application stays consistent. The four
    handlers that write the store (the New Note button, the debounced
    save of the editor, the debounced link update of the wiki-link plugin
    and the confirmed deletion) are run one after the other, in any order
    and with any arguments, from the empty store; whenever such a session
    runs to its end, the store it leaves has every row under its id, the
    two adjacency lists mirror each other, mention stored notes only and
    hold no identifier twice, the outgoing lists and the resolved Link
    rows tell the same edges with one row for each, every Link row starts
    at a stored note, and no two unresolved rows share source and title. *)
Theorem session_consistent (host : Host) (events : list App.event) (w : World) :
  App.session host events App.start = (Some tt, w) →
  consistent w.
Proof. apply consistent_session, consistent_start. Qed.

Lemma session_consistent_witness :
  consistent
    (after (App.session App.counting_host
              [App.NewNote; App.NewNote;
               App.Save "1" "hello [[Untitled Note]]";
               App.UpdateLinks "1" "hello [[Untitled Note]]";
               App.Delete "3"]) App.start).
Proof.
  apply (session_consistent App.counting_host
           [App.NewNote; App.NewNote;
            App.Save "1" "hello [[Untitled Note]]";
            App.UpdateLinks "1" "hello [[Untitled Note]]";
            App.Delete "3"]).
  vm_compute. reflexivity.
Defined.

Lemma ids_drawn_start host : ids_drawn host App.start.
Proof. split; intros k [? ?]; by simplify_map_eq. Qed.

(** X22. With a host whose [uuidv4] never repeats itself, no handler
    rejects: every session from the empty store runs to its end, and every
    key of the two tables is an identifier the host has handed out. *)
Theorem session_fulfils (host : Host) (events : list App.event) :
  Inj (=) (=) (uuid_at host) →
  ∃ w, App.session host events App.start = (Some tt, w) ∧ ids_drawn host w.
Proof.
  intros Hinj. unfold App.session.
  apply (forEach_fulfils_inv (ids_drawn host)); [|apply ids_drawn_start].
  intros e w1. by apply fire_fulfils.
Qed.

Lemma session_fulfils_witness :
  ∃ w, App.session App.counting_host
         [App.NewNote; App.UpdateLinks "1" "[[Untitled Note]] [[B]]"; App.Delete "1"]
         App.start = (Some tt, w) ∧ ids_drawn App.counting_host w.
Proof.
  apply (session_fulfils App.counting_host
           [App.NewNote; App.UpdateLinks "1" "[[Untitled Note]] [[B]]"; App.Delete "1"]).
  exact pretty_nat_inj.
Defined.

(** ** Committing a text without references *)

Lemma filter_none {A} (P : A → Prop) `{∀ x, Decision (P x)} (l : list A) :
  (∀ x, x ∈ l → ¬ P x) → filter P l = [].
Proof.
  induction l as [|x l IH]; [done|]. intros H'.
  rewrite filter_cons_False by (apply H'; left). apply IH.
  intros y Hy. apply H'. by right.
Qed.

Lemma filter_all {A} (P : A → Prop) `{∀ x, Decision (P x)} (l : list A) :
  (∀ x, x ∈ l → P x) → filter P l = l.
Proof.
  induction l as [|x l IH]; [done|]. intros H'.
  rewrite filter_cons_True by (apply H'; left). f_equal. apply IH.
  intros y Hy. apply H'. by right.
Qed.

Lemma updateNoteLinks_plain host noteId content w cur :
  parseWikiLinks content = [] →
  notes w !! noteId = Some cur →
  ∃ w', updateNoteLinks host noteId content w = (Some tt, w') ∧
        forEach (Note.linkedNoteIds cur) (removeBacklink noteId) (relinked noteId [] w)
          = (Some tt, w').
Proof.
  intros Hparse Hcur.
  destruct (removeBacklink_loop noteId (Note.linkedNoteIds cur) (relinked noteId [] w))
    as (w' & Hloop & _).
  exists w'. split; [|done].
  unfold updateNoteLinks, bind, notes_get, notes_filter, notes_update.
  rewrite Hparse, Hcur.
  assert (Table.filter_toArray (λ note : Note.t, includes [] (Note.title note)) (notes w)
          = []) as ->.
  { unfold Table.filter_toArray. apply filter_none. intros x _. by unfold includes. }
  cbn [map].
  assert (removedLinks [] (Note.linkedNoteIds cur) = Note.linkedNoteIds cur) as ->.
  { unfold removedLinks. apply filter_all. intros x _. by unfold includes. }
  cbn [map addedLinks filter list_filter unresolvedTitles forEach].
  unfold relinked in Hloop. unfold ret. by rewrite Hloop.
Qed.

(** X23. Committing a text in which the parser finds no reference
    unlinks the note, and cannot reject, whatever the host: it fulfils
    without drawing an identifier, leaves the note with an empty outgoing
    list, and deletes no Link row but those from the note to a stored note
    of its former outgoing list, all of which go; in a symmetric store no
    note lists it as a backlink afterwards. *)
Theorem commit_without_references (host : Host) (noteId content : string)
    (w : World) (cur : Note.t) :
  notes w !! noteId = Some cur →
  hasWikiLinks content = false →
  ∃ w', updateNoteLinks host noteId content w = (Some tt, w') ∧
    draws w' = draws w ∧
    (∃ cur', notes w' !! noteId = Some cur' ∧ Note.linkedNoteIds cur' = []) ∧
    (∀ k r, links w' !! k = Some r ↔
            links w !! k = Some r ∧
            ¬ (Link.sourceNoteId r = noteId ∧
               Link.targetNoteId r ∈ Note.linkedNoteIds cur ∧
               is_Some (notes w !! Link.targetNoteId r))) ∧
    (symmetric w →
     ∀ k n', notes w' !! k = Some n' → noteId ∉ Note.backlinkNoteIds n').
Proof.
  intros Hcur Hhas.
  assert (parseWikiLinks content = []) as Hparse.
  { by apply hasWikiLinks_false. }
  destruct (updateNoteLinks_plain host noteId content w cur Hparse Hcur)
    as (w' & Hrun & Hloop).
  exists w'. split; [done|].
  assert (matching_ids w content = []) as Hnew.
  { unfold matching_ids. rewrite Hparse.
    unfold Table.filter_toArray. rewrite filter_none; [done|].
    intros x _. by unfold includes. }
  destruct (removeBacklink_loop noteId (Note.linkedNoteIds cur) (relinked noteId [] w))
    as (w'' & Hloop' & _ & Hdraws & _ & Hkept).
  assert (w'' = w') as -> by congruence.
  pose proof (removeBacklink_rows noteId _ _ _ Hloop) as Hrows.
  cbn [relinked log notes links draws] in Hdraws, Hkept, Hrows.
  split_and!.
  - done.
  - destruct (commit_source host noteId content w w' cur Hcur Hrun) as (cur' & ? & Hl).
    exists cur'. by rewrite Hl, Hnew.
  - intros k r. split.
    + intros Hk. destruct (Hrows k r Hk) as [H0 Hnot]. split; [done|].
      intros (? & ? & ?%(is_Some_alter (Note.set_linkedNoteIds []) noteId)).
      by apply Hnot.
    + intros [Hk Hnot]. apply Hkept; [done|].
      destruct (decide (Link.sourceNoteId r = noteId)); [|by left].
      destruct (decide (Link.targetNoteId r ∈ Note.linkedNoteIds cur)); [|by right; left].
      right. right.
      destruct (alter (Note.set_linkedNoteIds []) noteId (notes w)
                  !! Link.targetNoteId r) eqn:E; [|done].
      exfalso. apply Hnot. split_and!; [done..|].
      apply (is_Some_alter (Note.set_linkedNoteIds []) noteId). eauto.
  - intros Hsym k n' Hk' Hin.
    pose proof (commit_row host noteId content w w' cur k Hcur Hrun) as R.
    cbn zeta in R. rewrite Hk', Hnew in R.
    inversion R as [n ? (_ & _ & _ & Hb) E|]; subst. symmetry in E.
    apply Hb in Hin as [[Hin|[_ Hadd]] Hnot].
    + apply Hnot. split; [done|]. apply elem_of_removedLinks.
      split; [|by intros ?%elem_of_nil]. by apply (Hsym noteId k cur n).
    + by apply elem_of_addedLinks in Hadd as [?%elem_of_nil _].
Qed.

Lemma commit_without_references_witness :
  ∃ w', updateNoteLinks Demo.host "b" "nothing here" Demo.w4 = (Some tt, w') ∧
        draws w' = draws Demo.w4 ∧
        (∃ cur', notes w' !! "b" = Some cur' ∧ Note.linkedNoteIds cur' = []).
Proof.
  destruct (commit_without_references Demo.host "b" "nothing here" Demo.w4
              (Note.mk "b" "A" "" "" [] 1000 1000 ["f"] []))
    as (w' & Hrun & Hd & Hl & _).
  - vm_compute. reflexivity.
  - vm_compute. reflexivity.
  - exists w'. split_and!; [exact Hrun|exact Hd|exact Hl].
Defined.
(** ** The Link rows of a note and its adjacency lists *)

Lemma NoDup_filter_omap {A B} (g : A → option B) (P : B → Prop)
    `{∀ x, Decision (P x)} l :
  (∀ x y z, g x = Some z → g y = Some z → P z → x = y) →
  NoDup l → NoDup (filter P (omap g l)).
Proof.
  intros Hinj. induction 1 as [|x l Hx Hl IH]; [constructor|].
  csimpl. destruct (g x) as [z|] eqn:Hz; [|done].
  destruct (decide (P z)) as [HP|HP].
  - rewrite filter_cons_True by done. constructor; [|done].
    intros [_ (y & Hy & Hgy)%list_elem_of_omap]%list_elem_of_filter.
    by rewrite (Hinj x y z Hz Hgy HP) in Hx.
  - by rewrite filter_cons_False.
Qed.

Lemma resolved_rows_NoDup {B} `{EqDecision B} (w : World) (p : Link.t → bool)
    (end_of : Link.t → B) :
  unique_resolved w →
  (∀ r1 r2, p r1 = true → p r2 = true → end_of r1 = end_of r2 →
            Link.sourceNoteId r1 = Link.sourceNoteId r2 ∧
            Link.targetNoteId r1 = Link.targetNoteId r2) →
  NoDup (end_of <$> filter (λ r, Link.resolved r = true)
                      (Table.filter_toArray p (links w))).
Proof.
  intros Hu Hends. unfold Table.filter_toArray, Table.toArray.
  rewrite list_filter_filter.
  assert (∀ r, r ∈ filter (λ r, Link.resolved r = true ∧ p r = true)
                      (omap (λ k, links w !! k) (Table.keys (links w))) →
               Link.resolved r = true ∧ p r = true ∧ ∃ k, links w !! k = Some r) as Hin.
  { intros r [[? ?] (k & _ & ?)%list_elem_of_omap]%list_elem_of_filter. eauto. }
  apply NoDup_fmap_2_strong.
  - intros r1 r2 (Hr1 & Hp1 & k1 & Hk1)%Hin (Hr2 & Hp2 & k2 & Hk2)%Hin Heq.
    destruct (Hends r1 r2 Hp1 Hp2 Heq) as [Hs Ht].
    assert (k1 = k2) as -> by (by apply (Hu k1 k2 r1 r2)). congruence.
  - apply NoDup_filter_omap; [|apply IndexFacts.NoDup_keys].
    intros k1 k2 r Hk1 Hk2 [Hr _]. by apply (Hu k1 k2 r r).
Qed.

(** X24. In a consistent store the Link rows of a note tell its
    adjacency lists: the targets of the resolved rows that
    [getLinksFromNote] returns are the outgoing list of the note, and the
    sources of the resolved rows that [getLinksToNote] returns are its
    backlink list, each identifier once (as lists, up to the order). *)
Theorem link_rows_match_lists (w : World) (id : string) (n : Note.t) :
  consistent w → notes w !! id = Some n →
  ∃ outgoing incoming,
    getLinksFromNote id w = (Some outgoing, w) ∧
    getLinksToNote id w = (Some incoming, w) ∧
    Link.targetNoteId <$> filter (λ r, Link.resolved r = true) outgoing
      ≡ₚ Note.linkedNoteIds n ∧
    Link.sourceNoteId <$> filter (λ r, Link.resolved r = true) incoming
      ≡ₚ Note.backlinkNoteIds n.
Proof.
  intros (Hk & Hs & Hc & Hd & He & Hu & Ha & Hp) Hn.
  eexists _, _. split; [reflexivity|]. split; [reflexivity|].
  destruct (Hd id n Hn) as [Hdl Hdb]. split.
  - apply NoDup_Permutation; [|done|].
    + apply resolved_rows_NoDup; [done|].
      intros r1 r2 ->%String.eqb_eq ->%String.eqb_eq ?. done.
    + intros tgt. rewrite list_elem_of_fmap. split.
      * intros (r & -> & [Hr [Hsrc%String.eqb_eq (k & Hkr)]%TableFacts.elem_of_filter_toArray]
                        %list_elem_of_filter).
        assert (∃ n0, notes w !! id = Some n0 ∧
                      Link.targetNoteId r ∈ Note.linkedNoteIds n0)
          as (n0 & Hn0 & Hin) by (apply He; by exists k, r).
        congruence.
      * intros Hin.
        assert (resolved_row w id tgt) as (k & r & Hkr & Hsrc & Htgt & Hr)
          by (apply He; eauto).
        exists r. split; [done|]. apply list_elem_of_filter. split; [done|].
        apply TableFacts.elem_of_filter_toArray. split; [by apply String.eqb_eq|eauto].
  - apply NoDup_Permutation; [|done|].
    + apply resolved_rows_NoDup; [done|].
      intros r1 r2 ->%String.eqb_eq ->%String.eqb_eq ?. done.
    + intros src. rewrite list_elem_of_fmap. split.
      * intros (r & -> & [Hr [Htgt%String.eqb_eq (k & Hkr)]%TableFacts.elem_of_filter_toArray]
                        %list_elem_of_filter).
        assert (∃ ns, notes w !! Link.sourceNoteId r = Some ns ∧
                      id ∈ Note.linkedNoteIds ns)
          as (ns & Hns & Hin) by (apply He; by exists k, r).
        by apply (Hs (Link.sourceNoteId r) id ns n).
      * intros Hin.
        destruct (Hc id n src Hn) as [ns Hns]; [by right|].
        assert (resolved_row w src id) as (k & r & Hkr & Hsrc & Htgt & Hr).
        { apply He. exists ns. split; [done|]. by apply (Hs src id ns n). }
        exists r. split; [done|]. apply list_elem_of_filter. split; [done|].
        apply TableFacts.elem_of_filter_toArray. split; [by apply String.eqb_eq|eauto].
Qed.

Lemma link_rows_match_lists_witness :
  ∃ outgoing incoming,
    getLinksFromNote "b" Demo.w4 = (Some outgoing, Demo.w4) ∧
    getLinksToNote "b" Demo.w4 = (Some incoming, Demo.w4) ∧
    Link.targetNoteId <$> filter (λ r, Link.resolved r = true) outgoing ≡ₚ ["f"] ∧
    Link.sourceNoteId <$> filter (λ r, Link.resolved r = true) incoming ≡ₚ [].
Proof.
  apply (link_rows_match_lists Demo.w4 "b" (Note.mk "b" "A" "" "" [] 1000 1000 ["f"] [])).
  - apply consistent_w4.
  - vm_compute. reflexivity.
Defined.

(** ** Saves and the title *)

Lemma save_settled host id content w n :
  notes w !! id = Some n →
  Note.title n ≠ "Untitled Note" →
  JsString.endsWith (Note.title n) "..." = false →
  ∃ w', App.debouncedSave host id content w = (Some tt, w') ∧
        notes w' !! id
          = Some (Note.mk (Note.id n) (Note.title n) content (extractPlainText content)
                    (Note.tags n) (Note.createdAt n) (time_at host (draws w))
                    (Note.linkedNoteIds n) (Note.backlinkNoteIds n)) ∧
        (∀ k, k ≠ id → notes w' !! k = notes w !! k) ∧
        links w' = links w ∧ draws w' = S (draws w).
Proof.
  intros Hn Ht He. unfold App.debouncedSave, App.try_catch.
  rewrite (updateNote_content_run host id content w n Hn).
  apply String.eqb_neq in Ht. rewrite Ht, He. cbn [orb].
  eexists. split; [reflexivity|]. cbn [log notes links draws].
  split_and!; [by rewrite lookup_insert_eq| |done..].
  intros k Hk. by rewrite lookup_insert_ne.
Qed.

Lemma default_last_cons {A} (x y : A) l :
  default y (last (x :: l)) = default x (last l).
Proof.
  revert x y. induction l as [|z l IH]; intros x y; [done|].
  by rewrite last_cons_cons, (IH z y), (IH z x).
Qed.

(** X25. The automatic title settles. Once the title of a note is
    neither "Untitled Note" nor ends with "...", the saves of the editor
    leave it alone: after any number of saves the note has the title it
    had, the content saved last (its own content when none was saved),
    the identifier, creation time and adjacency lists it had; the other
    notes and the Link rows are as before, and one time stamp was drawn
    for each save. *)
Theorem saves_keep_settled_title (host : Host) (id : string) (contents : list string)
    (w : World) (n : Note.t) :
  notes w !! id = Some n →
  Note.title n ≠ "Untitled Note" →
  JsString.endsWith (Note.title n) "..." = false →
  ∃ w' n',
    forEach contents (App.debouncedSave host id) w = (Some tt, w') ∧
    notes w' !! id = Some n' ∧
    Note.title n' = Note.title n ∧
    Note.content n' = default (Note.content n) (last contents) ∧
    Note.id n' = Note.id n ∧ Note.createdAt n' = Note.createdAt n ∧
    Note.linkedNoteIds n' = Note.linkedNoteIds n ∧
    Note.backlinkNoteIds n' = Note.backlinkNoteIds n ∧
    (∀ k, k ≠ id → notes w' !! k = notes w !! k) ∧
    links w' = links w ∧
    draws w' = draws w + length contents.
Proof.
  revert w n. induction contents as [|content contents IH]; intros w n Hn Ht He.
  - exists w, n. cbn [forEach length]. split_and!; try done; lia.
  - destruct (save_settled host id content w n Hn Ht He)
      as (w1 & Hrun & Hrow & Hothers & Hlinks & Hdraws).
    destruct (IH w1 _ Hrow Ht He)
      as (w' & n' & Hrun' & Hn' & Ht' & Hc' & Hi' & Hca' & Hl' & Hb' & Ho' & Hlk' & Hd').
    exists w', n'. cbn [forEach length]. unfold bind at 1. rewrite Hrun.
    cbn in Ht', Hc', Hi', Hca', Hl', Hb'.
    split_and!; try done.
    + by rewrite Hc', default_last_cons.
    + intros k Hk. by rewrite Ho', Hothers.
    + congruence.
    + lia.
Qed.

Lemma saves_keep_settled_title_witness :
  ∃ w' n',
    forEach ["one"; "two"] (App.debouncedSave Demo.host "b") Demo.w4 = (Some tt, w') ∧
    notes w' !! "b" = Some n' ∧
    Note.title n' = "A" ∧ Note.content n' = "two" ∧
    draws w' = draws Demo.w4 + 2.
Proof.
  destruct (saves_keep_settled_title Demo.host "b" ["one"; "two"] Demo.w4
              (Note.mk "b" "A" "" "" [] 1000 1000 ["f"] []))
    as (w' & n' & Hrun & Hn & Ht & Hc & _ & _ & _ & _ & _ & _ & Hd).
  - vm_compute. reflexivity.
  - vm_compute. intros [=].
  - vm_compute. reflexivity.
  - exists w', n'. split_and!; [exact Hrun|exact Hn|exact Ht|exact Hc|exact Hd].
Defined.

(** ** What the pages show *)

(** X26. The backlinks panel is right in every store the application
    can reach: after any session of the four handlers, run one after the
    other from the empty store to their end, the query of [useBacklinks]
    returns what [getBacklinks] returns, namely, each once, exactly the
    stored notes whose outgoing list holds the note of the page (none
    when the note is missing). *)
Theorem useBacklinks_after_session (host : Host) (events : list App.event)
    (w : World) (id : string) :
  App.session host events App.start = (Some tt, w) →
  ∃ l, Hooks.useBacklinks id w = (Some l, w) ∧
       getBacklinks id w = (Some l, w) ∧
       NoDup l ∧
       ∀ m, m ∈ l ↔ is_Some (notes w !! id) ∧
                    notes w !! Note.id m = Some m ∧ id ∈ Note.linkedNoteIds m.
Proof.
  intros Hrun.
  assert (consistent w) as (Hk & Hs & _).
  { by apply (consistent_session host events App.start); [apply consistent_start|]. }
  unfold Hooks.useBacklinks, getBacklinks, bind, getNote, notes_get.
  destruct (notes w !! id) as [n|] eqn:Hn.
  - destruct (anyOf_backlinks w id n Hk Hs Hn) as [Hnd Hl].
    eexists. split_and!; [reflexivity|reflexivity|done|].
    intros m. rewrite Hl. split; [by eauto|tauto].
  - exists []. split_and!; [reflexivity|reflexivity|constructor|].
    intros m. split; [by intros ?%elem_of_nil|]. by intros [[? [=]] _].
Qed.

Lemma useBacklinks_after_session_witness :
  ∃ l, Hooks.useBacklinks "3"
         (after (App.session App.counting_host
                   [App.NewNote; App.NewNote;
                    App.Save "3" "Second";
                    App.UpdateLinks "1" "see [[Second]]"]) App.start)
       = (Some l, after (App.session App.counting_host
                   [App.NewNote; App.NewNote;
                    App.Save "3" "Second";
                    App.UpdateLinks "1" "see [[Second]]"]) App.start) ∧
       NoDup l.
Proof.
  destruct (useBacklinks_after_session App.counting_host
              [App.NewNote; App.NewNote;
               App.Save "3" "Second";
               App.UpdateLinks "1" "see [[Second]]"]
              (after (App.session App.counting_host
                        [App.NewNote; App.NewNote;
                         App.Save "3" "Second";
                         App.UpdateLinks "1" "see [[Second]]"]) App.start) "3")
    as (l & Hrun & _ & Hnd & _).
  - vm_compute. reflexivity.
  - exists l. split; [exact Hrun|exact Hnd].
Defined.

(** ** Link rows stay under their own identifier *)

Lemma links_keyed_same w w' : links w' = links w → links_keyed w → links_keyed w'.
Proof. intros Hl Hk k r. rewrite Hl. apply Hk. Qed.

Lemma links_keyed_subset w w' :
  (∀ k r, links w' !! k = Some r → links w !! k = Some r) →
  links_keyed w → links_keyed w'.
Proof. intros Hsub Hk k r Hkr. by apply Hk, Hsub. Qed.

Lemma links_keyed_insert w w' row :
  links w' = <[Link.id row := row]> (links w) → links_keyed w → links_keyed w'.
Proof.
  intros Hl Hk k r. rewrite Hl.
  intros [[<- <-]|[_ ?]]%lookup_insert_Some; [done|by apply Hk].
Qed.

Lemma links_keyed_updateNoteLinks host noteId content w :
  links_keyed w → links_keyed (after (updateNoteLinks host noteId content) w).
Proof.
  apply updateNoteLinks_inv.
  - intros new w1. by apply links_keyed_same.
  - intros x w1. unfold after. rewrite addBacklink_run.
    destruct (notes w1 !! x) eqn:E; [|done].
    cbn zeta. destruct (links w1 !! _); cbn [snd].
    + by apply links_keyed_same.
    + by apply (links_keyed_insert w1 _
                  (Link.mk (uuid_at host (draws w1)) noteId x (Note.title t)
                     (time_at host (S (draws w1))) true)).
  - intros x w1. unfold after. rewrite removeBacklink_run.
    destruct (notes w1 !! x) eqn:E; [|done].
    apply links_keyed_subset. cbn [snd links].
    by intros k r [? _]%TableFacts.lookup_delete_where.
  - intros t w1. unfold after. rewrite addUnresolved_run.
    destruct (Table.first _ _); [done|].
    cbn zeta. destruct (links w1 !! _); cbn [snd].
    + by apply links_keyed_same.
    + by apply (links_keyed_insert w1 _
                  (Link.mk (uuid_at host (draws w1)) noteId "" t
                     (time_at host (S (draws w1))) false)).
Qed.

(** X28. Every operation leaves each Link row under its own identifier,
    also when it rejects: the two places that add a row (the first and the
    third loop of [updateNoteLinks]) add it under the [id] it carries,
    [deleteNote] and the second loop only delete rows, and [createNote]
    and [updateNote] do not touch the table. *)
Theorem links_keyed_preserved (host : Host) (w : World) :
  links_keyed w →
  (∀ data, links (after (createNote host data) w) = links w) ∧
  (∀ id updates, links (after (updateNote host id updates) w) = links w) ∧
  (∀ noteId content, links_keyed (after (updateNoteLinks host noteId content) w)) ∧
  (∀ id, links_keyed (after (deleteNote id) w)).
Proof.
  intros Hk. split_and!.
  - intros data. unfold after. rewrite createNote_run.
    by destruct (notes w !! uuid_at host (S (draws w))).
  - intros id updates. destruct (updateNote_run host id updates w) as (fu & Hrun & _).
    unfold after. by rewrite Hrun.
  - intros noteId content. by apply links_keyed_updateNoteLinks.
  - intros id. unfold after. destruct (notes w !! id) as [n|] eqn:Hn.
    + destruct (deleteNote_run id w n Hn) as (w' & -> & _ & Hlinks & _). cbn [snd].
      revert Hk. apply links_keyed_subset. rewrite Hlinks.
      by intros k r [[? _]%TableFacts.lookup_delete_where _]%TableFacts.lookup_delete_where.
    + by rewrite deleteNote_absent.
Qed.

Lemma links_keyed_preserved_witness :
  links_keyed (after (updateNoteLinks Demo.host "b" "see [[C]]") Demo.w2) ∧
  links_keyed (after (deleteNote "b") Demo.w2).
Proof.
  destruct (links_keyed_preserved Demo.host Demo.w2) as (_ & _ & H3 & H4).
  - apply (links_keyed_updateNoteLinks Demo.host "b" "see [[B]]" Demo.w1).
    intros k r Hkr. vm_compute in Hkr. discriminate Hkr.
  - split; [apply H3|apply H4].
Defined.
